(** * Aggregating latency meter of gocb: histogram, snapshot, recorder, meter

    Shallow embedding of [meter_aggregating.go] (package [gocb]):
    [latencyHistogram], [cumulativeLatencyHistogram],
    [aggregatingValueRecorder], [aggregatingMeterGroup] and
    [AggregatingMeter] with its logger routine.

    Conventions.
    - [uint64] is a [Z] in [0, 2^64); additions wrap modulo [2^64].
    - [float64] is IEEE 754 binary64, module [F64] below.
    - A Go panic (index out of range, [make] with a negative length) and a
      conversion whose result Go leaves implementation-defined make the
      modelled function return [None].
    - [math.Log] and [math.Pow] belong to Go's standard library; their
      documented special cases are written out and the remaining cases are
      the section variables [logCore] and [powCore]. *)

From Stdlib Require Import ZArith Lia Bool List String Ascii.
From Stdlib Require Import Floats.
From stdpp Require Import gmap strings list.

Set Default Proof Using "Type".

(** ** IEEE 754 binary64 *)

Module F64.
Local Open Scope Z_scope.

(** Every finite binary64 number is an integer multiple of [2^-1074], the
    smallest subnormal.  [Fin neg k] is the number [(-1)^neg * k * 2^-1074];
    [Fin true 0] is the negative zero. *)
Inductive t : Type :=
  | NaN
  | Inf (neg : bool)
  | Fin (neg : bool) (k : Z).

(** [one_key] is the magnitude of [1.0]; [overflow_key] that of [2^1024],
    the first magnitude that rounds to an infinity. *)
Definition one_key : Z := 2 ^ 1074.
Definition overflow_key : Z := 2 ^ 2098.

(** Round [n/d] to the nearest integer, ties to even ([0 <= n], [0 < d]). *)
Definition rne (n d : Z) : Z :=
  let q := n / d in
  match 2 * (n mod d) ?= d with
  | Lt => q
  | Gt => q + 1
  | Eq => if Z.even q then q else q + 1
  end.

(** The least [s >= 0] with [n / (d * 2^s) < 2^53]: the number of low bits
    a 53-bit significand cannot keep ([0 < n], [0 < d]). *)
Definition shift (n d : Z) : Z :=
  let c := Z.max (Z.log2 n - Z.log2 d - 53) 0 in
  if n <? d * 2 ^ (53 + c) then c else c + 1.

(** The magnitude nearest to [n/d] (counted in units of [2^-1074]) that a
    53-bit significand represents, ties to even. *)
Definition round_key (n d : Z) : Z :=
  if n <=? 0 then 0
  else let s := shift n d in rne n (d * 2 ^ s) * 2 ^ s.

Definition round (neg : bool) (n d : Z) : t :=
  let k := round_key n d in
  if overflow_key <=? k then Inf neg else Fin neg k.

(** Round a signed rational [z/d] of units; an exact zero takes [zneg]. *)
Definition round_signed (zneg : bool) (z d : Z) : t :=
  if z =? 0 then Fin zneg 0 else round (z <? 0) (Z.abs z) d.

(** A decimal constant [n/d] of the source text, e.g. [1.5] is [lit 3 2]. *)
Definition lit (n d : Z) : t := round false (n * one_key) d.

(** Conversion [float64(v)] of an unsigned integer. *)
Definition of_uint64 (v : Z) : t := round false (v * one_key) 1.

Definition div (x y : t) : t :=
  match x, y with
  | NaN, _ | _, NaN => NaN
  | Inf _, Inf _ => NaN
  | Inf sx, Fin sy _ => Inf (xorb sx sy)
  | Fin sx _, Inf sy => Fin (xorb sx sy) 0
  | Fin sx kx, Fin sy ky =>
      if ky =? 0 then (if kx =? 0 then NaN else Inf (xorb sx sy))
      else round (xorb sx sy) (kx * one_key) ky
  end.

Definition mul (x y : t) : t :=
  match x, y with
  | NaN, _ | _, NaN => NaN
  | Inf sx, Inf sy => Inf (xorb sx sy)
  | Inf sx, Fin sy ky => if ky =? 0 then NaN else Inf (xorb sx sy)
  | Fin sx kx, Inf sy => if kx =? 0 then NaN else Inf (xorb sx sy)
  | Fin sx kx, Fin sy ky => round (xorb sx sy) (kx * ky) one_key
  end.

Definition signed (neg : bool) (k : Z) : Z := if neg then - k else k.

Definition add (x y : t) : t :=
  match x, y with
  | NaN, _ | _, NaN => NaN
  | Inf sx, Inf sy => if Bool.eqb sx sy then x else NaN
  | Inf _, _ => x
  | _, Inf _ => y
  | Fin sx kx, Fin sy ky =>
      round_signed (sx && sy) (signed sx kx + signed sy ky) 1
  end.

(** Comparison.  [ord] embeds the numbers other than NaN in [Z], keeping
    their order; the two zeros coincide. *)
Definition ord (x : t) : Z :=
  match x with
  | NaN => 0
  | Inf neg => signed neg overflow_key
  | Fin neg k => signed neg k
  end.

Definition is_nan (x : t) : bool :=
  match x with NaN => true | _ => false end.

Definition ordered (x y : t) : bool := negb (is_nan x) && negb (is_nan y).

Definition leb (x y : t) : bool := ordered x y && (ord x <=? ord y).
Definition ltb (x y : t) : bool := ordered x y && (ord x <? ord y).
Definition gtb (x y : t) : bool := ltb y x.
Definition geb (x y : t) : bool := leb y x.
Definition eqb (x y : t) : bool := ordered x y && (ord x =? ord y).

(** [math.Ceil]: the least integral value not below [x]; zeros, infinities
    and NaN are returned unchanged. *)
Definition Ceil (x : t) : t :=
  match x with
  | Fin false k => Fin false ((k + one_key - 1) / one_key * one_key)
  | Fin true k => Fin true (k / one_key * one_key)
  | _ => x
  end.

(** Truncation towards zero, the integer a conversion yields in range. *)
Definition trunc (x : t) : option Z :=
  match x with
  | Fin neg k => Some (signed neg (k / one_key))
  | _ => None
  end.

(** [int(x)] on a 64-bit platform and [uint64(x)]: the Go specification
    leaves the result implementation-defined when the truncated value does
    not fit, which is [None] here. *)
Definition to_int (x : t) : option Z :=
  match trunc x with
  | Some z => if (- 2 ^ 63 <=? z) && (z <? 2 ^ 63) then Some z else None
  | None => None
  end.

Definition to_uint64 (x : t) : option Z :=
  match trunc x with
  | Some z => if (0 <=? z) && (z <? 2 ^ 64) then Some z else None
  | None => None
  end.

(** [fmt.Sprintf("%.2f", x)]: the shortest decimal with two fractional
    digits, correctly rounded (ties to even). *)
Definition digit (d : Z) : ascii := ascii_of_nat (48 + Z.to_nat d).

Fixpoint decimal_aux (fuel : nat) (z : Z) (acc : string) : string :=
  match fuel with
  | O => acc
  | S fuel' =>
      let acc' := String (digit (z mod 10)) acc in
      if z <? 10 then acc' else decimal_aux fuel' (z / 10) acc'
  end.

Definition decimal (z : Z) : string :=
  decimal_aux (S (Z.to_nat (Z.log2 z))) z EmptyString.

Definition format2 (x : t) : string :=
  match x with
  | NaN => "NaN"
  | Inf false => "+Inf"
  | Inf true => "-Inf"
  | Fin neg k =>
      let h := rne (k * 100) one_key in
      ((if neg then "-" else EmptyString) ++ decimal (h / 100) ++ "."
        ++ String (digit (h / 10 mod 10)) (String (digit (h mod 10)) EmptyString))%string
  end.

(** Translation to the Standard Library's specification of binary64, used
    to compare the operations above with [SFdiv], [SFmul] and [SFadd]. *)
Definition to_spec (x : t) : spec_float :=
  match x with
  | NaN => S754_nan
  | Inf neg => S754_infinity neg
  | Fin neg k =>
      match k with
      | Zpos p =>
          let s := Z.max (Z.log2 k - 52) 0 in
          S754_finite neg (Z.to_pos (k / 2 ^ s)) (s - 1074)
      | _ => S754_zero neg
      end
  end.

Definition of_spec (x : spec_float) : t :=
  match x with
  | S754_nan => NaN
  | S754_infinity neg => Inf neg
  | S754_zero neg => Fin neg 0
  | S754_finite neg m e => Fin neg (Zpos m * 2 ^ (e + 1074))
  end.

(** Conversion [float64(i)] of a signed integer. *)
Definition of_int (z : Z) : t := round_signed false (z * one_key) 1.

Definition zero : t := Fin false 0.
Definition one : t := Fin false one_key.

(** The magnitudes of binary64 are the fixed points of the rounding below
    [2^1024]. *)
Definition valid (x : t) : bool :=
  match x with
  | Fin _ k => (0 <=? k) && (k <? overflow_key) && (round_key k 1 =? k)
  | _ => true
  end.

Definition is_finite (x : t) : bool :=
  match x with Fin _ _ => valid x | _ => false end.

Definition is_positive (x : t) : bool := is_finite x && ltb zero x.

(** A stand-in for the generic case of [math.Log], used where a concrete
    logarithm is needed: the logarithm to the base [2^(1/64)], rounded up
    to an integer.  It is monotone, zero at [1] and positive above; the
    base cancels in the quotient of two logarithms the histogram takes. *)
Definition log2_scaled (k : Z) : Z :=
  let j := Z.max (Z.log2 k - 52) 0 in
  let m := (k + 2 ^ j - 1) / 2 ^ j in
  Z.log2_up (m ^ 64) + 64 * (j - 1074).

Definition approxLog (x : t) : t :=
  match x with
  | Fin false k => of_int (log2_scaled k)
  | _ => NaN
  end.

(** A stand-in for the generic case of [math.Pow] at integral exponents:
    the exact power, correctly rounded. *)
Definition approxPow (x y : t) : t :=
  match x, y with
  | Fin sx kx, Fin sy ky =>
      let n := ky / one_key in
      if (ky mod one_key =? 0) && (0 <? kx) && (n <? 1024) then
        let neg := sx && Z.odd n in
        if sy then round neg (one_key ^ n * one_key) (kx ^ n)
        else round neg (kx ^ n * one_key) (one_key ^ n)
      else NaN
  | _, _ => NaN
  end.

End F64.


(** ** Unsigned 64-bit counters *)

Definition wrap64 (z : Z) : Z := (z mod 2 ^ 64)%Z.

(** ** The program *)

Section Meter.
Local Open Scope Z_scope.

(** Generic cases of [math.Log] and [math.Pow] (Go's standard library). *)
Variable logCore : F64.t -> F64.t.
Variable powCore : F64.t -> F64.t -> F64.t.

(** String constants of the package that are declared outside this file. *)
Variable meterNameResponses : string.
Variable meterAttribServiceKey : string.
Variable meterAttribPeerName : string.
Variable meterValueServiceKV : string.
Variable meterValueServiceViews : string.
Variable meterValueServiceQuery : string.
Variable meterValueServiceSearch : string.
Variable meterValueServiceAnalytics : string.
Variable meterValueServiceManagement : string.

(** [math.Log]: special cases as documented, in the order of the source. *)
Definition mathLog (x : F64.t) : F64.t :=
  match x with
  | F64.NaN => F64.NaN
  | F64.Inf false => x
  | F64.Inf true => F64.NaN
  | F64.Fin neg k =>
      if k =? 0 then F64.Inf true
      else if neg then F64.NaN
      else logCore x
  end.

(** [math.Pow]: [Pow(x, +-0) = 1], [Pow(1, y) = 1], [Pow(x, 1) = x]. *)
Definition mathPow (x y : F64.t) : F64.t :=
  if F64.eqb y F64.zero || F64.eqb x F64.one then F64.one
  else if F64.eqb y F64.one then x
  else powCore x y.

(** *** latencyHistogram *)

Record latencyHistogram : Type := {
  lh_bins : list Z;
  lh_maxValue : F64.t;
  lh_scaleFactor : F64.t;
  lh_ratioLog : F64.t;
  lh_commonRatio : F64.t;
  lh_startValue : F64.t
}.

Record cumulativeLatencyHistogram : Type := {
  lhs_bins : list Z;
  lhs_commonRatio : F64.t;
  lhs_startValue : F64.t
}.

Definition numBuckets (maxValue startValue commonRatio : F64.t) : F64.t :=
  let ratio := mathLog commonRatio in
  F64.add (F64.Ceil (F64.div (mathLog (F64.div maxValue startValue)) ratio))
          (F64.lit 2 1).

(** [make([]uint64, n)] panics for a negative [n]. *)
Definition newLatencyHistogram (maxValue startValue commonRatio : F64.t)
  : option latencyHistogram :=
  let ratio := mathLog commonRatio in
  match F64.to_int (numBuckets maxValue startValue commonRatio) with
  | Some n =>
      if 0 <=? n then
        Some {| lh_bins := replicate (Z.to_nat n) 0;
                lh_maxValue := maxValue;
                lh_scaleFactor := startValue;
                lh_ratioLog := ratio;
                lh_startValue := startValue;
                lh_commonRatio := commonRatio |}
      else None
  | None => None
  end.

(** The index [RecordValue] computes, before the slice is accessed. *)
Definition binIndex (lh : latencyHistogram) (value : Z) : option Z :=
  let v := F64.of_uint64 value in
  if F64.gtb v (lh_maxValue lh) then Some (Z.of_nat (length (lh_bins lh)) - 1)
  else if F64.leb v (lh_scaleFactor lh) then Some 0
  else F64.to_int (F64.Ceil (F64.div (mathLog (F64.div v (lh_scaleFactor lh)))
                                     (lh_ratioLog lh))).

Definition with_bins (lh : latencyHistogram) (bs : list Z) : latencyHistogram :=
  {| lh_bins := bs;
     lh_maxValue := lh_maxValue lh;
     lh_scaleFactor := lh_scaleFactor lh;
     lh_ratioLog := lh_ratioLog lh;
     lh_commonRatio := lh_commonRatio lh;
     lh_startValue := lh_startValue lh |}.

(** [atomic.AddUint64(&lh.bins[bin], 1)]; the index expression panics out
    of range. *)
Definition RecordValue (lh : latencyHistogram) (value : Z) : option latencyHistogram :=
  match binIndex lh value with
  | Some bin =>
      if (0 <=? bin) && (bin <? Z.of_nat (length (lh_bins lh))) then
        match lh_bins lh !! Z.to_nat bin with
        | Some c => Some (with_bins lh (<[Z.to_nat bin := wrap64 (c + 1)]> (lh_bins lh)))
        | None => None
        end
      else None
  | None => None
  end.

(** The loop of [AggregateAndReset]: every counter is swapped with zero and
    added to the running count, which is stored in the snapshot. *)
Fixpoint prefixSums (countSoFar : Z) (counts : list Z) : list Z :=
  match counts with
  | [] => []
  | thisCount :: rest =>
      let countSoFar' := wrap64 (countSoFar + thisCount) in
      countSoFar' :: prefixSums countSoFar' rest
  end.

Definition AggregateAndReset (lh : latencyHistogram)
  : cumulativeLatencyHistogram * latencyHistogram :=
  ({| lhs_bins := prefixSums 0 (lh_bins lh);
      lhs_commonRatio := lh_commonRatio lh;
      lhs_startValue := lh_startValue lh |},
   with_bins lh (replicate (length (lh_bins lh)) 0)).

(** [lhs.bins[len(lhs.bins)-1]] panics on an empty slice. *)
Definition TotalCount (lhs : cumulativeLatencyHistogram) : option Z :=
  last (lhs_bins lhs).

Definition renderBin (lhs : cumulativeLatencyHistogram) (i : Z) : string :=
  if i =? Z.of_nat (length (lhs_bins lhs)) - 1 then
    "> " +:+ F64.format2 (F64.mul (mathPow (lhs_commonRatio lhs) (F64.of_int (i - 1)))
                                  (lhs_startValue lhs))
  else
    "<= " +:+ F64.format2 (F64.mul (mathPow (lhs_commonRatio lhs) (F64.of_int i))
                                   (lhs_startValue lhs)).

(** The [for i, bin := range lhs.bins] loop, from index [i] on. *)
Fixpoint scanBins (lhs : cumulativeLatencyHistogram) (count : Z) (i : Z)
    (rest : list Z) : string :=
  match rest with
  | [] => "0.0"
  | bin :: rest' =>
      if count <=? bin then renderBin lhs i
      else scanBins lhs count (i + 1) rest'
  end.

Definition percentileCount (percentile : F64.t) (c : Z) : option Z :=
  F64.to_uint64 (F64.Ceil (F64.mul (F64.div percentile (F64.lit 100 1))
                                   (F64.of_uint64 c))).

Definition BinAtPercentile (lhs : cumulativeLatencyHistogram) (percentile : F64.t)
  : option string :=
  c ← TotalCount lhs;
  count ← percentileCount percentile c;
  Some (scanBins lhs count 0 (lhs_bins lhs)).

(** *** aggregatingValueRecorder *)

Record aggregatingValueRecorder : Type := {
  peerName : string;
  hist : latencyHistogram
}.

Definition newAggregatingValueRecorder (peer : string)
  : option aggregatingValueRecorder :=
  h ← newLatencyHistogram (F64.lit 2000000 1) (F64.lit 1000 1) (F64.lit 3 2);
  Some {| peerName := peer; hist := h |}.

Definition recorderRecordValue (bc : aggregatingValueRecorder) (val : Z)
  : option aggregatingValueRecorder :=
  h ← RecordValue (hist bc) val;
  Some {| peerName := peerName bc; hist := h |}.

Record recorderValues : Type := {
  total_count : Z;
  percentiles_us : gmap string string
}.

Definition GetAndResetValues (bc : aggregatingValueRecorder)
  : option (recorderValues * aggregatingValueRecorder) :=
  let '(snapshot, h) := AggregateAndReset (hist bc) in
  total ← TotalCount snapshot;
  p50 ← BinAtPercentile snapshot (F64.lit 50 1);
  p90 ← BinAtPercentile snapshot (F64.lit 90 1);
  p99 ← BinAtPercentile snapshot (F64.lit 99 1);
  p999 ← BinAtPercentile snapshot (F64.lit 999 10);
  p100 ← BinAtPercentile snapshot (F64.lit 100 1);
  Some ({| total_count := total;
           percentiles_us :=
             <["50.0" := p50]> (<["90.0" := p90]> (<["99.0" := p99]>
               (<["99.9" := p999]> (<["100.0" := p100]> ∅)))) |},
        {| peerName := peerName bc; hist := h |}).

(** *** aggregatingMeterGroup and AggregatingMeter

    Recorders are heap objects shared by reference: the group maps a peer
    label to the address of its recorder, and the handle a caller obtains
    from [ValueRecorder] is that address.  The group's mutex makes the
    look-up-or-insert of [ValueRecorder] and the copy of [Recorders] atomic
    steps; they are functions on the state here. *)

Abbreviation loc := nat (only parsing).

Record aggregatingMeterGroup : Type := {
  recorders : gmap string loc
}.

Record AggregatingMeter : Type := {
  interval : Z;
  valueRecorderGroups : gmap string aggregatingMeterGroup
}.

Abbreviation heap := (gmap loc aggregatingValueRecorder) (only parsing).

Record AggregatingMeterOptions : Type := {
  EmitInterval : Z
}.

Definition Recorders (amg : aggregatingMeterGroup) : list loc :=
  (map_to_list (recorders amg)).*2.

(** [10 * time.Minute] in nanoseconds. *)
Definition tenMinutes : Z := 600000000000.

Definition emptyGroup : aggregatingMeterGroup := {| recorders := ∅ |}.

Definition NewAggregatingMeter (opts : option AggregatingMeterOptions)
  : AggregatingMeter :=
  let opts := default {| EmitInterval := 0 |} opts in
  let interval := EmitInterval opts in
  let interval := if interval =? 0 then tenMinutes else interval in
  {| interval := interval;
     valueRecorderGroups :=
       <[meterValueServiceKV := emptyGroup]>
       (<[meterValueServiceViews := emptyGroup]>
       (<[meterValueServiceQuery := emptyGroup]>
       (<[meterValueServiceSearch := emptyGroup]>
       (<[meterValueServiceAnalytics := emptyGroup]>
       (<[meterValueServiceManagement := emptyGroup]> ∅))))) |}.

(** The emission record, [map[string]interface{}]: the [meta] entry and one
    entry per service. *)
Inductive outputEntry : Type :=
  | MetaEntry (emit_interval_s : Z)
  | ServiceEntry (peers : gmap string recorderValues).

(** [json.Marshal] of the emission record (Go's standard library): the
    bytes, or the text of the error. *)
Variable jsonMarshal : gmap string outputEntry -> string + string.

(** The inner loop of [generateOutput] over the recorders of one group. *)
Fixpoint collectValues (rs : list loc) (serviceMap : gmap string recorderValues)
    (hp : heap) : option (gmap string recorderValues * heap) :=
  match rs with
  | [] => Some (serviceMap, hp)
  | l :: rs' =>
      recorder ← hp !! l;
      '(values, recorder') ← GetAndResetValues recorder;
      collectValues rs' (<[peerName recorder := values]> serviceMap)
                    (<[l := recorder']> hp)
  end.

(** The outer loop of [generateOutput] over the groups. *)
Fixpoint collectServices (groups : list (string * aggregatingMeterGroup))
    (output : gmap string outputEntry) (hp : heap)
  : option (gmap string outputEntry * heap) :=
  match groups with
  | [] => Some (output, hp)
  | (serviceName, group) :: groups' =>
      let rs := Recorders group in
      if (length rs =? 0)%nat then collectServices groups' output hp
      else
        '(serviceMap, hp') ← collectValues rs ∅ hp;
        let output' :=
          if (0 <? size serviceMap)%nat
          then <[serviceName := ServiceEntry serviceMap]> output
          else output in
        collectServices groups' output' hp'
  end.

Definition generateOutput (am : AggregatingMeter) (hp : heap)
  : option (gmap string outputEntry * heap) :=
  collectServices (map_to_list (valueRecorderGroups am))
                  {[ "meta" := MetaEntry (interval am) ]} hp.

(** What [ValueRecorder] hands out: the no-op recorder or the address of an
    aggregating recorder. *)
Inductive valueRecorder : Type :=
  | defaultNoopValueRecorder
  | recorderAt (l : loc).

Definition ValueRecorder (name : string) (tags : gmap string string)
    (am : AggregatingMeter) (hp : heap)
  : option (valueRecorder * AggregatingMeter * heap) :=
  if negb (String.eqb name meterNameResponses) then
    Some (defaultNoopValueRecorder, am, hp)
  else
    match tags !! meterAttribServiceKey with
    | None => Some (defaultNoopValueRecorder, am, hp)
    | Some service =>
        match valueRecorderGroups am !! service with
        | None => Some (defaultNoopValueRecorder, am, hp)
        | Some recorderGroup =>
            match tags !! meterAttribPeerName with
            | None => Some (defaultNoopValueRecorder, am, hp)
            | Some peer =>
                match recorders recorderGroup !! peer with
                | Some l => Some (recorderAt l, am, hp)
                | None =>
                    recorder ← newAggregatingValueRecorder peer;
                    let l := fresh (dom hp) in
                    let group' :=
                      {| recorders := <[peer := l]> (recorders recorderGroup) |} in
                    Some (recorderAt l,
                          {| interval := interval am;
                             valueRecorderGroups :=
                               <[service := group']> (valueRecorderGroups am) |},
                          <[l := recorder]> hp)
                end
            end
        end
    end.

(** [RecordValue] through a handle; the no-op recorder drops the value. *)
Definition handleRecordValue (r : valueRecorder) (val : Z) (hp : heap)
  : option heap :=
  match r with
  | defaultNoopValueRecorder => Some hp
  | recorderAt l =>
      bc ← hp !! l;
      bc' ← recorderRecordValue bc val;
      Some (<[l := bc']> hp)
  end.

(** *** The logger routine

    The routine is one goroutine; what it selects on and what the request
    goroutines do in between is a sequence of events.  [running] tells
    whether the goroutine is still in its loop. *)

Inductive logLine : Type :=
  | logDebugf (msg : string)
  | logInfof (msg : string).

Record system : Type := {
  meter : AggregatingMeter;
  objects : heap;
  logged : list logLine;
  running : bool
}.

Inductive event : Type :=
  | EvRecord (name : string) (tags : gmap string string) (val : Z)
  | EvTick
  | EvStop.

(** One iteration of the loop after [time.After] fired; the result tells
    whether the loop goes on. *)
Definition loggerIteration (st : system) : option system :=
  '(jsonData, hp) ← generateOutput (meter st) (objects st);
  if (size jsonData =? 1)%nat then
    (* Nothing to log so make sure we don't just log empty objects. *)
    Some {| meter := meter st; objects := hp; logged := logged st;
            running := false |}
  else
    let '(jsonBytes, lines) :=
      match jsonMarshal jsonData with
      | inl bytes => (bytes, [])
      | inr err =>
          (EmptyString, [logDebugf ("Failed to generate threshold logging service JSON: " +:+ err)])
      end in
    Some {| meter := meter st; objects := hp;
            logged := logged st ++ lines ++ [logInfof ("Aggregate metrics: " +:+ jsonBytes)];
            running := true |}.

Definition step (st : system) (ev : event) : option system :=
  match ev with
  | EvRecord name tags val =>
      '(r, am, hp) ← ValueRecorder name tags (meter st) (objects st);
      hp' ← handleRecordValue r val hp;
      Some {| meter := am; objects := hp'; logged := logged st;
              running := running st |}
  | EvTick => if running st then loggerIteration st else Some st
  | EvStop =>
      Some {| meter := meter st; objects := objects st; logged := logged st;
              running := false |}
  end.

Fixpoint run (st : system) (evs : list event) : option system :=
  match evs with
  | [] => Some st
  | ev :: evs' => st' ← step st ev; run st' evs'
  end.

(** [NewAggregatingMeter] followed by [startLoggerRoutine]. *)
Definition start (opts : option AggregatingMeterOptions) : system :=
  {| meter := NewAggregatingMeter opts; objects := ∅; logged := [];
     running := true |}.

(** *** Sample instances

    A serializer in the manner of [json.Marshal] (object keys in byte
    order, no escaping), for the examples at the end of the file, and one
    that returns an error.  [encoding/json] has no error path for the
    records [generateOutput] builds (a duration, unsigned counts and
    strings under string keys), so no execution takes the error branch of
    [loggerRoutine]; the failing serializer is there to evaluate what that
    branch does. *)

Definition quote : string := String (ascii_of_nat 34) EmptyString.

Fixpoint insertKey (kv : string * string) (l : list (string * string))
  : list (string * string) :=
  match l with
  | [] => [kv]
  | x :: l' => if String.leb kv.1 x.1 then kv :: l else x :: insertKey kv l'
  end.

Definition sortKeys (l : list (string * string)) : list (string * string) :=
  foldr insertKey [] l.

Fixpoint joinComma (l : list string) : string :=
  match l with
  | [] => EmptyString
  | [x] => x
  | x :: l' => x +:+ "," +:+ joinComma l'
  end.

Definition jsonString (s : string) : string := quote +:+ s +:+ quote.

Definition jsonObject (members : list (string * string)) : string :=
  "{" +:+ joinComma (map (fun kv => jsonString kv.1 +:+ ":" +:+ kv.2) (sortKeys members))
      +:+ "}".

Definition renderValues (v : recorderValues) : string :=
  jsonObject
    [("percentiles_us",
      jsonObject (map (fun kv => (kv.1, jsonString kv.2)) (map_to_list (percentiles_us v))));
     ("total_count", F64.decimal (total_count v))].

Definition renderEntry (e : outputEntry) : string :=
  match e with
  | MetaEntry i => jsonObject [("emit_interval_s", F64.decimal i)]
  | ServiceEntry peers =>
      jsonObject (map (fun kv => (kv.1, renderValues kv.2)) (map_to_list peers))
  end.

Definition sampleMarshal (output : gmap string outputEntry) : string + string :=
  inl (jsonObject (map (fun kv => (kv.1, renderEntry kv.2)) (map_to_list output))).


(** ** Assumptions on the standard library and reference definitions *)

(** What the proofs below need of [math.Log] on the positive finite
    binary64 numbers: finite results, monotone, [0 <= Log(1)] and
    [0 < Log(x)] for [1 < x]. *)
Record sane_log : Prop := {
  log_finite : forall x, F64.is_positive x = true -> F64.is_finite (logCore x) = true;
  log_mono : forall x y,
    F64.is_positive x = true -> F64.is_positive y = true ->
    F64.leb x y = true -> F64.leb (logCore x) (logCore y) = true;
  log_one : F64.leb F64.zero (logCore F64.one) = true;
  log_pos : forall x,
    F64.is_finite x = true -> F64.ltb F64.one x = true ->
    F64.ltb F64.zero (logCore x) = true
}.

(** A shape as the claims take it: binary64 numbers with
    [maxValue > startValue > 0] and [commonRatio > 1]. *)
Record shape_ok (maxValue startValue commonRatio : F64.t) : Prop := {
  shape_max : F64.valid maxValue = true;
  shape_start : F64.valid startValue = true;
  shape_ratio : F64.valid commonRatio = true;
  shape_start_pos : F64.ltb F64.zero startValue = true;
  shape_start_max : F64.ltb startValue maxValue = true;
  shape_ratio_gt1 : F64.ltb F64.one commonRatio = true
}.

(** The histograms a constructed histogram can turn into. *)
Inductive evolves (lh0 : latencyHistogram) : latencyHistogram -> Prop :=
  | evolves_new : evolves lh0 lh0
  | evolves_record lh lh' value :
      evolves lh0 lh -> RecordValue lh value = Some lh' -> evolves lh0 lh'
  | evolves_reset lh :
      evolves lh0 lh -> evolves lh0 (AggregateAndReset lh).2.

(** Recording a sequence of values, in order. *)
Fixpoint recordAll (lh : latencyHistogram) (values : list Z) : option latencyHistogram :=
  match values with
  | [] => Some lh
  | value :: values' => lh' ← RecordValue lh value; recordAll lh' values'
  end.

(** The bin selection rule in the words of the specification. *)
Definition specBin (lh : latencyHistogram) (v : Z) : option Z :=
  let x := F64.of_uint64 v in
  if F64.gtb x (lh_maxValue lh) then Some (Z.of_nat (length (lh_bins lh)) - 1)
  else if F64.leb x (lh_startValue lh) then Some 0
  else F64.to_int (F64.Ceil (F64.div (mathLog (F64.div x (lh_startValue lh)))
                                     (mathLog (lh_commonRatio lh)))).

(** [BinAtPercentile] in the words of the specification: the threshold,
    the first bin whose cumulative value reaches it, and its rendering. *)
Definition specThreshold (p : F64.t) (total : Z) : option Z :=
  F64.to_uint64 (F64.Ceil (F64.mul (F64.div p (F64.lit 100 1)) (F64.of_uint64 total))).

Definition specBound (lhs : cumulativeLatencyHistogram) (index : nat) : string :=
  if decide (index = length (lhs_bins lhs) - 1)%nat then
    "> " +:+ F64.format2
      (F64.mul (mathPow (lhs_commonRatio lhs) (F64.of_int (Z.of_nat index - 1)))
               (lhs_startValue lhs))
  else
    "<= " +:+ F64.format2
      (F64.mul (mathPow (lhs_commonRatio lhs) (F64.of_int (Z.of_nat index)))
               (lhs_startValue lhs)).

Definition specBinAtPercentile (lhs : cumulativeLatencyHistogram) (p : F64.t)
  : option string :=
  total ← TotalCount lhs;
  threshold ← specThreshold p total;
  Some match list_find (fun bin => threshold <= bin) (lhs_bins lhs) with
       | Some (index, _) => specBound lhs index
       | None => "0.0"
       end.

(** A histogram nobody recorded into since it was constructed or reset. *)
Definition freshly_reset (lh : latencyHistogram) : Prop :=
  (exists maxValue startValue commonRatio,
      newLatencyHistogram maxValue startValue commonRatio = Some lh) \/
  (exists previous, lh = (AggregateAndReset previous).2).

Definition sumZ (l : list Z) : Z := foldr Z.add 0 l.

Definition nondecreasing (l : list Z) : Prop :=
  forall i j a b, (i <= j)%nat -> l !! i = Some a -> l !! j = Some b -> a <= b.

(** The recorder a group holds for a peer label, and the invariant of the
    meter: every registered address holds a recorder that carries its
    label, and no address is registered twice. *)
Definition recorder_of (am : AggregatingMeter) (service peer : string) : option loc :=
  group ← valueRecorderGroups am !! service; recorders group !! peer.

Definition meter_wf (am : AggregatingMeter) (hp : heap) : Prop :=
  (forall service peer l,
      recorder_of am service peer = Some l ->
      exists bc, hp !! l = Some bc /\ peerName bc = peer) /\
  (forall service1 peer1 service2 peer2 l,
      recorder_of am service1 peer1 = Some l ->
      recorder_of am service2 peer2 = Some l ->
      service1 = service2 /\ peer1 = peer2).

(** Heaps that hold recorders of the same labels at the same addresses. *)
Definition same_labels (hp hp' : heap) : Prop :=
  forall l : loc, peerName <$> hp' !! l = peerName <$> hp !! l.

(** The invariant of the meter over the list of groups [generateOutput]
    ranges over. *)
Definition groups_wf (groups : list (string * aggregatingMeterGroup)) (hp : heap) : Prop :=
  NoDup groups.*1 /\
  (forall service group peer l,
      (service, group) ∈ groups -> recorders group !! peer = Some l ->
      exists bc, hp !! l = Some bc /\ peerName bc = peer) /\
  (forall service1 group1 peer1 service2 group2 peer2 l,
      (service1, group1) ∈ groups -> (service2, group2) ∈ groups ->
      recorders group1 !! peer1 = Some l -> recorders group2 !! peer2 = Some l ->
      service1 = service2 /\ peer1 = peer2).

(** The calls of [ValueRecorder] that are answered with the no-op
    recorder: another metric name, no service label, a service the meter
    has no group for, or no peer label. *)
Definition unrecognised (name : string) (tags : gmap string string)
    (am : AggregatingMeter) : Prop :=
  name <> meterNameResponses \/
  tags !! meterAttribServiceKey = None \/
  (exists service, tags !! meterAttribServiceKey = Some service /\
                   valueRecorderGroups am !! service = None) \/
  tags !! meterAttribPeerName = None.

(** The value an event records for a (service, peer) pair, if it is a
    recording for that pair. *)
Definition recordedFor (service peer : string) (ev : event) : option Z :=
  match ev with
  | EvRecord name tags val =>
      if decide (name = meterNameResponses /\
                 tags !! meterAttribServiceKey = Some service /\
                 tags !! meterAttribPeerName = Some peer)
      then Some val else None
  | _ => None
  end.

Definition isInfo (line : logLine) : bool :=
  match line with logInfof _ => true | logDebugf _ => false end.

Definition isTick (ev : event) : bool :=
  match ev with EvTick => true | _ => false end.

(** What is known of the recorder of a (service, peer) pair after [n]
    values were recorded for it since it was last reset. *)
Definition counted (am : AggregatingMeter) (hp : heap) (service peer : string) (n : Z)
  : Prop :=
  (recorder_of am service peer = None /\ n = 0) \/
  (exists l bc,
      recorder_of am service peer = Some l /\ hp !! l = Some bc /\
      Forall (Z.le 0) (lh_bins (hist bc)) /\
      sumZ (lh_bins (hist bc)) = n /\
      (0 < n -> lh_bins (hist bc) <> [])).

(** A recorder made by [newAggregatingValueRecorder] from the histogram
    [h0], with non-negative counters that sum to at most [N]; a heap of
    such recorders; the recordings of values that fit [uint64]. *)
Definition recorder_ok (h0 : latencyHistogram) (N : Z) (bc : aggregatingValueRecorder)
  : Prop :=
  evolves h0 (hist bc) /\ Forall (Z.le 0) (lh_bins (hist bc)) /\
  sumZ (lh_bins (hist bc)) <= N.

Definition heap_ok (h0 : latencyHistogram) (N : Z) (hp : heap) : Prop :=
  forall (l : loc) bc, hp !! l = Some bc -> recorder_ok h0 N bc.

Definition in_range (ev : event) : Prop :=
  match ev with EvRecord _ _ val => 0 <= val < 2 ^ 64 | _ => True end.

Definition isRecord (ev : event) : bool :=
  match ev with EvRecord _ _ _ => true | _ => false end.

(** [generateOutput] with the orders of its two [range] loops made
    explicit.  Go leaves the iteration order of a map unspecified: an
    execution visits the groups in some order [groups] and the recorders of
    a group in some order [recorderOrder group].  [collectServices] above
    is the instance that takes the order of [Recorders]. *)
Fixpoint collectServicesIn (recorderOrder : aggregatingMeterGroup -> list loc)
    (groups : list (string * aggregatingMeterGroup))
    (output : gmap string outputEntry) (hp : heap)
  : option (gmap string outputEntry * heap) :=
  match groups with
  | [] => Some (output, hp)
  | (serviceName, group) :: groups' =>
      let rs := recorderOrder group in
      if (length rs =? 0)%nat then collectServicesIn recorderOrder groups' output hp
      else
        '(serviceMap, hp') ← collectValues rs ∅ hp;
        let output' :=
          if (0 <? size serviceMap)%nat
          then <[serviceName := ServiceEntry serviceMap]> output
          else output in
        collectServicesIn recorderOrder groups' output' hp'
  end.

(** ** Facts about binary64 rounding *)

Section Rounding.
Import F64.

Lemma rne_cases n d : 0 < d ->
  exists q r, n = d * q + r /\ 0 <= r < d /\
    ((2 * r < d /\ rne n d = q) \/ (2 * r > d /\ rne n d = q + 1) \/
     (2 * r = d /\ Z.even q = true /\ rne n d = q) \/
     (2 * r = d /\ Z.even q = false /\ rne n d = q + 1)).
Proof.
  intros Hd. exists (n / d), (n mod d).
  pose proof (Z.div_mod n d ltac:(lia)) as E.
  pose proof (Z.mod_pos_bound n d Hd) as B.
  split; [exact E|]. split; [exact B|].
  unfold rne. destruct (Z.compare_spec (2 * (n mod d)) d) as [H|H|H].
  - destruct (Z.even (n / d)) eqn:Ev; [right; right; left | right; right; right]; auto.
  - left; auto.
  - right; left; split; [lia|reflexivity].
Qed.

Lemma rne_mono n1 d1 n2 d2 :
  0 < d1 -> 0 < d2 -> n1 * d2 <= n2 * d1 -> rne n1 d1 <= rne n2 d2.
Proof.
  intros H1 H2 H.
  destruct (rne_cases n1 d1 H1) as (q1 & r1 & E1 & B1 & C1).
  destruct (rne_cases n2 d2 H2) as (q2 & r2 & E2 & B2 & C2).
  assert (Hq : q1 <= q2).
  { apply Z.lt_succ_r. apply (Z.mul_lt_mono_pos_l (d1 * d2)); [nia|].
    assert (d1 * q1 * d2 <= n1 * d2) by (apply Z.mul_le_mono_nonneg_r; lia).
    assert (n2 * d1 < d2 * (q2 + 1) * d1) by (apply Z.mul_lt_mono_pos_r; lia).
    lia. }
  destruct (Z.eq_dec q1 q2) as [->|Hne].
  - assert (Hr : r1 * d2 <= r2 * d1).
    { subst n1 n2. lia. }
    destruct C1 as [[? ->]|[[? ->]|[(?&?&->)|(?&?&->)]]];
    destruct C2 as [[? ->]|[[? ->]|[(?&?&->)|(?&?&->)]]]; try lia; try nia; try congruence.
  - assert (q1 + 1 <= q2) by lia.
    destruct C1 as [[? ->]|[[? ->]|[(?&?&->)|(?&?&->)]]];
    destruct C2 as [[? ->]|[[? ->]|[(?&?&->)|(?&?&->)]]]; lia.
Qed.

Lemma rne_exact q d : 0 < d -> rne (q * d) d = q.
Proof.
  intros Hd. unfold rne. rewrite Z.div_mul, Z.mod_mul by lia.
  simpl. destruct d; try lia; reflexivity.
Qed.

Lemma pow2_gt0 e : 0 <= e -> 0 < 2 ^ e.
Proof. intros; apply Z.pow_pos_nonneg; lia. Qed.

Lemma shift_spec n d : 0 < n -> 0 < d ->
  0 <= shift n d /\ n < d * 2 ^ (53 + shift n d) /\
  (shift n d = 0 \/ d * 2 ^ (52 + shift n d) <= n).
Proof.
  intros Hn Hd. unfold shift.
  pose proof (Z.log2_spec n Hn) as [Ha1 Ha2].
  pose proof (Z.log2_spec d Hd) as [Hb1 Hb2].
  pose proof (Z.log2_nonneg n) as Ha0. pose proof (Z.log2_nonneg d) as Hb0.
  set (a := Z.log2 n) in *. set (b := Z.log2 d) in *.
  set (c := Z.max (a - b - 53) 0).
  assert (Hc : 0 <= c) by lia.
  destruct (Z.ltb_spec n (d * 2 ^ (53 + c))) as [H|H].
  - split; [lia|]. split; [exact H|].
    destruct (Z.eq_dec c 0) as [?|Hc0]; [left; assumption|right].
    assert (c = a - b - 53) as -> by lia.
    replace (52 + (a - b - 53)) with (a - (b + 1)) by lia.
    assert (d * 2 ^ (a - (b + 1)) <= 2 ^ (b + 1) * 2 ^ (a - (b + 1))).
    { apply Z.mul_le_mono_nonneg_r; [apply Z.pow_nonneg|]; lia. }
    rewrite <- Z.pow_add_r in H0 by lia.
    replace (b + 1 + (a - (b + 1))) with a in H0 by lia. lia.
  - split; [lia|]. split.
    + assert (2 ^ (Z.succ a) <= 2 ^ b * 2 ^ (53 + (c + 1))).
      { rewrite <- Z.pow_add_r by lia. apply Z.pow_le_mono_r; lia. }
      assert (2 ^ b * 2 ^ (53 + (c + 1)) <= d * 2 ^ (53 + (c + 1))).
      { apply Z.mul_le_mono_nonneg_r; [apply Z.pow_nonneg|]; lia. }
      lia.
    + right. replace (52 + (c + 1)) with (53 + c) by lia. exact H.
Qed.

Lemma shift_mono n1 d1 n2 d2 :
  0 < n1 -> 0 < d1 -> 0 < n2 -> 0 < d2 -> n1 * d2 <= n2 * d1 ->
  shift n1 d1 <= shift n2 d2.
Proof.
  intros Hn1 Hd1 Hn2 Hd2 H.
  destruct (shift_spec n1 d1 Hn1 Hd1) as (P1 & U1 & L1).
  destruct (shift_spec n2 d2 Hn2 Hd2) as (P2 & U2 & L2).
  destruct (Z_le_gt_dec (shift n1 d1) (shift n2 d2)) as [?|Hgt]; [assumption|exfalso].
  destruct L1 as [L1|L1]; [lia|].
  set (s1 := shift n1 d1) in *. set (s2 := shift n2 d2) in *.
  assert (2 ^ (53 + s2) <= 2 ^ (52 + s1)) by (apply Z.pow_le_mono_r; lia).
  assert (0 < 2 ^ (53 + s2)) by (apply pow2_gt0; lia).
  assert (n2 * d1 < d2 * 2 ^ (53 + s2) * d1) by (apply Z.mul_lt_mono_pos_r; lia).
  assert (d1 * 2 ^ (52 + s1) * d2 <= n1 * d2) by (apply Z.mul_le_mono_nonneg_r; lia).
  assert (d2 * 2 ^ (53 + s2) * d1 <= d1 * 2 ^ (52 + s1) * d2).
  { replace (d2 * 2 ^ (53 + s2) * d1) with ((d1 * d2) * 2 ^ (53 + s2)) by ring.
    replace (d1 * 2 ^ (52 + s1) * d2) with ((d1 * d2) * 2 ^ (52 + s1)) by ring.
    apply Z.mul_le_mono_nonneg_l; nia. }
  lia.
Qed.

(** Bounds on a rounded quotient. *)
Lemma rne_upper n d B : 0 < d -> n <= B * d -> rne n d <= B.
Proof.
  intros Hd H. rewrite <- (rne_exact B d Hd). apply rne_mono; try lia.
  apply Z.mul_le_mono_nonneg_r; lia.
Qed.

Lemma rne_lower n d B : 0 < d -> B * d <= n -> B <= rne n d.
Proof.
  intros Hd H. rewrite <- (rne_exact B d Hd). apply rne_mono; try lia.
  apply Z.mul_le_mono_nonneg_r; lia.
Qed.

Lemma round_key_mono n1 d1 n2 d2 :
  0 < d1 -> 0 < d2 -> n1 * d2 <= n2 * d1 ->
  round_key n1 d1 <= round_key n2 d2.
Proof.
  intros Hd1 Hd2 H. unfold round_key.
  destruct (Z.leb_spec n1 0) as [Hn1|Hn1]; destruct (Z.leb_spec n2 0) as [Hn2|Hn2].
  - lia.
  - destruct (shift_spec n2 d2 Hn2 Hd2) as (P2 & U2 & L2).
    set (s2 := shift n2 d2) in *.
    assert (0 < 2 ^ s2) by (apply pow2_gt0; lia).
    assert (0 <= rne n2 (d2 * 2 ^ s2)) by (apply rne_lower; nia).
    nia.
  - exfalso. nia.
  - destruct (shift_spec n1 d1 Hn1 Hd1) as (P1 & U1 & L1).
    destruct (shift_spec n2 d2 Hn2 Hd2) as (P2 & U2 & L2).
    pose proof (shift_mono n1 d1 n2 d2 Hn1 Hd1 Hn2 Hd2 H) as Hs.
    set (s1 := shift n1 d1) in *. set (s2 := shift n2 d2) in *.
    assert (T1 : 0 < 2 ^ s1) by (apply pow2_gt0; lia).
    assert (T2 : 0 < 2 ^ s2) by (apply pow2_gt0; lia).
    destruct (Z.eq_dec s1 s2) as [E|NE].
    + rewrite E. apply Z.mul_le_mono_nonneg_r; [lia|].
      apply rne_mono; [nia|nia|].
      replace (n1 * (d2 * 2 ^ s2)) with (n1 * d2 * 2 ^ s2) by ring.
      replace (n2 * (d1 * 2 ^ s2)) with (n2 * d1 * 2 ^ s2) by ring.
      apply Z.mul_le_mono_nonneg_r; lia.
    + destruct L2 as [L2|L2]; [lia|].
      assert (A1 : rne n1 (d1 * 2 ^ s1) <= 2 ^ 53).
      { apply rne_upper; [nia|].
        rewrite Z.pow_add_r in U1 by lia. lia. }
      assert (A2 : 2 ^ 52 <= rne n2 (d2 * 2 ^ s2)).
      { apply rne_lower; [nia|].
        rewrite Z.pow_add_r in L2 by lia. lia. }
      assert (2 ^ 53 * 2 ^ s1 <= 2 ^ 52 * 2 ^ s2).
      { rewrite <- !Z.pow_add_r by lia. apply Z.pow_le_mono_r; lia. }
      assert (rne n1 (d1 * 2 ^ s1) * 2 ^ s1 <= 2 ^ 53 * 2 ^ s1)
        by (apply Z.mul_le_mono_nonneg_r; lia).
      assert (2 ^ 52 * 2 ^ s2 <= rne n2 (d2 * 2 ^ s2) * 2 ^ s2)
        by (apply Z.mul_le_mono_nonneg_r; lia).
      lia.
Qed.


Lemma round_key_nonneg n d : 0 < d -> 0 <= round_key n d.
Proof.
  intros Hd. unfold round_key. destruct (Z.leb_spec n 0) as [Hn|Hn]; [lia|].
  destruct (shift_spec n d Hn Hd) as (P & U & L).
  set (s := shift n d) in *.
  assert (0 < 2 ^ s) by (apply pow2_gt0; lia).
  assert (0 <= rne n (d * 2 ^ s)) by (apply rne_lower; nia).
  nia.
Qed.

(** A magnitude with a 53-bit significand is kept as it is. *)
Lemma round_key_exact m j d :
  0 <= m < 2 ^ 53 -> 0 <= j -> 0 < d -> round_key (m * 2 ^ j * d) d = m * 2 ^ j.
Proof.
  intros Hm Hj Hd. unfold round_key.
  assert (Pj : 0 < 2 ^ j) by (apply pow2_gt0; lia).
  destruct (Z.leb_spec (m * 2 ^ j * d) 0) as [Hn|Hn]; [nia|].
  destruct (shift_spec _ d Hn Hd) as (P & U & L).
  set (s := shift (m * 2 ^ j * d) d) in *.
  assert (Hs : s <= j).
  { destruct L as [L|L]; [lia|].
    destruct (Z_le_gt_dec s j); [assumption|exfalso].
    assert (2 ^ (53 + j) <= 2 ^ (52 + s)) by (apply Z.pow_le_mono_r; lia).
    assert (m * 2 ^ j < 2 ^ 53 * 2 ^ j) by (apply Z.mul_lt_mono_pos_r; lia).
    rewrite <- Z.pow_add_r in H0 by lia.
    assert (d * 2 ^ (52 + s) <= m * 2 ^ j * d) by lia.
    assert (m * 2 ^ j * d < 2 ^ (53 + j) * d) by (apply Z.mul_lt_mono_pos_r; lia).
    nia. }
  assert (E : 2 ^ j = 2 ^ (j - s) * 2 ^ s).
  { rewrite <- Z.pow_add_r by lia. f_equal. lia. }
  clearbody s. rewrite E.
  replace (m * (2 ^ (j - s) * 2 ^ s) * d) with ((m * 2 ^ (j - s)) * (d * 2 ^ s)) by ring.
  rewrite rne_exact by (assert (0 < 2 ^ s) by (apply pow2_gt0; lia); nia).
  ring.
Qed.

Lemma round_key_shape n d : 0 < d ->
  exists m s, round_key n d = m * 2 ^ s /\ 0 <= m <= 2 ^ 53 /\ 0 <= s.
Proof.
  intros Hd. unfold round_key. destruct (Z.leb_spec n 0) as [Hn|Hn].
  - exists 0, 0. lia.
  - destruct (shift_spec n d Hn Hd) as (P & U & L).
    set (s := shift n d) in *.
    assert (0 < 2 ^ s) by (apply pow2_gt0; lia).
    exists (rne n (d * 2 ^ s)), s. split; [reflexivity|]. split; [|exact P].
    split; [apply rne_lower; nia|].
    apply rne_upper; [nia|]. rewrite Z.pow_add_r in U by lia. lia.
Qed.

(** Rounding is idempotent: its results are binary64 magnitudes. *)
Lemma round_key_idem n d : 0 < d -> round_key (round_key n d) 1 = round_key n d.
Proof.
  intros Hd. destruct (round_key_shape n d Hd) as (m & s & -> & Hm & Hs).
  destruct (Z.eq_dec m (2 ^ 53)) as [->|Hne].
  - replace (2 ^ 53 * 2 ^ s) with (2 ^ 52 * 2 ^ (s + 1) * 1).
    + rewrite round_key_exact; lia.
    + rewrite Z.pow_add_r by lia. lia.
  - replace (m * 2 ^ s) with (m * 2 ^ s * 1) at 1 by lia.
    rewrite round_key_exact; lia.
Qed.

Lemma round_valid neg n d : 0 < d -> valid (round neg n d) = true.
Proof.
  intros Hd. unfold round.
  destruct (Z.leb_spec overflow_key (round_key n d)) as [H|H]; [reflexivity|].
  simpl. pose proof (round_key_nonneg n d Hd).
  rewrite round_key_idem by assumption.
  rewrite Z.eqb_refl, andb_true_r.
  apply andb_true_intro; split; [apply Z.leb_le|apply Z.ltb_lt]; lia.
Qed.

Lemma ord_round n d : 0 < d ->
  ord (round false n d) = Z.min (round_key n d) overflow_key.
Proof.
  intros Hd. unfold round.
  destruct (Z.leb_spec overflow_key (round_key n d)); simpl; lia.
Qed.

Lemma round_not_nan neg n d : is_nan (round neg n d) = false.
Proof. unfold round. destruct (overflow_key <=? round_key n d); reflexivity. Qed.

Lemma round_mono n1 d1 n2 d2 :
  0 < d1 -> 0 < d2 -> n1 * d2 <= n2 * d1 ->
  leb (round false n1 d1) (round false n2 d2) = true.
Proof.
  intros H1 H2 H. unfold leb, ordered.
  rewrite !round_not_nan. simpl. apply Z.leb_le.
  rewrite !ord_round by assumption.
  pose proof (round_key_mono n1 d1 n2 d2 H1 H2 H). lia.
Qed.

(** Comparisons in terms of [ord]. *)
Lemma leb_true x y :
  leb x y = true <-> is_nan x = false /\ is_nan y = false /\ ord x <= ord y.
Proof.
  unfold leb, ordered. destruct (is_nan x), (is_nan y); simpl;
    rewrite ?Z.leb_le; (split; [intros H|intros (H1 & H2 & H3)]);
    try discriminate; auto.
Qed.

Lemma ltb_true x y :
  ltb x y = true <-> is_nan x = false /\ is_nan y = false /\ ord x < ord y.
Proof.
  unfold ltb, ordered. destruct (is_nan x), (is_nan y); simpl;
    rewrite ?Z.ltb_lt; (split; [intros H|intros (H1 & H2 & H3)]);
    try discriminate; auto.
Qed.

Lemma leb_false x y :
  is_nan x = false -> is_nan y = false -> leb x y = false -> ord y < ord x.
Proof.
  unfold leb, ordered. intros -> ->. simpl. intros H. apply Z.leb_gt. exact H.
Qed.

Lemma ltb_false x y :
  is_nan x = false -> is_nan y = false -> ltb x y = false -> ord y <= ord x.
Proof.
  unfold ltb, ordered. intros -> ->. simpl. intros H. apply Z.ltb_ge. exact H.
Qed.

Lemma leb_trans x y z : leb x y = true -> leb y z = true -> leb x z = true.
Proof.
  rewrite !leb_true. intros (H1 & H2 & H3) (H4 & H5 & H6).
  repeat split; try assumption. lia.
Qed.

Lemma one_key_pos : 0 < one_key.
Proof. reflexivity. Qed.

Lemma overflow_key_eq : overflow_key = 2 ^ 1024 * one_key.
Proof. reflexivity. Qed.

(** Integers up to [2^53] convert exactly. *)
Lemma round_key_int z : 0 <= z <= 2 ^ 53 -> round_key (z * one_key) 1 = z * one_key.
Proof.
  intros Hz. unfold one_key.
  destruct (Z.eq_dec z (2 ^ 53)) as [->|Hne].
  - replace (2 ^ 53 * 2 ^ 1074) with (2 ^ 52 * 2 ^ 1075 * 1) by reflexivity.
    rewrite round_key_exact; lia.
  - replace (z * 2 ^ 1074) with (z * 2 ^ 1074 * 1) at 1 by lia.
    rewrite round_key_exact; lia.
Qed.

Lemma round_int neg z :
  0 <= z <= 2 ^ 53 -> round neg (z * one_key) 1 = Fin neg (z * one_key).
Proof.
  intros Hz. unfold round. rewrite round_key_int by assumption.
  destruct (Z.leb_spec overflow_key (z * one_key)) as [H|H]; [|reflexivity].
  exfalso. rewrite overflow_key_eq in H. pose proof one_key_pos.
  assert (z * one_key < 2 ^ 1024 * one_key) by (apply Z.mul_lt_mono_pos_r; lia).
  lia.
Qed.

End Rounding.

(** ** The histogram: counters and snapshots *)

Lemma RecordValue_inv lh value lh' :
  RecordValue lh value = Some lh' ->
  exists (b : nat) c,
    binIndex lh value = Some (Z.of_nat b) /\ lh_bins lh !! b = Some c /\
    lh' = with_bins lh (<[b := wrap64 (c + 1)]> (lh_bins lh)).
Proof.
  unfold RecordValue. destruct (binIndex lh value) as [bin|]; [|discriminate].
  destruct (Z.leb_spec 0 bin) as [H0|]; [|discriminate]. simpl.
  destruct (bin <? Z.of_nat (length (lh_bins lh))); [|discriminate].
  destruct (lh_bins lh !! Z.to_nat bin) as [c|] eqn:Hc; [|discriminate].
  intros [= <-]. exists (Z.to_nat bin), c.
  rewrite Z2Nat.id by assumption. auto.
Qed.

Lemma RecordValue_length lh value lh' :
  RecordValue lh value = Some lh' -> length (lh_bins lh') = length (lh_bins lh).
Proof.
  intros H. apply RecordValue_inv in H as (b & c & _ & _ & ->).
  simpl. apply length_insert.
Qed.

Lemma AggregateAndReset_length lh :
  length (lh_bins (AggregateAndReset lh).2) = length (lh_bins lh).
Proof. simpl. apply length_replicate. Qed.

Lemma prefixSums_length acc l : length (prefixSums acc l) = length l.
Proof. revert acc. induction l as [|x l IH]; intros acc; simpl; [|rewrite IH]; reflexivity. Qed.

Lemma evolves_length lh0 lh :
  evolves lh0 lh -> length (lh_bins lh) = length (lh_bins lh0).
Proof.
  induction 1 as [|lh lh' value _ IH H|lh _ IH].
  - reflexivity.
  - rewrite (RecordValue_length _ _ _ H). exact IH.
  - rewrite AggregateAndReset_length. exact IH.
Qed.

Lemma evolves_shape lh0 lh :
  evolves lh0 lh ->
  lh_maxValue lh = lh_maxValue lh0 /\ lh_scaleFactor lh = lh_scaleFactor lh0 /\
  lh_ratioLog lh = lh_ratioLog lh0 /\ lh_commonRatio lh = lh_commonRatio lh0 /\
  lh_startValue lh = lh_startValue lh0.
Proof.
  induction 1 as [|lh lh' value _ IH H|lh _ IH].
  - auto.
  - apply RecordValue_inv in H as (b & c & _ & _ & ->). exact IH.
  - exact IH.
Qed.

Lemma wrap64_small z : 0 <= z < 2 ^ 64 -> wrap64 z = z.
Proof. intros H. unfold wrap64. apply Z.mod_small. exact H. Qed.

Lemma sumZ_insert (l : list Z) i c x :
  l !! i = Some c -> sumZ (<[i := x]> l) = sumZ l - c + x.
Proof.
  revert i. induction l as [|y l IH]; intros [|i] H; simpl in *; try discriminate.
  - injection H as ->. lia.
  - rewrite (IH i H). lia.
Qed.

Lemma sumZ_lookup_le (l : list Z) i c :
  Forall (Z.le 0) l -> l !! i = Some c -> 0 <= c <= sumZ l.
Proof.
  intros Hl. revert i. induction Hl as [|y l Hy Hl IH]; intros [|i] H; simpl in *;
    try discriminate.
  - injection H as ->. clear IH. induction Hl; simpl in *; lia.
  - specialize (IH i H). lia.
Qed.

Lemma sumZ_replicate n : sumZ (replicate n 0) = 0.
Proof. induction n; simpl; lia. Qed.

(** Counters that sum to less than [2^64] never wrap: each recorded value
    adds one to the sum. *)
Lemma recordAll_sum lh values lh' :
  recordAll lh values = Some lh' ->
  Forall (Z.le 0) (lh_bins lh) ->
  sumZ (lh_bins lh) + Z.of_nat (length values) < 2 ^ 64 ->
  Forall (Z.le 0) (lh_bins lh') /\
  sumZ (lh_bins lh') = sumZ (lh_bins lh) + Z.of_nat (length values) /\
  length (lh_bins lh') = length (lh_bins lh).
Proof.
  revert lh. induction values as [|v values IH]; intros lh H Hpos Hsum; simpl in *.
  - injection H as <-. split; [assumption|]. split; [lia|reflexivity].
  - destruct (RecordValue lh v) as [lh1|] eqn:Hrec; [|discriminate]. simpl in H.
    pose proof (RecordValue_inv _ _ _ Hrec) as (b & c & _ & Hc & ->).
    pose proof (sumZ_lookup_le _ _ _ Hpos Hc) as Hcs.
    assert (Hw : wrap64 (c + 1) = c + 1) by (apply wrap64_small; lia).
    destruct (IH _ H) as (P1 & P2 & P3).
    + simpl. rewrite Hw. apply Forall_insert; [assumption|lia].
    + simpl. rewrite Hw, (sumZ_insert _ _ _ _ Hc). lia.
    + simpl in *. rewrite Hw, (sumZ_insert _ _ _ _ Hc) in P2.
      rewrite length_insert in P3. split; [assumption|]. split; [lia|assumption].
Qed.

(** Without wrap-around the running counts are the prefix sums. *)
Lemma prefixSums_spec acc l :
  0 <= acc -> Forall (Z.le 0) l -> acc + sumZ l < 2 ^ 64 ->
  Forall (Z.le acc) (prefixSums acc l) /\
  nondecreasing (prefixSums acc l) /\
  last (prefixSums acc l) = match l with [] => None | _ => Some (acc + sumZ l) end.
Proof.
  intros Hacc Hl. revert acc Hacc.
  induction Hl as [|x l Hx Hl IH]; intros acc Hacc Hsum; simpl in *.
  - split; [constructor|]. split; [|reflexivity].
    intros i j a b _ H. rewrite lookup_nil in H. discriminate.
  - assert (Hs : 0 <= sumZ l) by (clear -Hl; induction Hl; simpl; lia).
    assert (Hw : wrap64 (acc + x) = acc + x) by (apply wrap64_small; lia).
    rewrite Hw. destruct (IH (acc + x)) as (P1 & P2 & P3); [lia|lia|].
    split; [|split].
    + constructor; [lia|]. eapply Forall_impl; [exact P1|]. simpl. intros; lia.
    + intros [|i] [|j] a b Hij Ha Hb; simpl in *.
      * injection Ha as <-. injection Hb as <-. lia.
      * injection Ha as <-. apply list_elem_of_lookup_2 in Hb.
        rewrite Forall_forall in P1. specialize (P1 _ Hb). simpl in P1. lia.
      * lia.
      * eapply P2; [|exact Ha|exact Hb]. lia.
    + destruct l as [|y l'].
      * simpl. f_equal. lia.
      * simpl in *. rewrite P3. f_equal. lia.
Qed.

Lemma last_replicate_zero n : (0 < n)%nat -> last (prefixSums 0 (replicate n 0)) = Some 0.
Proof.
  intros Hn.
  assert (Hz : Forall (Z.le 0) (replicate n 0)) by (apply Forall_replicate; lia).
  assert (Hs : 0 + sumZ (replicate n 0) < 2 ^ 64) by (rewrite sumZ_replicate; lia).
  destruct (prefixSums_spec 0 (replicate n 0) ltac:(lia) Hz Hs) as (_ & _ & H).
  rewrite H, sumZ_replicate. destruct n; [lia|reflexivity].
Qed.

(** The loop of [BinAtPercentile] returns the rendering of the first bin
    that reaches [count]. *)
Lemma scanBins_find lhs count i rest :
  scanBins lhs count i rest =
  match list_find (fun bin => count <= bin) rest with
  | Some (index, _) => renderBin lhs (i + Z.of_nat index)
  | None => "0.0"
  end.
Proof.
  revert i. induction rest as [|bin rest IH]; intros i; simpl; [reflexivity|].
  destruct (Z.leb_spec count bin) as [H|H].
  - rewrite decide_True by assumption. simpl. f_equal. lia.
  - rewrite decide_False by lia. rewrite IH.
    destruct (list_find _ rest) as [[index x]|]; simpl; [|reflexivity].
    f_equal. lia.
Qed.

Lemma renderBin_specBound lhs (index : nat) :
  (index < length (lhs_bins lhs))%nat ->
  renderBin lhs (Z.of_nat index) = specBound lhs index.
Proof.
  intros Hi. unfold renderBin, specBound.
  destruct (Z.eqb_spec (Z.of_nat index) (Z.of_nat (length (lhs_bins lhs)) - 1)) as [E|E].
  - rewrite decide_True by lia. reflexivity.
  - rewrite decide_False by lia. reflexivity.
Qed.

(** ** The bin index stays in bounds *)

Section BinIndex.
Import F64.
Local Opaque one_key overflow_key Z.pow.

Lemma valid_fin s k :
  valid (Fin s k) = true -> 0 <= k < overflow_key /\ round_key k 1 = k.
Proof.
  unfold valid. rewrite !andb_true_iff, Z.leb_le, Z.ltb_lt, Z.eqb_eq. tauto.
Qed.

Lemma is_finite_inv x :
  is_finite x = true -> exists s k, x = Fin s k /\ 0 <= k < overflow_key.
Proof.
  intros H. destruct x as [|neg|neg k]; try discriminate H.
  apply (valid_fin neg) in H. exists neg, k. tauto.
Qed.

Lemma is_positive_inv x :
  is_positive x = true -> exists k, x = Fin false k /\ 0 < k < overflow_key.
Proof.
  unfold is_positive. rewrite andb_true_iff. intros [Hf Hp].
  destruct (is_finite_inv x Hf) as (s & k & -> & Hk).
  apply ltb_true in Hp as (_ & _ & Hp). simpl in Hp.
  destruct s; simpl in Hp; [lia|]. exists k. split; [reflexivity|lia].
Qed.

Lemma round_fin neg n d :
  round_key n d < overflow_key -> round neg n d = Fin neg (round_key n d).
Proof.
  intros H. unfold round. destruct (Z.leb_spec overflow_key (round_key n d)); [lia|reflexivity].
Qed.

Lemma round_inf neg n d :
  overflow_key <= round_key n d -> round neg n d = Inf neg.
Proof.
  intros H. unfold round. destruct (Z.leb_spec overflow_key (round_key n d)); [reflexivity|lia].
Qed.

Lemma round_key_zero d : round_key 0 d = 0.
Proof. reflexivity. Qed.

Lemma overflow_key_pos : 0 < overflow_key.
Proof. reflexivity. Qed.

Lemma round_zero neg d : round neg 0 d = Fin neg 0.
Proof. apply round_fin. rewrite round_key_zero. exact overflow_key_pos. Qed.

Lemma round_positive n d :
  0 < d -> one_key * d <= n -> round_key n d < overflow_key ->
  is_positive (round false n d) = true /\ one_key <= round_key n d.
Proof.
  intros Hd Hn Hov.
  assert (H1 : one_key <= round_key n d).
  { replace one_key with (round_key (1 * 2 ^ 1074 * d) d) at 1.
    - apply round_key_mono; try assumption.
      apply Z.mul_le_mono_nonneg_r; [lia|]. exact Hn.
    - rewrite round_key_exact; [reflexivity| |lia|assumption].
      split; [lia|reflexivity]. }
  split; [|exact H1]. unfold is_positive.
  pose proof (round_valid false n d Hd) as Hv.
  rewrite round_fin in * by assumption.
  apply andb_true_intro. split; [exact Hv|].
  apply ltb_true. simpl. pose proof one_key_pos. repeat split; lia.
Qed.

Lemma one_positive : is_positive one = true.
Proof. vm_compute. reflexivity. Qed.

Lemma ceil_div_mono a b : a <= b -> (a + one_key - 1) / one_key <= (b + one_key - 1) / one_key.
Proof. intros H. apply Z.div_le_mono; [exact one_key_pos|lia]. Qed.

Lemma ceil_div_nonneg a : 0 <= a -> 0 <= (a + one_key - 1) / one_key.
Proof. intros H. apply Z.div_pos; [|exact one_key_pos]. pose proof one_key_pos. lia. Qed.

Lemma trunc_Ceil_pos k :
  trunc (Ceil (Fin false k)) = Some ((k + one_key - 1) / one_key).
Proof.
  simpl. rewrite Z.div_mul by (pose proof one_key_pos; lia). reflexivity.
Qed.

Lemma trunc_Ceil_zero s : trunc (Ceil (Fin s 0)) = Some 0.
Proof. destruct s; vm_compute; reflexivity. Qed.

Lemma div_fin sx kx ky :
  0 < ky -> div (Fin sx kx) (Fin false ky) = round sx (kx * one_key) ky.
Proof.
  intros H. unfold div. destruct (Z.eqb_spec ky 0); [lia|].
  rewrite xorb_false_r. reflexivity.
Qed.

Lemma div_inf s k : div (Fin s k) (Inf false) = Fin s 0.
Proof. simpl. rewrite xorb_false_r. reflexivity. Qed.

Lemma div_inf_l k : div (Inf false) (Fin false k) = Inf false.
Proof. reflexivity. Qed.

Lemma mathLog_positive x : is_positive x = true -> mathLog x = logCore x.
Proof.
  intros H. destruct (is_positive_inv x H) as (k & -> & Hk).
  unfold mathLog. destruct (Z.eqb_spec k 0); [lia|reflexivity].
Qed.

(** The denominators the histogram divides by: a positive finite number
    or the positive infinity. *)
Definition positive_divisor (r : t) : Prop :=
  (exists kr, r = Fin false kr /\ 0 < kr) \/ r = Inf false.

(** The quotient of a non-negative finite number by such a denominator,
    rounded up, is a non-negative integer that grows with the numerator. *)
Lemma ceil_quotient_mono l1 l2 r c2 :
  is_finite l1 = true -> is_finite l2 = true ->
  0 <= ord l1 -> ord l1 <= ord l2 -> positive_divisor r ->
  trunc (Ceil (div l2 r)) = Some c2 ->
  exists c1, trunc (Ceil (div l1 r)) = Some c1 /\ 0 <= c1 <= c2.
Proof.
  intros F1 F2 H0 H12 Hr Hc2.
  destruct (is_finite_inv l1 F1) as (s1 & k1 & -> & Hk1).
  destruct (is_finite_inv l2 F2) as (s2 & k2 & -> & Hk2).
  destruct Hr as [(kr & -> & Hkr)| ->].
  - rewrite div_fin in * by assumption.
    assert (Hz1 : s1 = true -> k1 = 0) by (intros ->; simpl in H0; lia).
    assert (Hz2 : s2 = true -> k2 = 0) by (intros ->; simpl in H0, H12; destruct s1; simpl in *; lia).
    assert (Hc2' : 0 <= c2 /\ (s2 = false -> round_key (k2 * one_key) kr < overflow_key /\
                    c2 = (round_key (k2 * one_key) kr + one_key - 1) / one_key) /\
                  (s2 = true -> c2 = 0)).
    { destruct s2.
      - rewrite (Hz2 eq_refl), Z.mul_0_l, round_zero, trunc_Ceil_zero in Hc2.
        injection Hc2 as <-. repeat split; try lia; discriminate.
      - destruct (Z_lt_le_dec (round_key (k2 * one_key) kr) overflow_key) as [Hlt|Hge].
        + rewrite round_fin, trunc_Ceil_pos in Hc2 by assumption.
          injection Hc2 as <-. split; [|split; [auto|discriminate]].
          apply ceil_div_nonneg. apply round_key_nonneg. assumption.
        + rewrite round_inf in Hc2 by assumption. discriminate. }
    destruct Hc2' as (Hc20 & HcF & HcT).
    destruct s1.
    + rewrite (Hz1 eq_refl), Z.mul_0_l, round_zero, trunc_Ceil_zero.
      exists 0. split; [reflexivity|lia].
    + destruct s2.
      * assert (k1 = 0) by (simpl in H12; specialize (Hz2 eq_refl); lia). subst k1.
        rewrite Z.mul_0_l, round_zero, trunc_Ceil_zero.
        exists 0. split; [reflexivity|lia].
      * destruct (HcF eq_refl) as (Hov & ->). simpl in H12.
        assert (Hm : round_key (k1 * one_key) kr <= round_key (k2 * one_key) kr).
        { apply round_key_mono; try assumption.
          apply Z.mul_le_mono_nonneg_r; [lia|].
          apply Z.mul_le_mono_nonneg_r; [pose proof one_key_pos; lia|assumption]. }
        rewrite round_fin, trunc_Ceil_pos by lia.
        eexists. split; [reflexivity|]. split.
        -- apply ceil_div_nonneg. apply round_key_nonneg. assumption.
        -- apply ceil_div_mono. exact Hm.
  - rewrite div_inf, trunc_Ceil_zero in Hc2. injection Hc2 as <-.
    rewrite div_inf, trunc_Ceil_zero.
    exists 0. split; [reflexivity|lia].
Qed.

Lemma Ceil_div_shape l r c :
  is_finite l = true -> 0 <= ord l -> positive_divisor r ->
  trunc (Ceil (div l r)) = Some c ->
  exists s, Ceil (div l r) = Fin s (c * one_key) /\ 0 <= c /\ (s = true -> c = 0).
Proof.
  intros F H0 Hr Hc.
  destruct (is_finite_inv l F) as (s & k & -> & Hk).
  assert (Hz : s = true -> k = 0) by (intros ->; simpl in H0; lia).
  destruct Hr as [(kr & -> & Hkr)| ->].
  - rewrite div_fin in * by assumption. destruct s.
    + rewrite (Hz eq_refl), Z.mul_0_l, round_zero in *.
      rewrite trunc_Ceil_zero in Hc. injection Hc as <-.
      exists true. split; [vm_compute; reflexivity|]. split; [lia|reflexivity].
    + destruct (Z_lt_le_dec (round_key (k * one_key) kr) overflow_key) as [Hlt|Hge].
      * rewrite round_fin in * by assumption. rewrite trunc_Ceil_pos in Hc.
        injection Hc as <-. exists false. split; [reflexivity|].
        split; [|discriminate].
        apply ceil_div_nonneg. apply round_key_nonneg. assumption.
      * rewrite round_inf in Hc by assumption. discriminate.
  - rewrite div_inf in *. rewrite trunc_Ceil_zero in Hc. injection Hc as <-.
    exists s. split; [destruct s; vm_compute; reflexivity|]. split; [lia|reflexivity].
Qed.

Section WithLog.
Hypothesis Hlog : sane_log.

Lemma log_quotient ks k :
  0 < ks -> ks <= k -> round_key (k * one_key) ks < overflow_key ->
  let q := div (Fin false k) (Fin false ks) in
  is_positive q = true /\ mathLog q = logCore q /\
  is_finite (logCore q) = true /\ 0 <= ord (logCore q).
Proof using Hlog.
  intros Hks Hk Hov q. subst q. rewrite div_fin by assumption.
  destruct (round_positive (k * one_key) ks Hks) as [Hp H1];
    [pose proof one_key_pos; nia|assumption|].
  split; [exact Hp|]. split; [apply mathLog_positive, Hp|].
  split; [apply (log_finite Hlog), Hp|].
  pose proof (log_mono Hlog one (round false (k * one_key) ks) one_positive Hp) as Hm.
  pose proof (log_one Hlog) as H0.
  rewrite round_fin in * by assumption.
  assert (Hle : leb one (Fin false (round_key (k * one_key) ks)) = true).
  { apply leb_true. simpl. auto. }
  specialize (Hm Hle). apply leb_true in Hm as (_ & _ & Hm).
  apply leb_true in H0 as (_ & _ & H0). simpl in H0. lia.
Qed.

(** The index expression grows with the value and is never negative. *)
Lemma bin_expr_mono ks k1 k2 r c2 :
  0 < ks -> ks <= k1 -> k1 <= k2 -> positive_divisor r ->
  trunc (Ceil (div (mathLog (div (Fin false k2) (Fin false ks))) r)) = Some c2 ->
  exists c1,
    trunc (Ceil (div (mathLog (div (Fin false k1) (Fin false ks))) r)) = Some c1 /\
    0 <= c1 <= c2.
Proof using Hlog.
  intros Hks H1 H2 Hr Hc2.
  destruct (Z_lt_le_dec (round_key (k2 * one_key) ks) overflow_key) as [Hlt|Hge].
  - assert (Hm : round_key (k1 * one_key) ks <= round_key (k2 * one_key) ks).
    { apply round_key_mono; try assumption.
      apply Z.mul_le_mono_nonneg_r; [lia|].
      apply Z.mul_le_mono_nonneg_r; [pose proof one_key_pos; lia|assumption]. }
    destruct (log_quotient ks k1 Hks H1 ltac:(lia)) as (P1 & E1 & F1 & N1).
    destruct (log_quotient ks k2 Hks ltac:(lia) Hlt) as (P2 & E2 & F2 & N2).
    rewrite E1. rewrite E2 in Hc2.
    apply (ceil_quotient_mono _ _ r c2 F1 F2 N1); try assumption.
    pose proof (log_mono Hlog _ _ P1 P2) as Hmono.
    rewrite !div_fin in * by assumption. rewrite !round_fin in * by lia.
    assert (Hle : leb (Fin false (round_key (k1 * one_key) ks))
                      (Fin false (round_key (k2 * one_key) ks)) = true).
    { apply leb_true. simpl. auto. }
    apply Hmono in Hle. apply leb_true in Hle as (_ & _ & Hle). exact Hle.
  - exfalso. rewrite div_fin, round_inf in Hc2 by assumption.
    destruct Hr as [(kr & -> & Hkr)| ->]; simpl in Hc2; discriminate.
Qed.

Lemma log_ratio_divisor ratio :
  valid ratio = true -> ltb one ratio = true -> positive_divisor (mathLog ratio).
Proof using Hlog.
  intros Hv Hgt. apply ltb_true in Hgt as (_ & Hn & Hgt).
  change (ord one) with one_key in Hgt. pose proof one_key_pos as Hone.
  destruct ratio as [|neg|neg k]; [discriminate| |].
  - destruct neg; simpl in Hgt.
    + pose proof overflow_key_pos. lia.
    + right. reflexivity.
  - destruct (valid_fin _ _ Hv) as [Hk _].
    destruct neg; simpl in Hgt; [lia|].
    assert (Hp : is_positive (Fin false k) = true).
    { unfold is_positive. apply andb_true_intro. split; [exact Hv|].
      apply ltb_true. simpl. repeat split; lia. }
    rewrite (mathLog_positive _ Hp).
    pose proof (log_finite Hlog _ Hp) as Hf.
    assert (Hl : ltb zero (logCore (Fin false k)) = true).
    { apply (log_pos Hlog); [exact Hv|]. apply ltb_true. simpl.
      change (ord one) with one_key. repeat split; lia. }
    destruct (is_finite_inv _ Hf) as (s' & k' & E & Hk').
    rewrite E in *. apply ltb_true in Hl as (_ & _ & Hl). simpl in Hl.
    destruct s'; simpl in Hl; [lia|]. left. exists k'. split; [reflexivity|lia].
Qed.

End WithLog.

Lemma lit_two : lit 2 1 = Fin false (2 * one_key).
Proof. unfold lit. apply round_int. lia. Qed.

Lemma add_two s c :
  0 <= c -> (s = true -> c = 0) ->
  add (Fin s (c * one_key)) (lit 2 1) = round false ((c + 2) * one_key) 1.
Proof.
  intros Hc Hs. rewrite lit_two. unfold add. rewrite andb_false_r.
  pose proof one_key_pos as Hone.
  assert (E : signed s (c * one_key) + signed false (2 * one_key) = (c + 2) * one_key).
  { destruct s; simpl; [rewrite (Hs eq_refl)|]; lia. }
  rewrite E. unfold round_signed.
  assert (0 < (c + 2) * one_key) by nia.
  destruct (Z.eqb_spec ((c + 2) * one_key) 0); [lia|].
  destruct (Z.ltb_spec ((c + 2) * one_key) 0); [lia|].
  rewrite Z.abs_eq by lia. reflexivity.
Qed.

Lemma to_int_add_two_inv x n :
  to_int (add x (lit 2 1)) = Some n -> exists c, trunc x = Some c.
Proof.
  rewrite lit_two. destruct x as [|neg|neg k]; intros H.
  - discriminate H.
  - discriminate H.
  - eexists. reflexivity.
Qed.

Lemma shape_inv maxValue startValue commonRatio :
  shape_ok maxValue startValue commonRatio ->
  exists ks, startValue = Fin false ks /\ 0 < ks /\
    (maxValue = Inf false \/ exists km, maxValue = Fin false km /\ ks < km).
Proof.
  intros [Hvm Hvs _ Hp Hsm _].
  apply ltb_true in Hp as (_ & _ & Hp). apply ltb_true in Hsm as (_ & Hnm & Hsm).
  simpl in Hp. pose proof overflow_key_pos as Hov.
  destruct startValue as [|neg|neg ks]; [simpl in Hp; lia| |].
  - destruct neg; simpl in Hp; [lia|].
    destruct maxValue as [|nm|nm km]; [discriminate| |].
    + destruct nm; simpl in Hsm; lia.
    + destruct (valid_fin _ _ Hvm). destruct nm; simpl in Hsm; lia.
  - destruct (valid_fin _ _ Hvs) as [Hks _].
    destruct neg; simpl in Hp; [lia|]. exists ks. split; [reflexivity|].
    split; [assumption|].
    destruct maxValue as [|nm|nm km]; [discriminate| |].
    + destruct nm; simpl in Hsm; [lia|]. left. reflexivity.
    + destruct (valid_fin _ _ Hvm). destruct nm; simpl in Hsm; [lia|].
      right. exists km. split; [reflexivity|lia].
Qed.

Section Constructed.
Hypothesis Hlog : sane_log.
Variables maxValue startValue commonRatio : t.
Hypothesis Hshape : shape_ok maxValue startValue commonRatio.
Variable lh0 : latencyHistogram.
Hypothesis Hnew : newLatencyHistogram maxValue startValue commonRatio = Some lh0.

(** What a successful construction tells: the shape is finite, the
    number of bins is the rounded-up quotient plus two. *)
Lemma construct_inv :
  exists ks km cX,
    startValue = Fin false ks /\ maxValue = Fin false km /\ 0 < ks /\ ks < km /\
    positive_divisor (mathLog commonRatio) /\
    trunc (Ceil (div (mathLog (div maxValue startValue)) (mathLog commonRatio))) = Some cX /\
    0 <= cX /\
    2 <= Z.of_nat (length (lh_bins lh0)) /\
    (Z.of_nat (length (lh_bins lh0)) < 2 ^ 53 ->
     Z.of_nat (length (lh_bins lh0)) = cX + 2).
Proof using Hlog Hshape Hnew.
  pose proof (log_ratio_divisor Hlog commonRatio (shape_ratio _ _ _ Hshape)
                (shape_ratio_gt1 _ _ _ Hshape)) as Hr.
  destruct (shape_inv _ _ _ Hshape) as (ks & Es & Hks & Hmax).
  pose proof one_key_pos as Hone.
  unfold newLatencyHistogram, numBuckets in Hnew.
  destruct (to_int _) as [n|] eqn:Hn; [|discriminate].
  destruct (Z.leb_spec 0 n) as [Hn0|]; [|discriminate].
  injection Hnew as <-. simpl. rewrite length_replicate, Z2Nat.id by assumption.
  subst startValue.
  destruct Hmax as [Em|(km & Em & Hkm)]; subst maxValue.
  { exfalso. apply to_int_add_two_inv in Hn as (c & Hn).
    rewrite div_inf_l in Hn. change (mathLog (Inf false)) with (Inf false) in Hn.
    destruct Hr as [(kr & Ekr & Hkr)| Ekr]; rewrite Ekr in Hn; discriminate Hn. }
  exists ks, km.
  set (X := div (mathLog (div (Fin false km) (Fin false ks))) (mathLog commonRatio)) in *.
  destruct (trunc (Ceil X)) as [cX|] eqn:HcX.
  2:{ exfalso. apply to_int_add_two_inv in Hn as (c & Hn). congruence. }
  exists cX.
  destruct (bin_expr_mono Hlog ks ks km _ cX Hks ltac:(lia) ltac:(lia) Hr HcX)
    as (c1 & Hc1 & Hc1b).
  assert (Hq : round_key (km * one_key) ks < overflow_key).
  { destruct (Z_lt_le_dec (round_key (km * one_key) ks) overflow_key); [assumption|exfalso].
    subst X. rewrite div_fin, round_inf in HcX by assumption.
    change (mathLog (Inf false)) with (Inf false) in HcX.
    destruct Hr as [(kr & Ekr & Hkr)| Ekr]; rewrite Ekr in HcX; discriminate HcX. }
  destruct (log_quotient Hlog ks km Hks ltac:(lia) Hq) as (P & E & F & N).
  destruct (Ceil_div_shape (mathLog (div (Fin false km) (Fin false ks)))
              (mathLog commonRatio) cX)
    as (s & EC & HcX0 & HsC); try assumption; try (rewrite E; assumption).
  fold X in EC. rewrite EC, add_two in Hn by assumption.
  unfold to_int in Hn.
  destruct (trunc (round false ((cX + 2) * one_key) 1)) as [z|] eqn:Hz; [|discriminate].
  destruct ((- 2 ^ 63 <=? z) && (z <? 2 ^ 63)); [|discriminate].
  injection Hn as ->.
  assert (Hfin : round false ((cX + 2) * one_key) 1 = Fin false (round_key ((cX + 2) * one_key) 1)).
  { unfold round in *. destruct (overflow_key <=? _); [discriminate|reflexivity]. }
  rewrite Hfin in Hz. unfold trunc, signed in Hz. injection Hz as <-.
  assert (H2 : 2 * one_key <= round_key ((cX + 2) * one_key) 1).
  { rewrite <- (round_key_int 2) by lia. apply round_key_mono; nia. }
  repeat split; try assumption; try lia.
  - apply Z.div_le_lower_bound; lia.
  - intros Hsmall. destruct (Z_le_gt_dec (cX + 2) (2 ^ 53)) as [Hle|Hgt].
    + rewrite round_key_int by lia. apply Z.div_mul. lia.
    + exfalso.
      assert (2 ^ 53 * one_key <= round_key ((cX + 2) * one_key) 1).
      { rewrite <- (round_key_int (2 ^ 53)) by lia. apply round_key_mono; nia. }
      assert (2 ^ 53 <= round_key ((cX + 2) * one_key) 1 / one_key)
        by (apply Z.div_le_lower_bound; lia).
      lia.
Qed.

Lemma constructed_fields :
  lh_maxValue lh0 = maxValue /\ lh_scaleFactor lh0 = startValue /\
  lh_ratioLog lh0 = mathLog commonRatio /\ lh_commonRatio lh0 = commonRatio /\
  lh_startValue lh0 = startValue.
Proof using Hnew.
  unfold newLatencyHistogram in Hnew.
  destruct (to_int _) as [n|]; [|discriminate].
  destruct (0 <=? n); [|discriminate]. injection Hnew as <-. simpl. auto.
Qed.

End Constructed.

Lemma of_uint64_fin v :
  0 <= v < 2 ^ 64 -> of_uint64 v = Fin false (round_key (v * one_key) 1).
Proof.
  intros Hv. unfold of_uint64. apply round_fin.
  assert (H : round_key (v * one_key) 1 <= round_key (1 * 2 ^ 1138 * 1) 1).
  { apply round_key_mono; try lia.
    change (1 * 2 ^ 1138 * 1) with (2 ^ 64 * one_key).
    pose proof one_key_pos. nia. }
  rewrite round_key_exact in H by lia.
  assert (1 * 2 ^ 1138 < overflow_key) by reflexivity. lia.
Qed.

Section Bounds.
Hypothesis Hlog : sane_log.
Variables maxValue startValue commonRatio : t.
Hypothesis Hshape : shape_ok maxValue startValue commonRatio.
Variables lh0 lh : latencyHistogram.
Hypothesis Hnew : newLatencyHistogram maxValue startValue commonRatio = Some lh0.
Hypothesis Hev : evolves lh0 lh.
Hypothesis Hlen : Z.of_nat (length (lh_bins lh)) < 2 ^ 53.

Lemma evolved_fields :
  lh_maxValue lh = maxValue /\ lh_scaleFactor lh = startValue /\
  lh_ratioLog lh = mathLog commonRatio /\ lh_commonRatio lh = commonRatio /\
  lh_startValue lh = startValue.
Proof using Hnew Hev.
  destruct (evolves_shape _ _ Hev) as (E1 & E2 & E3 & E4 & E5).
  destruct (constructed_fields _ _ _ _ Hnew) as (F1 & F2 & F3 & F4 & F5).
  rewrite E1, E2, E3, E4, E5. auto.
Qed.

(** The index lies in the slice; below the last bin unless the value
    exceeds [maxValue]. *)
Lemma binIndex_bounds value :
  0 <= value < 2 ^ 64 ->
  exists bin,
    binIndex lh value = Some bin /\
    0 <= bin <= Z.of_nat (length (lh_bins lh)) - 1 /\
    (gtb (of_uint64 value) (lh_maxValue lh) = false ->
     bin < Z.of_nat (length (lh_bins lh)) - 1).
Proof using Hlog Hshape Hnew Hev Hlen.
  intros Hv.
  destruct evolved_fields as (E1 & E2 & E3 & _ & _).
  destruct (construct_inv Hlog _ _ _ Hshape _ Hnew)
    as (ks & km & cX & Es & Em & Hks & Hkm & Hr & HcX & HcX0 & Hn2 & Hn).
  rewrite <- (evolves_length _ _ Hev) in Hn2, Hn.
  specialize (Hn Hlen).
  unfold binIndex. rewrite E1, E2, E3, Es, Em, (of_uint64_fin value Hv).
  set (kv := round_key (value * one_key) 1).
  destruct (gtb (Fin false kv) (Fin false km)) eqn:Hgt.
  { eexists. split; [reflexivity|]. split; [lia|discriminate]. }
  destruct (leb (Fin false kv) (Fin false ks)) eqn:Hle.
  { exists 0. split; [reflexivity|]. split; lia. }
  apply ltb_false in Hgt; [|reflexivity|reflexivity].
  apply leb_false in Hle; [|reflexivity|reflexivity].
  simpl in Hgt, Hle.
  rewrite Es, Em in HcX.
  destruct (bin_expr_mono Hlog ks kv km _ cX Hks ltac:(lia) Hgt Hr HcX)
    as (c1 & Hc1 & Hc1b).
  exists c1. unfold to_int. rewrite Hc1.
  destruct (Z.leb_spec (- 2 ^ 63) c1); [|lia].
  destruct (Z.ltb_spec c1 (2 ^ 63)); [|lia].
  split; [reflexivity|]. split; lia.
Qed.

Lemma specBin_binIndex value : specBin lh value = binIndex lh value.
Proof using Hnew Hev.
  destruct evolved_fields as (_ & E2 & E3 & E4 & E5).
  unfold specBin, binIndex. rewrite E2, E3, E4, E5. reflexivity.
Qed.

End Bounds.

End BinIndex.


(** ** Claims about the histogram *)

Lemma leb_gtb_false x y : F64.leb x y = true -> F64.gtb x y = false.
Proof.
  intros H. apply leb_true in H as (Hx & Hy & H).
  unfold F64.gtb, F64.ltb, F64.ordered. rewrite Hx, Hy. simpl.
  apply Z.ltb_ge. exact H.
Qed.

(** C10.  For a histogram constructed by [newLatencyHistogram] with
    [maxValue > startValue > 0] and [commonRatio > 1] (and fewer than
    [2^53] bins, as any slice in memory has), however it was recorded into
    or reset since, and for every [uint64] value: the index [RecordValue]
    computes lies in [0, len(bins) - 1], so the access does not panic; for
    a value not above [maxValue] the index is below the last one. *)
Theorem bin_index_in_bounds maxValue startValue commonRatio lh0 lh value :
  sane_log ->
  shape_ok maxValue startValue commonRatio ->
  newLatencyHistogram maxValue startValue commonRatio = Some lh0 ->
  evolves lh0 lh ->
  Z.of_nat (length (lh_bins lh)) < 2 ^ 53 ->
  0 <= value < 2 ^ 64 ->
  exists bin,
    binIndex lh value = Some bin /\
    0 <= bin <= Z.of_nat (length (lh_bins lh)) - 1 /\
    (F64.leb (F64.of_uint64 value) (lh_maxValue lh) = true ->
     bin < Z.of_nat (length (lh_bins lh)) - 1) /\
    is_Some (RecordValue lh value).
Proof.
  intros Hlog Hshape Hnew Hev Hlen Hv.
  destruct (binIndex_bounds Hlog _ _ _ Hshape _ _ Hnew Hev Hlen value Hv)
    as (bin & Hbin & Hrange & Hlast).
  exists bin. split; [exact Hbin|]. split; [exact Hrange|].
  split; [intros Hle; apply Hlast, leb_gtb_false, Hle|].
  unfold RecordValue. rewrite Hbin.
  destruct (Z.leb_spec 0 bin); [|lia].
  destruct (Z.ltb_spec bin (Z.of_nat (length (lh_bins lh)))); [|lia]. simpl.
  destruct (lookup_lt_is_Some_2 (lh_bins lh) (Z.to_nat bin) ltac:(lia)) as [c Hc].
  rewrite Hc. eexists. reflexivity.
Qed.

(** C4.  [RecordValue(v)] increments exactly one counter and leaves the
    others unchanged; the counter is the one the rule of the specification
    selects: the last bin if [v > maxValue], bin 0 if [v <= startValue],
    bin [ceil(log(v/startValue)/log(commonRatio))] otherwise.  The
    histogram is any histogram constructed with
    [maxValue > startValue > 0] and [commonRatio > 1], however it was
    recorded into or reset since. *)
Theorem RecordValue_increments_one_bin maxValue startValue commonRatio lh0 lh value :
  sane_log ->
  shape_ok maxValue startValue commonRatio ->
  newLatencyHistogram maxValue startValue commonRatio = Some lh0 ->
  evolves lh0 lh ->
  Z.of_nat (length (lh_bins lh)) < 2 ^ 53 ->
  0 <= value < 2 ^ 64 ->
  exists (b : nat) (c : Z) (lh' : latencyHistogram),
    specBin lh value = Some (Z.of_nat b) /\
    lh_bins lh !! b = Some c /\
    RecordValue lh value = Some lh' /\
    lh_bins lh' !! b = Some (wrap64 (c + 1)) /\
    (forall i, i <> b -> lh_bins lh' !! i = lh_bins lh !! i) /\
    length (lh_bins lh') = length (lh_bins lh).
Proof.
  intros Hlog Hshape Hnew Hev Hlen Hv.
  destruct (binIndex_bounds Hlog _ _ _ Hshape _ _ Hnew Hev Hlen value Hv)
    as (bin & Hbin & Hrange & _).
  destruct (lookup_lt_is_Some_2 (lh_bins lh) (Z.to_nat bin) ltac:(lia)) as [c Hc].
  exists (Z.to_nat bin), c, (with_bins lh (<[Z.to_nat bin := wrap64 (c + 1)]> (lh_bins lh))).
  rewrite (specBin_binIndex _ _ _ _ _ Hnew Hev), Z2Nat.id by lia.
  split; [exact Hbin|]. split; [exact Hc|]. split.
  - unfold RecordValue. rewrite Hbin.
    destruct (Z.leb_spec 0 bin); [|lia].
    destruct (Z.ltb_spec bin (Z.of_nat (length (lh_bins lh)))); [|lia]. simpl.
    rewrite Hc. reflexivity.
  - simpl. split; [|split].
    + apply list_lookup_insert_eq. apply lookup_lt_Some in Hc. exact Hc.
    + intros i Hi. apply list_lookup_insert_ne. congruence.
    + apply length_insert.
Qed.

(** C8.  A constructed histogram has exactly
    [int(ceil(log(maxValue/startValue)/log(commonRatio)) + 2)] bins and keeps
    that number through every [RecordValue] and [AggregateAndReset], whose
    snapshot has it as well; for a well-formed shape the floating-point
    [+ 2] is exact.  Every value recorder carries a histogram of the shape
    (2000000, 1000, 1.5). *)
Theorem histogram_bins_length maxValue startValue commonRatio lh0 lh :
  newLatencyHistogram maxValue startValue commonRatio = Some lh0 ->
  evolves lh0 lh ->
  F64.to_int
    (F64.add
       (F64.Ceil (F64.div (mathLog (F64.div maxValue startValue)) (mathLog commonRatio)))
       (F64.lit 2 1)) = Some (Z.of_nat (length (lh_bins lh))) /\
  length (lhs_bins (AggregateAndReset lh).1) = length (lh_bins lh) /\
  (sane_log -> shape_ok maxValue startValue commonRatio ->
   Z.of_nat (length (lh_bins lh)) < 2 ^ 53 ->
   F64.to_int
     (F64.Ceil (F64.div (mathLog (F64.div maxValue startValue)) (mathLog commonRatio)))
   = Some (Z.of_nat (length (lh_bins lh)) - 2)) /\
  (forall peer bc,
     newAggregatingValueRecorder peer = Some bc ->
     newLatencyHistogram (F64.lit 2000000 1) (F64.lit 1000 1) (F64.lit 3 2)
       = Some (hist bc) /\ peerName bc = peer).
Proof.
  intros Hnew Hev. rewrite (evolves_length _ _ Hev).
  split; [|split; [|split]].
  - unfold newLatencyHistogram, numBuckets in Hnew.
    destruct (F64.to_int _) as [n|] eqn:Hn; [|discriminate].
    destruct (Z.leb_spec 0 n); [|discriminate]. injection Hnew as <-.
    simpl. rewrite length_replicate, Z2Nat.id by assumption. reflexivity.
  - simpl. rewrite prefixSums_length. apply evolves_length, Hev.
  - intros Hlog Hshape Hlen.
    destruct (construct_inv Hlog _ _ _ Hshape _ Hnew)
      as (ks & km & cX & _ & _ & _ & _ & _ & HcX & HcX0 & _ & Hn).
    specialize (Hn Hlen). unfold F64.to_int. rewrite HcX.
    destruct (Z.leb_spec (- 2 ^ 63) cX); [|lia].
    destruct (Z.ltb_spec cX (2 ^ 63)); [|lia]. simpl. f_equal. lia.
  - intros peer bc H. unfold newAggregatingValueRecorder in H.
    apply bind_Some in H as (h & Hh & [= <-]). auto.
Qed.

Lemma freshly_reset_zero lh : freshly_reset lh -> Forall (eq 0) (lh_bins lh).
Proof.
  intros [(m & st & r & H)|(prev & ->)].
  - unfold newLatencyHistogram in H.
    destruct (F64.to_int _) as [n|]; [|discriminate].
    destruct (0 <=? n); [|discriminate]. injection H as <-. simpl.
    apply Forall_replicate. reflexivity.
  - simpl. apply Forall_replicate. reflexivity.
Qed.

Lemma sumZ_zero l : Forall (eq 0) l -> sumZ l = 0.
Proof. induction 1 as [|x l <- _ IH]; simpl; [reflexivity|exact IH]. Qed.

(** C6.  After [N < 2^64] values were recorded into a histogram that had
    just been constructed or reset, the snapshot of [AggregateAndReset] is
    non-decreasing and its [TotalCount()] is [N]; a second
    [AggregateAndReset] right after it has [TotalCount() = 0]. *)
Theorem snapshot_counts_recordings lh0 values lh :
  freshly_reset lh0 ->
  lh_bins lh0 <> [] ->
  recordAll lh0 values = Some lh ->
  Z.of_nat (length values) < 2 ^ 64 ->
  nondecreasing (lhs_bins (AggregateAndReset lh).1) /\
  TotalCount (AggregateAndReset lh).1 = Some (Z.of_nat (length values)) /\
  TotalCount (AggregateAndReset (AggregateAndReset lh).2).1 = Some 0.
Proof.
  intros Hfresh Hne Hrec HN.
  pose proof (freshly_reset_zero _ Hfresh) as Hz.
  assert (Hpos : Forall (Z.le 0) (lh_bins lh0)).
  { eapply Forall_impl; [exact Hz|]. intros x <-. lia. }
  pose proof (sumZ_zero _ Hz) as Hs0.
  destruct (recordAll_sum _ _ _ Hrec Hpos ltac:(lia)) as (P1 & P2 & P3).
  destruct (prefixSums_spec 0 (lh_bins lh) ltac:(lia) P1 ltac:(lia)) as (_ & Q2 & Q3).
  split; [exact Q2|]. split.
  - unfold TotalCount. simpl. rewrite Q3.
    destruct (lh_bins lh) as [|x l] eqn:E.
    + destruct (lh_bins lh0); [congruence|discriminate].
    + f_equal. lia.
  - unfold TotalCount. simpl. apply last_replicate_zero.
    rewrite P3. destruct (lh_bins lh0); [congruence|simpl; lia].
Qed.

(** ** Claims about the snapshot *)

Section Percentile.
Import F64.
Local Opaque one_key overflow_key Z.pow.

Lemma round_key_int_d z d :
  0 <= z <= 2 ^ 53 -> 0 < d -> round_key (z * one_key * d) d = z * one_key.
Proof.
  intros Hz Hd. change one_key with (2 ^ 1074).
  destruct (Z.eq_dec z (2 ^ 53)) as [->|Hne].
  - replace (2 ^ 53 * 2 ^ 1074) with (2 ^ 52 * 2 ^ 1075) by reflexivity.
    apply round_key_exact; lia.
  - apply round_key_exact; lia.
Qed.

Lemma lit_int z : 0 <= z <= 2 ^ 53 -> lit z 1 = Fin false (z * one_key).
Proof. intros Hz. unfold lit. apply round_int. exact Hz. Qed.

Lemma of_uint64_int z : 0 <= z <= 2 ^ 53 -> of_uint64 z = Fin false (z * one_key).
Proof. intros Hz. unfold of_uint64. apply round_int. exact Hz. Qed.

(** For a percentile in [0, 100] and a total that binary64 represents
    exactly, the threshold does not exceed the total. *)
Lemma percentileCount_le p c :
  valid p = true -> leb zero p = true -> leb p (lit 100 1) = true ->
  0 <= c <= 2 ^ 53 ->
  exists count, percentileCount p c = Some count /\ 0 <= count <= c.
Proof.
  intros Hv H0 H100 Hc. pose proof one_key_pos as Hone.
  unfold percentileCount.
  rewrite (lit_int 100) in * by lia. rewrite (of_uint64_int c) by lia.
  apply leb_true in H0 as (_ & _ & H0). apply leb_true in H100 as (Hn & _ & H100).
  simpl in H0, H100.
  destruct p as [|neg|neg kp]; [discriminate Hn| |].
  { destruct neg; simpl in H0, H100; pose proof overflow_key_pos;
      assert (100 * one_key < overflow_key) by reflexivity; lia. }
  destruct (valid_fin _ _ Hv) as [Hkp _].
  rewrite div_fin by lia.
  destruct neg; simpl in H0, H100.
  - assert (kp = 0) by lia. subst kp.
    rewrite Z.mul_0_l, round_zero. unfold mul. simpl xorb.
    rewrite Z.mul_0_l, round_zero.
    exists 0. split; [vm_compute; reflexivity|lia].
  - assert (Hq : round_key (kp * one_key) (100 * one_key) <= one_key).
    { replace one_key with (round_key (1 * one_key * (100 * one_key)) (100 * one_key)) at 3
        by (apply round_key_int_d; lia).
      apply round_key_mono; try lia.
      apply Z.mul_le_mono_nonneg_r; [lia|]. nia. }
    assert (Hqo : one_key < overflow_key) by reflexivity.
    rewrite round_fin by lia.
    set (kq := round_key (kp * one_key) (100 * one_key)) in *.
    assert (Hkq : 0 <= kq) by (apply round_key_nonneg; lia).
    unfold mul. simpl xorb.
    assert (Hm : round_key (kq * (c * one_key)) one_key <= c * one_key).
    { replace (c * one_key) with (round_key (c * one_key * one_key) one_key) at 2
        by (apply round_key_int_d; lia).
      apply round_key_mono; try lia.
      apply Z.mul_le_mono_nonneg_r; [lia|].
      rewrite (Z.mul_comm kq). apply Z.mul_le_mono_nonneg_l; [nia|lia]. }
    assert (Hco : c * one_key < overflow_key).
    { assert (2 ^ 53 * one_key < overflow_key) by reflexivity. nia. }
    rewrite round_fin by lia.
    set (km := round_key (kq * (c * one_key)) one_key) in *.
    assert (Hkm : 0 <= km) by (apply round_key_nonneg; lia).
    unfold to_uint64. rewrite trunc_Ceil_pos.
    assert (Hup : (km + one_key - 1) / one_key <= c).
    { apply Z.lt_succ_r. apply Z.div_lt_upper_bound; lia. }
    pose proof (ceil_div_nonneg km Hkm) as Hlo.
    destruct (Z.leb_spec 0 ((km + one_key - 1) / one_key)); [|lia].
    destruct (Z.ltb_spec ((km + one_key - 1) / one_key) (2 ^ 64)).
    + eexists. split; [reflexivity|lia].
    + exfalso. assert (2 ^ 53 < 2 ^ 64) by reflexivity. lia.
Qed.

End Percentile.

Lemma BinAtPercentile_specBinAtPercentile lhs p :
  BinAtPercentile lhs p = specBinAtPercentile lhs p.
Proof.
  unfold BinAtPercentile, specBinAtPercentile.
  apply option_bind_ext; [|reflexivity]. intros c.
  apply option_bind_ext; [|reflexivity]. intros count. f_equal.
  rewrite scanBins_find.
  destruct (list_find _ _) as [[index bin]|] eqn:Hfind; [|reflexivity].
  apply list_find_Some in Hfind as (Hlook & _).
  rewrite Z.add_0_l. apply renderBin_specBound.
  apply lookup_lt_Some in Hlook. exact Hlook.
Qed.

Lemma specBound_format lhs index :
  (exists bound, specBound lhs index = "> " +:+ bound) \/
  (exists bound, specBound lhs index = "<= " +:+ bound).
Proof.
  unfold specBound. destruct (decide _); [left|right]; eexists; reflexivity.
Qed.

Lemma prefixSums_zeros acc l :
  Forall (eq 0) l -> 0 <= acc < 2 ^ 64 -> prefixSums acc l = replicate (length l) acc.
Proof.
  induction 1 as [|x l <- _ IH]; intros Hacc; simpl; [reflexivity|].
  rewrite Z.add_0_r, wrap64_small by exact Hacc. f_equal. exact (IH Hacc).
Qed.

Lemma example_snapshot rest :
  Forall (eq 0) rest ->
  prefixSums 0 (<[Z.to_nat 0 := wrap64 (0 + 1)]> (0 :: 0 :: rest))
  = 1 :: 1 :: replicate (length rest) 1.
Proof.
  intros Hz. change (Z.to_nat 0) with 0%nat. cbn [list_insert insert prefixSums].
  change (wrap64 (0 + 1)) with 1. cbn [prefixSums].
  change (wrap64 (0 + 1)) with 1. change (wrap64 (1 + 0)) with 1.
  rewrite prefixSums_zeros by (assumption || lia). reflexivity.
Qed.

Lemma example_last n : last (1 :: 1 :: replicate n 1) = Some 1.
Proof. induction n as [|n IH]; [reflexivity|]. simpl in *. exact IH. Qed.

Lemma recorder_shape_ok :
  shape_ok (F64.lit 2000000 1) (F64.lit 1000 1) (F64.lit 3 2).
Proof. constructor; vm_compute; reflexivity. Qed.

Lemma example_threshold : percentileCount (F64.lit 50 1) 1 = Some 1.
Proof. vm_compute. reflexivity. Qed.

Lemma example_compare :
  F64.gtb (F64.of_uint64 1000) (F64.lit 2000000 1) = false /\
  F64.leb (F64.of_uint64 1000) (F64.lit 1000 1) = true.
Proof. split; vm_compute; reflexivity. Qed.

Lemma example_bound :
  "<= " +:+ F64.format2 (F64.mul (mathPow (F64.lit 3 2) (F64.of_int 0)) (F64.lit 1000 1))
  = "<= 1000.00".
Proof. vm_compute. reflexivity. Qed.

(** C5.  [BinAtPercentile(p)] takes the threshold
    [ceil((p/100) * TotalCount())], finds the first bin whose cumulative
    value reaches it and renders ["> " + commonRatio^(index-1)*startValue]
    for the last bin, ["<= " + commonRatio^index*startValue] for any other,
    with two decimals (["0.0"] if there is none).  After the single value
    1000 is recorded into a histogram of shape (2000000, 1000, 1.5), the
    snapshot has [TotalCount() = 1] and [BinAtPercentile(50.0)] is
    ["<= 1000.00"]. *)
Theorem BinAtPercentile_follows_spec :
  (forall lhs p, BinAtPercentile lhs p = specBinAtPercentile lhs p) /\
  (forall lh0,
     sane_log ->
     newLatencyHistogram (F64.lit 2000000 1) (F64.lit 1000 1) (F64.lit 3 2) = Some lh0 ->
     exists lh1,
       RecordValue lh0 1000 = Some lh1 /\
       TotalCount (AggregateAndReset lh1).1 = Some 1 /\
       BinAtPercentile (AggregateAndReset lh1).1 (F64.lit 50 1) = Some "<= 1000.00").
Proof.
  split; [exact BinAtPercentile_specBinAtPercentile|].
  intros lh0 Hlog Hnew.
  destruct (construct_inv Hlog _ _ _ recorder_shape_ok _ Hnew)
    as (_ & _ & _ & _ & _ & _ & _ & _ & _ & _ & Hlen & _).
  destruct (constructed_fields _ _ _ _ Hnew) as (F1 & F2 & _ & F4 & F5).
  pose proof (freshly_reset_zero lh0) as Hz.
  destruct lh0 as [bins mx sf rl cr sv]. simpl in *. subst mx sf cr sv.
  assert (Hz' : Forall (eq 0) bins).
  { apply Hz. left. eauto. }
  destruct bins as [|b0 [|b1 rest]]; simpl in Hlen; try lia.
  apply Forall_cons in Hz' as [<- Hz']. apply Forall_cons in Hz' as [<- Hz'].
  destruct example_compare as [Egt Ele].
  eexists. split; [|split].
  - unfold RecordValue, binIndex. simpl lh_maxValue. simpl lh_scaleFactor.
    rewrite Egt, Ele. reflexivity.
  - unfold TotalCount. cbn [AggregateAndReset fst lhs_bins lh_bins with_bins].
    rewrite (example_snapshot rest Hz'). apply example_last.
  - unfold BinAtPercentile, TotalCount.
    cbn [AggregateAndReset fst lhs_bins lh_bins with_bins].
    rewrite (example_snapshot rest Hz'), example_last.
    cbn [mbind option_bind]. rewrite example_threshold. cbn [mbind option_bind].
    f_equal. cbn [scanBins]. change (1 <=? 1) with true. cbv iota.
    unfold renderBin. cbn [lhs_bins lhs_commonRatio lhs_startValue lh_commonRatio lh_startValue].
    destruct (Z.eqb_spec 0 (Z.of_nat (length (1 :: 1 :: replicate (length rest) 1)) - 1)) as [E|_].
    + simpl length in E. lia.
    + exact example_bound.
Qed.

(** C9 (as amended).  For a snapshot whose bins are non-empty, with a total
    count (the last entry) of at most [2^53], and a percentile in
    [0, 100], the threshold does not exceed the total count, the scan finds
    a bin and the result is one of the two bound formats, not the sentinel
    ["0.0"]. *)
Theorem BinAtPercentile_finds_bin lhs p c :
  TotalCount lhs = Some c ->
  0 <= c <= 2 ^ 53 ->
  F64.valid p = true ->
  F64.leb F64.zero p = true ->
  F64.leb p (F64.lit 100 1) = true ->
  exists count index bin,
    percentileCount p c = Some count /\ count <= c /\
    list_find (fun b => count <= b) (lhs_bins lhs) = Some (index, bin) /\
    BinAtPercentile lhs p = Some (specBound lhs index) /\
    BinAtPercentile lhs p <> Some "0.0".
Proof.
  intros Htotal Hc Hv H0 H100.
  destruct (percentileCount_le p c Hv H0 H100 Hc) as (count & Hcount & Hle).
  assert (Hin : c ∈ lhs_bins lhs).
  { unfold TotalCount in Htotal. apply last_Some_elem_of in Htotal. exact Htotal. }
  destruct (list_find_elem_of (fun b => count <= b) (lhs_bins lhs) c Hin (proj2 Hle))
    as [[index bin] Hfind].
  assert (HB : BinAtPercentile lhs p = Some (specBound lhs index)).
  { rewrite BinAtPercentile_specBinAtPercentile. unfold specBinAtPercentile.
    rewrite Htotal. cbn [mbind option_bind].
    change (specThreshold p c) with (percentileCount p c). rewrite Hcount.
    cbn [mbind option_bind]. rewrite Hfind. reflexivity. }
  exists count, index, bin. repeat split; try assumption; try lia.
  rewrite HB. destruct (specBound_format lhs index) as [(b & ->)|(b & ->)];
    intros E; discriminate E.
Qed.

(** ** Claims about the meter *)

Lemma ValueRecorder_tagged name tags am hp service peer group :
  name = meterNameResponses ->
  tags !! meterAttribServiceKey = Some service ->
  tags !! meterAttribPeerName = Some peer ->
  valueRecorderGroups am !! service = Some group ->
  ValueRecorder name tags am hp =
  match recorders group !! peer with
  | Some l => Some (recorderAt l, am, hp)
  | None =>
      recorder ← newAggregatingValueRecorder peer;
      let l := fresh (dom hp) in
      Some (recorderAt l,
            {| interval := interval am;
               valueRecorderGroups :=
                 <[service := {| recorders := <[peer := l]> (recorders group) |}]>
                   (valueRecorderGroups am) |},
            <[l := recorder]> hp)
  end.
Proof.
  intros -> Hs Hp Hg. unfold ValueRecorder.
  rewrite String.eqb_refl, Hs, Hg, Hp. reflexivity.
Qed.

(** [ValueRecorder] never removes or replaces a registered recorder. *)
Lemma ValueRecorder_keeps name tags am hp r am' hp' service peer l :
  ValueRecorder name tags am hp = Some (r, am', hp') ->
  recorder_of am service peer = Some l ->
  recorder_of am' service peer = Some l.
Proof.
  unfold ValueRecorder. intros H Hl.
  destruct (negb _); [injection H as <- <- <-; exact Hl|].
  destruct (tags !! meterAttribServiceKey) as [sv|]; [|injection H as <- <- <-; exact Hl].
  destruct (valueRecorderGroups am !! sv) as [g|] eqn:Hg; [|injection H as <- <- <-; exact Hl].
  destruct (tags !! meterAttribPeerName) as [p|]; [|injection H as <- <- <-; exact Hl].
  destruct (recorders g !! p) as [l0|] eqn:Hp; [injection H as <- <- <-; exact Hl|].
  apply bind_Some in H as (bc & _ & [= <- <- <-]).
  unfold recorder_of in *. simpl.
  destruct (decide (sv = service)) as [->|Hne].
  - rewrite lookup_insert_eq. simpl. rewrite Hg in Hl. simpl in Hl.
    destruct (decide (p = peer)) as [->|Hnp]; [congruence|].
    rewrite lookup_insert_ne by assumption. exact Hl.
  - rewrite lookup_insert_ne by assumption. exact Hl.
Qed.

Lemma step_keeps st ev st' service peer l :
  step st ev = Some st' ->
  recorder_of (meter st) service peer = Some l ->
  recorder_of (meter st') service peer = Some l.
Proof.
  destruct ev as [name tags val| |]; simpl; intros H Hl.
  - apply bind_Some in H as ([[r am] hp] & HV & H).
    apply bind_Some in H as (hp' & _ & [= <-]). simpl.
    eapply ValueRecorder_keeps; eassumption.
  - destruct (running st); [|injection H as <-; exact Hl].
    unfold loggerIteration in H.
    apply bind_Some in H as ([out hp] & _ & H).
    destruct (size out =? 1)%nat; [injection H as <-; exact Hl|].
    destruct (jsonMarshal out); injection H as <-; exact Hl.
  - injection H as <-. exact Hl.
Qed.

Lemma run_keeps st evs st' service peer l :
  run st evs = Some st' ->
  recorder_of (meter st) service peer = Some l ->
  recorder_of (meter st') service peer = Some l.
Proof.
  revert st. induction evs as [|ev evs IH]; intros st H Hl; simpl in H.
  - injection H as <-. exact Hl.
  - apply bind_Some in H as (st1 & Hstep & H).
    apply (IH st1 H). eapply step_keeps; eassumption.
Qed.

Lemma ValueRecorder_registered name tags am hp service peer l :
  name = meterNameResponses ->
  tags !! meterAttribServiceKey = Some service ->
  tags !! meterAttribPeerName = Some peer ->
  recorder_of am service peer = Some l ->
  ValueRecorder name tags am hp = Some (recorderAt l, am, hp).
Proof.
  intros Hn Hs Hp Hl. unfold recorder_of in Hl.
  apply bind_Some in Hl as (g & Hg & Hl).
  rewrite (ValueRecorder_tagged _ _ _ _ _ _ _ Hn Hs Hp Hg), Hl. reflexivity.
Qed.

Lemma ValueRecorder_wf name tags am hp r am' hp' :
  ValueRecorder name tags am hp = Some (r, am', hp') ->
  meter_wf am hp -> meter_wf am' hp'.
Proof.
  unfold ValueRecorder. intros H Hwf.
  destruct (negb _); [injection H as <- <- <-; exact Hwf|].
  destruct (tags !! meterAttribServiceKey) as [sv|]; [|injection H as <- <- <-; exact Hwf].
  destruct (valueRecorderGroups am !! sv) as [g|] eqn:Hg; [|injection H as <- <- <-; exact Hwf].
  destruct (tags !! meterAttribPeerName) as [p|]; [|injection H as <- <- <-; exact Hwf].
  destruct (recorders g !! p) as [l0|] eqn:Hp; [injection H as <- <- <-; exact Hwf|].
  apply bind_Some in H as (bc & Hbc & [= <- <- <-]).
  destruct Hwf as [Hobj Hinj].
  assert (Hfresh : hp !! fresh (dom hp) = None).
  { apply not_elem_of_dom. apply is_fresh. }
  generalize dependent (fresh (dom hp)). intros l Hfresh.
  assert (Hname : peerName bc = p).
  { unfold newAggregatingValueRecorder in Hbc.
    apply bind_Some in Hbc as (h & _ & [= <-]). reflexivity. }
  assert (Hcases : forall service peer l',
    recorder_of {| interval := interval am;
                   valueRecorderGroups :=
                     <[sv := {| recorders := <[p := l]> (recorders g) |}]>
                       (valueRecorderGroups am) |} service peer = Some l' ->
    (service = sv /\ peer = p /\ l' = l) \/
    (recorder_of am service peer = Some l' /\ (service, peer) <> (sv, p))).
  { intros service peer l' H. unfold recorder_of in *. simpl in H.
    destruct (decide (sv = service)) as [->|Hne].
    - rewrite lookup_insert_eq in H. simpl in H.
      destruct (decide (p = peer)) as [->|Hnp].
      + rewrite lookup_insert_eq in H. injection H as <-. left. auto.
      + rewrite lookup_insert_ne in H by assumption. right.
        rewrite Hg. simpl. split; [exact H|congruence].
    - rewrite lookup_insert_ne in H by assumption. right. split; [exact H|congruence]. }
  split.
  - intros service peer l' H.
    destruct (Hcases _ _ _ H) as [(-> & -> & ->)|[Hold _]].
    + exists bc. rewrite lookup_insert_eq. auto.
    + destruct (Hobj _ _ _ Hold) as (bc' & Hl' & Hn').
      exists bc'. split; [|exact Hn'].
      rewrite lookup_insert_ne; [exact Hl'|]. intros <-. congruence.
  - intros s1 p1 s2 p2 l' H1 H2.
    destruct (Hcases _ _ _ H1) as [(-> & -> & ->)|[Hold1 _]];
      destruct (Hcases _ _ _ H2) as [(-> & -> & E)|[Hold2 _]].
    + auto.
    + destruct (Hobj _ _ _ Hold2) as (bc' & Hl' & _). congruence.
    + subst l'. destruct (Hobj _ _ _ Hold1) as (bc' & Hl' & _). congruence.
    + eapply Hinj; eassumption.
Qed.

(** C7.  A group is a map, so it holds one recorder per peer label.  A
    call of [ValueRecorder] with the recognised metric name and a
    (service, peer) pair of a known service returns the address of the
    recorder the group holds for the peer; a second call with the same
    pair, right away or after any further events, returns the same address
    and allocates nothing.  Registered recorders carry their label and no
    recorder is registered under two labels. *)
Theorem ValueRecorder_resolves_to_same_recorder
    am hp tags1 tags2 service peer r1 am1 hp1 :
  tags1 !! meterAttribServiceKey = Some service ->
  tags1 !! meterAttribPeerName = Some peer ->
  tags2 !! meterAttribServiceKey = Some service ->
  tags2 !! meterAttribPeerName = Some peer ->
  is_Some (valueRecorderGroups am !! service) ->
  ValueRecorder meterNameResponses tags1 am hp = Some (r1, am1, hp1) ->
  exists l,
    r1 = recorderAt l /\
    recorder_of am1 service peer = Some l /\
    ValueRecorder meterNameResponses tags2 am1 hp1 = Some (recorderAt l, am1, hp1) /\
    (forall st evs st',
        meter st = am1 -> run st evs = Some st' ->
        ValueRecorder meterNameResponses tags2 (meter st') (objects st')
        = Some (recorderAt l, meter st', objects st')) /\
    (meter_wf am hp -> meter_wf am1 hp1).
Proof.
  intros Hs1 Hp1 Hs2 Hp2 [g Hg] H.
  assert (Hreg : exists l, r1 = recorderAt l /\ recorder_of am1 service peer = Some l).
  { rewrite (ValueRecorder_tagged _ _ _ _ _ _ _ eq_refl Hs1 Hp1 Hg) in H.
    destruct (recorders g !! peer) as [l|] eqn:Hl.
    - injection H as <- <- <-. exists l. split; [reflexivity|].
      unfold recorder_of. rewrite Hg. exact Hl.
    - apply bind_Some in H as (bc & _ & [= <- <- <-]).
      eexists. split; [reflexivity|]. unfold recorder_of. simpl.
      rewrite lookup_insert_eq. simpl. apply lookup_insert_eq. }
  destruct Hreg as (l & -> & Hl). exists l.
  split; [reflexivity|]. split; [exact Hl|]. split; [|split].
  - apply (ValueRecorder_registered _ _ _ _ _ _ _ eq_refl Hs2 Hp2 Hl).
  - intros st evs st' <- Hrun.
    apply (ValueRecorder_registered _ _ _ _ _ _ _ eq_refl Hs2 Hp2).
    eapply run_keeps; eassumption.
  - apply (ValueRecorder_wf _ _ _ _ _ _ _ H).
Qed.

(** The services of an emission record are the groups with a recorder. *)
Lemma collectValues_nonempty rs serviceMap hp serviceMap' hp' :
  collectValues rs serviceMap hp = Some (serviceMap', hp') ->
  rs <> [] \/ serviceMap <> ∅ -> serviceMap' <> ∅.
Proof.
  revert serviceMap hp. induction rs as [|l rs IH]; intros m hp H Hne; simpl in H.
  - injection H as <- <-. destruct Hne as [Hne|Hne]; [congruence|exact Hne].
  - apply bind_Some in H as (bc & _ & H).
    apply bind_Some in H as ([vals bc'] & _ & H).
    apply (IH _ _ H). right. apply insert_non_empty.
Qed.

Lemma Recorders_nil group : Recorders group = [] <-> recorders group = ∅.
Proof.
  unfold Recorders. rewrite <- map_to_list_empty_iff.
  destruct (map_to_list (recorders group)); simpl; split; congruence.
Qed.

Lemma collectServices_keys groups output hp output' hp' service :
  collectServices groups output hp = Some (output', hp') ->
  is_Some (output' !! service) <->
  is_Some (output !! service) \/
  exists group, (service, group) ∈ groups /\ recorders group <> ∅.
Proof.
  revert output hp. induction groups as [|[name group] groups IH]; intros out hp H; simpl in H.
  - injection H as <- <-. split; [auto|].
    intros [?|(g & Hin & _)]; [assumption|]. apply elem_of_nil in Hin. contradiction.
  - destruct (length (Recorders group) =? 0)%nat eqn:Hlen.
    + apply Nat.eqb_eq, length_zero_iff_nil, Recorders_nil in Hlen.
      rewrite (IH _ _ H). split.
      * intros [?|(g & Hin & Hne)]; [auto|]. right. exists g. split; [|exact Hne].
        apply elem_of_cons. right. exact Hin.
      * intros [?|(g & Hin & Hne)]; [auto|]. apply elem_of_cons in Hin as [[= -> ->]|Hin].
        -- congruence.
        -- right. exists g. auto.
    + apply Nat.eqb_neq in Hlen.
      apply bind_Some in H as ([serviceMap hp1] & Hcv & H).
      assert (Hrs : Recorders group <> []).
      { intros E. rewrite E in Hlen. simpl in Hlen. congruence. }
      pose proof (collectValues_nonempty _ _ _ _ _ Hcv (or_introl Hrs)) as Hsm.
      assert (Hsize : (0 <? size serviceMap)%nat = true).
      { apply Nat.ltb_lt. apply map_size_non_empty_iff in Hsm. lia. }
      rewrite Hsize in H. rewrite (IH _ _ H).
      assert (Hgroup : recorders group <> ∅).
      { intros E. apply Recorders_nil in E. congruence. }
      split.
      * intros [Hout|(g & Hin & Hne)].
        -- destruct (decide (name = service)) as [->|Hns].
           ++ right. exists group. split; [apply elem_of_cons; auto|exact Hgroup].
           ++ left. rewrite lookup_insert_ne in Hout by assumption. exact Hout.
        -- right. exists g. split; [apply elem_of_cons; auto|exact Hne].
      * intros [Hout|(g & Hin & Hne)].
        -- left. destruct (decide (name = service)) as [->|Hns].
           ++ rewrite lookup_insert_eq. eauto.
           ++ rewrite lookup_insert_ne by assumption. exact Hout.
        -- apply elem_of_cons in Hin as [[= -> ->]|Hin].
           ++ left. rewrite lookup_insert_eq. eauto.
           ++ right. exists g. auto.
Qed.

(** C3 (as amended).  A service key is in the emission record exactly when
    the group of that service holds a recorder, that is, when a recorder
    was requested for one of its peers at any time since the meter was
    created, whether or not a value was recorded since the last
    emission. *)
Theorem service_present_iff_group_has_recorder am hp output hp' service :
  generateOutput am hp = Some (output, hp') ->
  service <> "meta" ->
  (is_Some (output !! service) <->
   exists group,
     valueRecorderGroups am !! service = Some group /\ recorders group <> ∅).
Proof.
  intros H Hmeta. unfold generateOutput in H.
  rewrite (collectServices_keys _ _ _ _ _ service H).
  rewrite lookup_singleton_ne by congruence. split.
  - intros [[x Hx]|(g & Hin & Hne)]; [discriminate|].
    exists g. split; [|exact Hne]. apply elem_of_map_to_list. exact Hin.
  - intros (g & Hg & Hne). right. exists g. split; [|exact Hne].
    apply elem_of_map_to_list. exact Hg.
Qed.

Lemma collectServices_all_empty groups output hp :
  (forall name group, (name, group) ∈ groups -> recorders group = ∅) ->
  collectServices groups output hp = Some (output, hp).
Proof.
  induction groups as [|[name group] groups IH]; intros H; simpl; [reflexivity|].
  assert (E : Recorders group = []).
  { apply Recorders_nil. apply (H name). apply elem_of_cons. auto. }
  rewrite E. simpl. apply IH. intros n g Hin. apply (H n). apply elem_of_cons. auto.
Qed.

Lemma NewAggregatingMeter_groups opts service group :
  valueRecorderGroups (NewAggregatingMeter opts) !! service = Some group ->
  group = emptyGroup.
Proof.
  unfold NewAggregatingMeter. simpl. intros H.
  repeat (apply lookup_insert_Some in H as [[_ H]|[_ H]]; [congruence|]).
  rewrite lookup_empty in H. discriminate.
Qed.

Lemma first_tick_output opts :
  generateOutput (NewAggregatingMeter opts) ∅
  = Some ({[ "meta" := MetaEntry (interval (NewAggregatingMeter opts)) ]}, ∅).
Proof.
  unfold generateOutput. apply collectServices_all_empty.
  intros name group Hin. apply elem_of_map_to_list in Hin.
  apply NewAggregatingMeter_groups in Hin. subst group. reflexivity.
Qed.

(** Once the routine has returned nothing is logged any more. *)
Lemma step_stopped st ev st' :
  running st = false -> step st ev = Some st' ->
  running st' = false /\ logged st' = logged st.
Proof.
  intros Hr H. destruct ev as [name tags val| |]; simpl in H.
  - apply bind_Some in H as ([[r am] hp] & _ & H).
    apply bind_Some in H as (hp' & _ & [= <-]). simpl. auto.
  - rewrite Hr in H. injection H as <-. auto.
  - injection H as <-. simpl. auto.
Qed.

Lemma run_stopped st evs st' :
  running st = false -> run st evs = Some st' ->
  running st' = false /\ logged st' = logged st.
Proof.
  revert st. induction evs as [|ev evs IH]; intros st Hr H; simpl in H.
  - injection H as <-. auto.
  - apply bind_Some in H as (st1 & Hstep & H).
    destruct (step_stopped _ _ _ Hr Hstep) as [Hr1 Hl1].
    destruct (IH _ Hr1 H) as [Hr2 Hl2]. split; [exact Hr2|congruence].
Qed.

(** C1, what the code does.  On a tick whose emission record holds
    nothing but [meta] the routine returns instead of going on: it logs
    nothing for that tick and nothing ever after, whatever is recorded
    later.  With a freshly started meter the first tick already is such a
    tick. *)
Theorem logger_returns_on_empty_tick :
  (forall st output hp,
      running st = true ->
      generateOutput (meter st) (objects st) = Some (output, hp) ->
      size output = 1%nat ->
      exists st1,
        step st EvTick = Some st1 /\ running st1 = false /\
        logged st1 = logged st /\
        forall evs st2, run st1 evs = Some st2 ->
                        running st2 = false /\ logged st2 = logged st) /\
  (forall opts evs st,
      run (start opts) (EvTick :: evs) = Some st ->
      running st = false /\ logged st = []).
Proof.
  assert (Hfirst : forall st output hp,
      running st = true ->
      generateOutput (meter st) (objects st) = Some (output, hp) ->
      size output = 1%nat ->
      exists st1,
        step st EvTick = Some st1 /\ running st1 = false /\
        logged st1 = logged st /\
        forall evs st2, run st1 evs = Some st2 ->
                        running st2 = false /\ logged st2 = logged st).
  { intros st output hp Hr Hout Hsize.
    eexists. split; [|split; [|split]].
    - simpl. rewrite Hr. unfold loggerIteration. rewrite Hout. simpl.
      rewrite Hsize. simpl. reflexivity.
    - reflexivity.
    - reflexivity.
    - intros evs st2 Hrun. apply run_stopped in Hrun; [exact Hrun|reflexivity]. }
  split; [exact Hfirst|].
  intros opts evs st Hrun.
  destruct (Hfirst (start opts) _ _ eq_refl (first_tick_output opts)
              (map_size_singleton _ _)) as (st1 & Hstep & _ & _ & Hrest).
  simpl in Hrun. simpl in Hstep. rewrite Hstep in Hrun. simpl in Hrun.
  apply (Hrest _ _ Hrun).
Qed.


(** Recording the value 0 over and over counts in bin 0. *)
Lemma record_zero_evolves lh0 lh rest n :
  evolves lh0 lh ->
  lh_bins lh = 0 :: rest ->
  F64.gtb (F64.of_uint64 0) (lh_maxValue lh) = false ->
  F64.leb (F64.of_uint64 0) (lh_scaleFactor lh) = true ->
  0 <= n < 2 ^ 64 ->
  evolves lh0 (with_bins lh (n :: rest)).
Proof.
  intros Hev Hbins Hgt Hle [Hn0 Hn]. revert Hn.
  pattern n. apply natlike_ind; [| |exact Hn0].
  - intros _. rewrite <- Hbins. destruct lh. exact Hev.
  - intros m Hm IH Hlt. specialize (IH ltac:(lia)).
    eapply evolves_record; [exact IH|].
    unfold RecordValue, binIndex. simpl. rewrite Hgt, Hle. simpl.
    unfold with_bins. simpl. rewrite wrap64_small by lia.
    replace (m + 1) with (Z.succ m) by lia. reflexivity.
Qed.

(** ** Further properties of the histogram *)

Lemma wrap64_add_l a b : wrap64 (wrap64 a + b) = wrap64 (a + b).
Proof. unfold wrap64. apply Zplus_mod_idemp_l. Qed.

Lemma prefixSums_lookup acc l i :
  (i < length l)%nat ->
  prefixSums acc l !! i = Some (wrap64 (acc + sumZ (take (S i) l))).
Proof.
  revert acc i. induction l as [|x l IH]; intros acc i Hi; simpl in Hi; [lia|].
  destruct i as [|i].
  - cbn [prefixSums lookup list_lookup]. rewrite firstn_cons, take_0.
    unfold sumZ. cbn [foldr]. do 2 f_equal. lia.
  - cbn [prefixSums lookup list_lookup]. rewrite IH by lia.
    rewrite wrap64_add_l. rewrite (firstn_cons (S i) x l).
    unfold sumZ. cbn [foldr]. do 2 f_equal. lia.
Qed.

(** X1.  Whatever the counters hold, entry [i] of the snapshot of
    [AggregateAndReset] is the sum of the counters [0..i] modulo [2^64];
    the histogram is left with as many counters, all zero, and the snapshot
    carries its [commonRatio] and [startValue]. *)
Theorem AggregateAndReset_prefix_sums lh :
  (forall i, (i < length (lh_bins lh))%nat ->
     lhs_bins (AggregateAndReset lh).1 !! i
     = Some (wrap64 (sumZ (take (S i) (lh_bins lh))))) /\
  lh_bins (AggregateAndReset lh).2 = replicate (length (lh_bins lh)) 0 /\
  lhs_commonRatio (AggregateAndReset lh).1 = lh_commonRatio lh /\
  lhs_startValue (AggregateAndReset lh).1 = lh_startValue lh.
Proof.
  split; [|simpl; auto].
  intros i Hi. simpl. rewrite prefixSums_lookup by exact Hi. reflexivity.
Qed.

Section Monotone.
Import F64.

(** X2.  For a histogram of a well-formed shape the bin index never
    decreases when the value grows, over all three branches of
    [RecordValue]. *)
Theorem bin_index_monotone maxValue startValue commonRatio lh0 lh value1 value2 :
  sane_log ->
  shape_ok maxValue startValue commonRatio ->
  newLatencyHistogram maxValue startValue commonRatio = Some lh0 ->
  evolves lh0 lh ->
  Z.of_nat (length (lh_bins lh)) < 2 ^ 53 ->
  0 <= value1 -> value1 <= value2 -> value2 < 2 ^ 64 ->
  exists bin1 bin2,
    binIndex lh value1 = Some bin1 /\ binIndex lh value2 = Some bin2 /\
    bin1 <= bin2.
Proof.
  intros Hlog Hshape Hnew Hev Hlen H1 H12 H2.
  destruct (binIndex_bounds Hlog _ _ _ Hshape _ _ Hnew Hev Hlen value1 ltac:(lia))
    as (b1 & Hb1 & Hr1 & _).
  destruct (binIndex_bounds Hlog _ _ _ Hshape _ _ Hnew Hev Hlen value2 ltac:(lia))
    as (b2 & Hb2 & Hr2 & _).
  exists b1, b2. split; [exact Hb1|]. split; [exact Hb2|].
  destruct (evolved_fields _ _ _ _ _ Hnew Hev) as (E1 & E2 & E3 & _ & _).
  destruct (construct_inv Hlog _ _ _ Hshape _ Hnew)
    as (ks & km & cX & Es & Em & Hks & Hkm & Hr & _).
  unfold binIndex in Hb1, Hb2.
  rewrite E1, E2, E3, Es, Em in Hb1, Hb2.
  rewrite (of_uint64_fin value1) in Hb1 by lia.
  rewrite (of_uint64_fin value2) in Hb2 by lia.
  assert (Hk : round_key (value1 * one_key) 1 <= round_key (value2 * one_key) 1).
  { apply round_key_mono; try lia. pose proof one_key_pos. nia. }
  set (k1 := round_key (value1 * one_key) 1) in *.
  set (k2 := round_key (value2 * one_key) 1) in *.
  destruct (gtb (Fin false k2) (Fin false km)) eqn:G2.
  { injection Hb2 as <-. lia. }
  apply ltb_false in G2; [|reflexivity|reflexivity]. simpl in G2.
  destruct (gtb (Fin false k1) (Fin false km)) eqn:G1.
  { apply ltb_true in G1 as (_ & _ & G1). simpl in G1. lia. }
  destruct (leb (Fin false k1) (Fin false ks)) eqn:L1.
  { injection Hb1 as <-. lia. }
  apply leb_false in L1; [|reflexivity|reflexivity]. simpl in L1.
  destruct (leb (Fin false k2) (Fin false ks)) eqn:L2.
  { apply leb_true in L2 as (_ & _ & L2). simpl in L2. lia. }
  unfold to_int in Hb1, Hb2.
  destruct (trunc (Ceil (div (mathLog (div (Fin false k2) (Fin false ks)))
                             (mathLog commonRatio)))) as [c2|] eqn:T2; [|discriminate].
  destruct (bin_expr_mono Hlog ks k1 k2 _ c2 Hks ltac:(lia) Hk Hr T2) as (c1 & T1 & Hc).
  rewrite T1 in Hb1.
  destruct ((- 2 ^ 63 <=? c1) && (c1 <? 2 ^ 63)); [|discriminate].
  destruct ((- 2 ^ 63 <=? c2) && (c2 <? 2 ^ 63)); [|discriminate].
  injection Hb1 as <-. injection Hb2 as <-. lia.
Qed.

End Monotone.

Lemma sumZ_app l1 l2 : sumZ (l1 ++ l2) = sumZ l1 + sumZ l2.
Proof. induction l1 as [|x l1 IH]; simpl; [reflexivity|]. unfold sumZ in *. lia. Qed.

Lemma sumZ_nonneg l : Forall (Z.le 0) l -> 0 <= sumZ l.
Proof. induction 1; simpl; lia. Qed.

Lemma sumZ_take_le l n : Forall (Z.le 0) l -> 0 <= sumZ (take n l) <= sumZ l.
Proof.
  intros H. rewrite <- (take_drop n l) at 3. rewrite sumZ_app.
  pose proof (sumZ_nonneg (take n l) (Forall_take _ _ _ H)).
  pose proof (sumZ_nonneg (drop n l) (Forall_drop _ _ _ H)). lia.
Qed.

Lemma sumZ_take_mono l n m :
  Forall (Z.le 0) l -> (n <= m)%nat -> sumZ (take n l) <= sumZ (take m l).
Proof.
  intros H Hnm. replace n with (n `min` m)%nat by lia.
  rewrite <- take_take. apply sumZ_take_le. apply Forall_take. exact H.
Qed.

Lemma sumZ_take_S l i x :
  l !! i = Some x -> sumZ (take (S i) l) = sumZ (take i l) + x.
Proof.
  intros H. rewrite (take_S_r _ _ _ H), sumZ_app. simpl. lia.
Qed.

Lemma sumZ_all_zero_after l i :
  (forall j y, (i < j)%nat -> l !! j = Some y -> y = 0) ->
  sumZ (drop (S i) l) = 0.
Proof.
  intros H. apply sumZ_zero. apply Forall_lookup. intros j y Hj.
  rewrite lookup_drop in Hj. symmetry. apply (H (S i + j)%nat); [lia|exact Hj].
Qed.

Section Hundred.
Import F64.
Local Opaque one_key overflow_key Z.pow.

Lemma hundred_percent_threshold c :
  0 <= c <= 2 ^ 53 -> percentileCount (lit 100 1) c = Some c.
Proof.
  intros Hc. pose proof one_key_pos as Hone. unfold percentileCount.
  rewrite (lit_int 100), (of_uint64_int c) by lia.
  rewrite div_fin by lia.
  replace (100 * one_key * one_key) with (1 * one_key * (100 * one_key)) by ring.
  rewrite round_fin; rewrite round_key_int_d by lia;
    [|assert (1 * one_key < overflow_key) by reflexivity; lia].
  unfold mul. simpl xorb.
  replace (1 * one_key * (c * one_key)) with (c * one_key * one_key) by ring.
  assert (Hco : c * one_key < overflow_key).
  { assert (2 ^ 53 * one_key < overflow_key) by reflexivity. nia. }
  rewrite round_fin; rewrite round_key_int_d by lia; [|exact Hco].
  unfold to_uint64. rewrite trunc_Ceil_pos.
  replace ((c * one_key + one_key - 1) / one_key) with c.
  - destruct (Z.leb_spec 0 c); [|lia].
    destruct (Z.ltb_spec c (2 ^ 64)); [reflexivity|].
    exfalso. assert (2 ^ 53 < 2 ^ 64) by reflexivity. lia.
  - apply Z.div_unique with (r := one_key - 1); lia.
Qed.

End Hundred.

(** X3.  [BinAtPercentile(100)] of a snapshot reports the highest bin that
    counted a value: with [index] the position of the last non-zero
    counter (and a total of at most [2^53]) the result is the bound of bin
    [index]. *)
Theorem hundredth_percentile_is_highest_bin lh index x :
  Forall (Z.le 0) (lh_bins lh) ->
  sumZ (lh_bins lh) <= 2 ^ 53 ->
  lh_bins lh !! index = Some x ->
  0 < x ->
  (forall j y, (index < j)%nat -> lh_bins lh !! j = Some y -> y = 0) ->
  TotalCount (AggregateAndReset lh).1 = Some (sumZ (lh_bins lh)) /\
  BinAtPercentile (AggregateAndReset lh).1 (F64.lit 100 1)
  = Some (specBound (AggregateAndReset lh).1 index).
Proof.
  intros Hpos Hsum Hx Hx0 Hzero.
  set (l := lh_bins lh) in *.
  pose proof (sumZ_nonneg l Hpos) as Hs0.
  assert (Hi : (index < length l)%nat) by (apply lookup_lt_Some in Hx; exact Hx).
  assert (Hsmall : forall n, wrap64 (sumZ (take n l)) = sumZ (take n l)).
  { intros n. apply wrap64_small. pose proof (sumZ_take_le l n Hpos).
    assert (2 ^ 53 < 2 ^ 64) by reflexivity. lia. }
  assert (Hat : sumZ (take (S index) l) = sumZ l).
  { rewrite <- (take_drop (S index) l) at 2.
    rewrite sumZ_app, (sumZ_all_zero_after l index Hzero). lia. }
  assert (Htotal : TotalCount (AggregateAndReset lh).1 = Some (sumZ l)).
  { unfold TotalCount. simpl. fold l.
    destruct (prefixSums_spec 0 l ltac:(lia) Hpos) as (_ & _ & Hlast).
    - assert (2 ^ 53 < 2 ^ 64) by reflexivity. lia.
    - rewrite Hlast. destruct l; [simpl in Hi; lia|reflexivity]. }
  split; [exact Htotal|].
  rewrite BinAtPercentile_specBinAtPercentile. unfold specBinAtPercentile.
  rewrite Htotal. cbn [mbind option_bind].
  change (specThreshold (F64.lit 100 1) (sumZ l))
    with (percentileCount (F64.lit 100 1) (sumZ l)).
  rewrite hundred_percent_threshold by lia. cbn [mbind option_bind].
  assert (Hfind : list_find (fun bin => sumZ l <= bin) (lhs_bins (AggregateAndReset lh).1)
                  = Some (index, sumZ l)).
  { apply list_find_Some. simpl. fold l. split; [|split].
    - rewrite prefixSums_lookup by exact Hi. rewrite Z.add_0_l, Hsmall, Hat. reflexivity.
    - lia.
    - intros j y Hj Hji.
      assert (Hjl : (j < length l)%nat) by lia.
      rewrite prefixSums_lookup in Hj by exact Hjl.
      rewrite Z.add_0_l, Hsmall in Hj. injection Hj as <-.
      pose proof (sumZ_take_mono l (S j) index Hpos ltac:(lia)).
      pose proof (sumZ_take_S l index x Hx). lia. }
  rewrite Hfind. reflexivity.
Qed.

Section PercentileOrder.
Import F64.
Local Opaque one_key overflow_key Z.pow.

Lemma percent_fin p :
  valid p = true -> leb zero p = true -> leb p (lit 100 1) = true ->
  exists neg kp, p = Fin neg kp /\ 0 <= kp <= 100 * one_key /\ ord p = kp.
Proof.
  intros Hv H0 H100. pose proof one_key_pos as Hone.
  rewrite (lit_int 100) in H100 by lia.
  apply leb_true in H0 as (_ & _ & H0). apply leb_true in H100 as (Hn & _ & H100).
  simpl in H0, H100.
  destruct p as [|neg|neg kp]; [discriminate Hn| |].
  { destruct neg; simpl in H0, H100; pose proof overflow_key_pos;
      assert (100 * one_key < overflow_key) by reflexivity; lia. }
  destruct (valid_fin _ _ Hv) as [Hkp _].
  exists neg, kp. split; [reflexivity|].
  destruct neg; simpl in H0, H100 |- *; lia.
Qed.

Lemma percentileCount_value neg kp c :
  valid (Fin neg kp) = true ->
  leb zero (Fin neg kp) = true -> leb (Fin neg kp) (lit 100 1) = true ->
  0 <= c <= 2 ^ 53 ->
  percentileCount (Fin neg kp) c
  = Some ((round_key (round_key (kp * one_key) (100 * one_key) * (c * one_key)) one_key
           + one_key - 1) / one_key).
Proof.
  intros Hv H0 H100 Hc. pose proof one_key_pos as Hone.
  destruct (percent_fin _ Hv H0 H100) as (neg' & kp' & [= <- <-] & Hkp & Hord).
  unfold percentileCount.
  rewrite (lit_int 100) by lia. rewrite (of_uint64_int c) by lia.
  rewrite div_fin by lia.
  destruct neg; simpl in Hord.
  - assert (kp = 0) by lia. subst kp.
    assert (E : round_key (round_key (0 * one_key) (100 * one_key) * (c * one_key)) one_key = 0).
    { rewrite Z.mul_0_l. reflexivity. }
    rewrite E. rewrite Z.mul_0_l, round_zero. unfold mul. simpl xorb.
    rewrite Z.mul_0_l, round_zero. vm_compute. reflexivity.
  - assert (Hq : round_key (kp * one_key) (100 * one_key) <= one_key).
    { replace one_key with (round_key (1 * one_key * (100 * one_key)) (100 * one_key)) at 3
        by (apply round_key_int_d; lia).
      apply round_key_mono; try lia.
      apply Z.mul_le_mono_nonneg_r; [lia|]. nia. }
    assert (Hqo : one_key < overflow_key) by reflexivity.
    rewrite round_fin by lia.
    set (kq := round_key (kp * one_key) (100 * one_key)) in *.
    assert (Hkq : 0 <= kq) by (apply round_key_nonneg; lia).
    unfold mul. simpl xorb.
    assert (Hm : round_key (kq * (c * one_key)) one_key <= c * one_key).
    { replace (c * one_key) with (round_key (c * one_key * one_key) one_key) at 2
        by (apply round_key_int_d; lia).
      apply round_key_mono; try lia.
      apply Z.mul_le_mono_nonneg_r; [lia|].
      rewrite (Z.mul_comm kq). apply Z.mul_le_mono_nonneg_l; [nia|lia]. }
    assert (Hco : c * one_key < overflow_key).
    { assert (2 ^ 53 * one_key < overflow_key) by reflexivity. nia. }
    rewrite round_fin by lia.
    set (km := round_key (kq * (c * one_key)) one_key) in *.
    assert (Hkm : 0 <= km) by (apply round_key_nonneg; lia).
    unfold to_uint64. rewrite trunc_Ceil_pos.
    assert (Hup : (km + one_key - 1) / one_key <= c).
    { apply Z.lt_succ_r. apply Z.div_lt_upper_bound; lia. }
    pose proof (ceil_div_nonneg km Hkm) as Hlo.
    destruct (Z.leb_spec 0 ((km + one_key - 1) / one_key)); [|lia].
    destruct (Z.ltb_spec ((km + one_key - 1) / one_key) (2 ^ 64)); [reflexivity|].
    exfalso. assert (2 ^ 53 < 2 ^ 64) by reflexivity. lia.
Qed.

(** The threshold grows with the percentile. *)
Lemma percentileCount_mono p q c :
  valid p = true -> valid q = true ->
  leb zero p = true -> leb p q = true -> leb q (lit 100 1) = true ->
  0 <= c <= 2 ^ 53 ->
  exists countp countq,
    percentileCount p c = Some countp /\ percentileCount q c = Some countq /\
    0 <= countp /\ countp <= countq /\ countq <= c.
Proof.
  intros Hvp Hvq H0 Hpq H100 Hc. pose proof one_key_pos as Hone.
  pose proof (leb_trans _ _ _ H0 Hpq) as H0q.
  pose proof (leb_trans _ _ _ Hpq H100) as H100p.
  destruct (percentileCount_le p c Hvp H0 H100p Hc) as (cp & Ecp & Hcp).
  destruct (percentileCount_le q c Hvq H0q H100 Hc) as (cq & Ecq & Hcq).
  exists cp, cq. split; [exact Ecp|]. split; [exact Ecq|].
  split; [lia|]. split; [|lia].
  destruct (percent_fin _ Hvp H0 H100p) as (np & kp & -> & Hkp & Hop).
  destruct (percent_fin _ Hvq H0q H100) as (nq & kq & -> & Hkq & Hoq).
  apply leb_true in Hpq as (_ & _ & Hpq). rewrite Hop, Hoq in Hpq.
  rewrite percentileCount_value in Ecp, Ecq by assumption.
  injection Ecp as <-. injection Ecq as <-.
  apply ceil_div_mono. apply round_key_mono; try lia.
  apply Z.mul_le_mono_nonneg_r; [lia|].
  apply Z.mul_le_mono_nonneg_r; [nia|].
  apply round_key_mono; try lia.
  apply Z.mul_le_mono_nonneg_r; [lia|].
  apply Z.mul_le_mono_nonneg_r; lia.
Qed.

End PercentileOrder.

Lemma BinAtPercentile_found lhs p c count :
  TotalCount lhs = Some c ->
  percentileCount p c = Some count -> count <= c ->
  exists index bin,
    list_find (fun b => count <= b) (lhs_bins lhs) = Some (index, bin) /\
    BinAtPercentile lhs p = Some (specBound lhs index).
Proof.
  intros Htotal Hcount Hle.
  assert (Hin : c ∈ lhs_bins lhs).
  { unfold TotalCount in Htotal. apply last_Some_elem_of in Htotal. exact Htotal. }
  destruct (list_find_elem_of (fun b => count <= b) (lhs_bins lhs) c Hin Hle)
    as [[index bin] Hfind].
  exists index, bin. split; [exact Hfind|].
  rewrite BinAtPercentile_specBinAtPercentile. unfold specBinAtPercentile.
  rewrite Htotal. cbn [mbind option_bind].
  change (specThreshold p c) with (percentileCount p c). rewrite Hcount.
  cbn [mbind option_bind]. rewrite Hfind. reflexivity.
Qed.

Lemma list_find_threshold_mono (l : list Z) a b i x j y :
  a <= b ->
  list_find (fun bin => a <= bin) l = Some (i, x) ->
  list_find (fun bin => b <= bin) l = Some (j, y) ->
  (i <= j)%nat.
Proof.
  intros Hab Hi Hj.
  apply list_find_Some in Hi as (_ & _ & Hi).
  apply list_find_Some in Hj as (Hj & Hy & _).
  destruct (le_lt_dec i j) as [H|H]; [exact H|].
  exfalso. apply (Hi j y Hj H). lia.
Qed.

(** X4.  A higher percentile never reports a lower bin: for a snapshot with
    a total of at most [2^53] and percentiles [0 <= p <= q <= 100],
    [BinAtPercentile] renders the bounds of two bins [i <= j] of the
    snapshot. *)
Theorem higher_percentile_reports_higher_bin lhs c p q :
  TotalCount lhs = Some c -> 0 <= c <= 2 ^ 53 ->
  F64.valid p = true -> F64.valid q = true ->
  F64.leb F64.zero p = true -> F64.leb p q = true ->
  F64.leb q (F64.lit 100 1) = true ->
  exists i j,
    BinAtPercentile lhs p = Some (specBound lhs i) /\
    BinAtPercentile lhs q = Some (specBound lhs j) /\
    (i <= j < length (lhs_bins lhs))%nat.
Proof.
  intros Htotal Hc Hvp Hvq H0 Hpq H100.
  destruct (percentileCount_mono p q c Hvp Hvq H0 Hpq H100 Hc)
    as (cp & cq & Ecp & Ecq & Hcp & Hcpq & Hcq).
  destruct (BinAtPercentile_found lhs p c cp Htotal Ecp ltac:(lia)) as (i & x & Fi & Bi).
  destruct (BinAtPercentile_found lhs q c cq Htotal Ecq Hcq) as (j & y & Fj & Bj).
  exists i, j. split; [exact Bi|]. split; [exact Bj|]. split.
  - exact (list_find_threshold_mono _ _ _ _ _ _ _ Hcpq Fi Fj).
  - apply list_find_Some in Fj as (Fj & _). apply lookup_lt_Some in Fj. exact Fj.
Qed.

Lemma GetAndResetValues_unfold bc :
  GetAndResetValues bc =
  (total ← TotalCount (AggregateAndReset (hist bc)).1;
   p50 ← BinAtPercentile (AggregateAndReset (hist bc)).1 (F64.lit 50 1);
   p90 ← BinAtPercentile (AggregateAndReset (hist bc)).1 (F64.lit 90 1);
   p99 ← BinAtPercentile (AggregateAndReset (hist bc)).1 (F64.lit 99 1);
   p999 ← BinAtPercentile (AggregateAndReset (hist bc)).1 (F64.lit 999 10);
   p100 ← BinAtPercentile (AggregateAndReset (hist bc)).1 (F64.lit 100 1);
   Some ({| total_count := total;
            percentiles_us :=
              <["50.0" := p50]> (<["90.0" := p90]> (<["99.0" := p99]>
                (<["99.9" := p999]> (<["100.0" := p100]> ∅)))) |},
         {| peerName := peerName bc; hist := (AggregateAndReset (hist bc)).2 |})).
Proof. reflexivity. Qed.

Lemma reported_percentiles :
  F64.valid (F64.lit 50 1) = true /\ F64.valid (F64.lit 90 1) = true /\
  F64.valid (F64.lit 99 1) = true /\ F64.valid (F64.lit 999 10) = true /\
  F64.valid (F64.lit 100 1) = true /\
  F64.leb F64.zero (F64.lit 50 1) = true /\
  F64.leb (F64.lit 50 1) (F64.lit 90 1) = true /\
  F64.leb (F64.lit 90 1) (F64.lit 99 1) = true /\
  F64.leb (F64.lit 99 1) (F64.lit 999 10) = true /\
  F64.leb (F64.lit 999 10) (F64.lit 100 1) = true /\
  F64.leb (F64.lit 100 1) (F64.lit 100 1) = true.
Proof. repeat split; vm_compute; reflexivity. Qed.

Lemma TotalCount_sum lh :
  lh_bins lh <> [] -> Forall (Z.le 0) (lh_bins lh) -> sumZ (lh_bins lh) < 2 ^ 64 ->
  TotalCount (AggregateAndReset lh).1 = Some (sumZ (lh_bins lh)).
Proof.
  intros Hne Hpos Hsum. unfold TotalCount. simpl.
  destruct (prefixSums_spec 0 (lh_bins lh) ltac:(lia) Hpos ltac:(lia)) as (_ & _ & Hlast).
  rewrite Hlast. destruct (lh_bins lh); [congruence|reflexivity].
Qed.

Lemma GetAndResetValues_spec bc :
  lh_bins (hist bc) <> [] ->
  Forall (Z.le 0) (lh_bins (hist bc)) ->
  sumZ (lh_bins (hist bc)) <= 2 ^ 53 ->
  exists i50 i90 i99 i999 i100,
    GetAndResetValues bc =
    Some ({| total_count := sumZ (lh_bins (hist bc));
             percentiles_us :=
               <["50.0" := specBound (AggregateAndReset (hist bc)).1 i50]>
               (<["90.0" := specBound (AggregateAndReset (hist bc)).1 i90]>
               (<["99.0" := specBound (AggregateAndReset (hist bc)).1 i99]>
               (<["99.9" := specBound (AggregateAndReset (hist bc)).1 i999]>
               (<["100.0" := specBound (AggregateAndReset (hist bc)).1 i100]> ∅)))) |},
          {| peerName := peerName bc;
             hist := with_bins (hist bc) (replicate (length (lh_bins (hist bc))) 0) |}) /\
    (i50 <= i90)%nat /\ (i90 <= i99)%nat /\ (i99 <= i999)%nat /\ (i999 <= i100)%nat /\
    (i100 < length (lh_bins (hist bc)))%nat.
Proof.
  intros Hne Hpos Hsum.
  pose proof (sumZ_nonneg _ Hpos) as Hs0.
  assert (H64 : 2 ^ 53 < 2 ^ 64) by reflexivity.
  pose proof (TotalCount_sum (hist bc) Hne Hpos ltac:(lia)) as Htotal.
  destruct reported_percentiles
    as (V50 & V90 & V99 & V999 & V100 & L0 & L1 & L2 & L3 & L4 & L5).
  assert (Hc : 0 <= sumZ (lh_bins (hist bc)) <= 2 ^ 53) by lia.
  pose proof (leb_trans _ _ _ L0 L1) as L01.
  pose proof (leb_trans _ _ _ L01 L2) as L02.
  pose proof (leb_trans _ _ _ L02 L3) as L03.
  pose proof (leb_trans _ _ _ L3 L4) as L34.
  pose proof (leb_trans _ _ _ L2 L34) as L24.
  pose proof (leb_trans _ _ _ L1 L24) as L14.
  destruct (percentileCount_mono _ _ _ V50 V90 L0 L1 L14 Hc)
    as (c50 & c90 & E50 & E90 & _ & O1 & _).
  destruct (percentileCount_mono _ _ _ V90 V99 L01 L2 L24 Hc)
    as (c90' & c99 & E90' & E99 & _ & O2 & _).
  rewrite E90 in E90'. injection E90' as <-.
  destruct (percentileCount_mono _ _ _ V99 V999 L02 L3 L34 Hc)
    as (c99' & c999 & E99' & E999 & _ & O3 & _).
  rewrite E99 in E99'. injection E99' as <-.
  destruct (percentileCount_mono _ _ _ V999 V100 L03 L4 L5 Hc)
    as (c999' & c100 & E999' & E100 & _ & O4 & O5).
  rewrite E999 in E999'. injection E999' as <-.
  destruct (BinAtPercentile_found _ _ _ _ Htotal E50 ltac:(lia)) as (i50 & x50 & F50 & B50).
  destruct (BinAtPercentile_found _ _ _ _ Htotal E90 ltac:(lia)) as (i90 & x90 & F90 & B90).
  destruct (BinAtPercentile_found _ _ _ _ Htotal E99 ltac:(lia)) as (i99 & x99 & F99 & B99).
  destruct (BinAtPercentile_found _ _ _ _ Htotal E999 ltac:(lia))
    as (i999 & x999 & F999 & B999).
  destruct (BinAtPercentile_found _ _ _ _ Htotal E100 ltac:(lia))
    as (i100 & x100 & F100 & B100).
  exists i50, i90, i99, i999, i100.
  rewrite GetAndResetValues_unfold, Htotal, B50, B90, B99, B999, B100.
  split; [reflexivity|].
  split; [exact (list_find_threshold_mono _ _ _ _ _ _ _ O1 F50 F90)|].
  split; [exact (list_find_threshold_mono _ _ _ _ _ _ _ O2 F90 F99)|].
  split; [exact (list_find_threshold_mono _ _ _ _ _ _ _ O3 F99 F999)|].
  split; [exact (list_find_threshold_mono _ _ _ _ _ _ _ O4 F999 F100)|].
  apply list_find_Some in F100 as (F100 & _). apply lookup_lt_Some in F100.
  simpl in F100. rewrite prefixSums_length in F100. exact F100.
Qed.

Lemma specBound_not_sentinel lhs index : specBound lhs index <> "0.0".
Proof.
  destruct (specBound_format lhs index) as [(b & ->)|(b & ->)]; intros E; discriminate E.
Qed.

(** X5.  For a recorder whose counters are non-negative with a sum of at
    most [2^53], [GetAndResetValues] returns the sum as [total_count] and
    the five percentiles as the bounds of bins of the snapshot, the bin of
    a higher percentile never below that of a lower one and none of them the
    sentinel ["0.0"]; the recorder keeps its label and all its counters are
    zero afterwards. *)
Theorem GetAndResetValues_reports_and_resets bc :
  lh_bins (hist bc) <> [] ->
  Forall (Z.le 0) (lh_bins (hist bc)) ->
  sumZ (lh_bins (hist bc)) <= 2 ^ 53 ->
  exists values bc' i50 i90 i99 i999 i100,
    GetAndResetValues bc = Some (values, bc') /\
    total_count values = sumZ (lh_bins (hist bc)) /\
    percentiles_us values =
      <["50.0" := specBound (AggregateAndReset (hist bc)).1 i50]>
      (<["90.0" := specBound (AggregateAndReset (hist bc)).1 i90]>
      (<["99.0" := specBound (AggregateAndReset (hist bc)).1 i99]>
      (<["99.9" := specBound (AggregateAndReset (hist bc)).1 i999]>
      (<["100.0" := specBound (AggregateAndReset (hist bc)).1 i100]> ∅)))) /\
    (i50 <= i90)%nat /\ (i90 <= i99)%nat /\ (i99 <= i999)%nat /\ (i999 <= i100)%nat /\
    (i100 < length (lh_bins (hist bc)))%nat /\
    dom (percentiles_us values)
    =@{gset string} list_to_set ["50.0"; "90.0"; "99.0"; "99.9"; "100.0"] /\
    (forall key bound, percentiles_us values !! key = Some bound -> bound <> "0.0") /\
    peerName bc' = peerName bc /\
    lh_bins (hist bc') = replicate (length (lh_bins (hist bc))) 0.
Proof.
  intros Hne Hpos Hsum.
  destruct (GetAndResetValues_spec bc Hne Hpos Hsum)
    as (i50 & i90 & i99 & i999 & i100 & Hget & H1 & H2 & H3 & H4 & H5).
  eexists _, _, i50, i90, i99, i999, i100.
  split; [exact Hget|]. cbn [total_count percentiles_us peerName hist].
  split; [reflexivity|]. split; [reflexivity|].
  repeat (split; [assumption|]).
  split; [rewrite !dom_insert_L, dom_empty_L; reflexivity|].
  split; [|split; reflexivity].
  intros key bound H.
  repeat (apply lookup_insert_Some in H as [[_ <-]|[_ H]];
          [apply specBound_not_sentinel|]).
  rewrite lookup_empty in H. discriminate H.
Qed.

Lemma idle_percentile lh p :
  lh_bins lh <> [] -> Forall (eq 0) (lh_bins lh) ->
  F64.valid p = true -> F64.leb F64.zero p = true -> F64.leb p (F64.lit 100 1) = true ->
  TotalCount (AggregateAndReset lh).1 = Some 0 /\
  BinAtPercentile (AggregateAndReset lh).1 p = Some (specBound (AggregateAndReset lh).1 0).
Proof.
  intros Hne Hz Hv H0 H100.
  assert (Hpos : Forall (Z.le 0) (lh_bins lh)).
  { eapply Forall_impl; [exact Hz|]. intros x <-. lia. }
  pose proof (sumZ_zero _ Hz) as Hs.
  assert (Ht : TotalCount (AggregateAndReset lh).1 = Some 0).
  { replace (Some 0) with (Some (sumZ (lh_bins lh))) by (f_equal; exact Hs).
    apply TotalCount_sum; [exact Hne|exact Hpos|rewrite Hs; lia]. }
  split; [exact Ht|].
  destruct (percentileCount_le p 0 Hv H0 H100 ltac:(lia)) as (count & Hcount & Hle).
  assert (count = 0) by lia. subst count.
  destruct (BinAtPercentile_found _ p 0 0 Ht Hcount ltac:(lia))
    as (index & bin & Hfind & HB).
  rewrite HB. do 2 f_equal.
  apply list_find_Some in Hfind as (Hlook & _ & Hfirst).
  destruct index as [|index]; [reflexivity|]. exfalso.
  cbn [AggregateAndReset fst lhs_bins] in Hfirst.
  destruct (lh_bins lh) as [|b bs]; [congruence|].
  apply (Hfirst 0%nat (wrap64 (0 + b))); [reflexivity|lia|].
  unfold wrap64. apply Z.mod_pos_bound. reflexivity.
Qed.

(** X15.  A recorder nothing was recorded into since its last reset is
    still reported: [GetAndResetValues] returns [total_count = 0] and, for
    every one of the five percentiles, the bound of bin 0 (the threshold is
    0 and the first bin reaches it). *)
Theorem idle_recorder_reports_first_bin bc :
  lh_bins (hist bc) <> [] ->
  Forall (eq 0) (lh_bins (hist bc)) ->
  GetAndResetValues bc =
  Some ({| total_count := 0;
           percentiles_us :=
             <["50.0" := specBound (AggregateAndReset (hist bc)).1 0]>
             (<["90.0" := specBound (AggregateAndReset (hist bc)).1 0]>
             (<["99.0" := specBound (AggregateAndReset (hist bc)).1 0]>
             (<["99.9" := specBound (AggregateAndReset (hist bc)).1 0]>
             (<["100.0" := specBound (AggregateAndReset (hist bc)).1 0]> ∅)))) |},
        {| peerName := peerName bc;
           hist := with_bins (hist bc) (replicate (length (lh_bins (hist bc))) 0) |}).
Proof.
  intros Hne Hz.
  destruct reported_percentiles
    as (V50 & V90 & V99 & V999 & V100 & L0 & L1 & L2 & L3 & L4 & L5).
  pose proof (leb_trans _ _ _ L0 L1) as Z90.
  pose proof (leb_trans _ _ _ Z90 L2) as Z99.
  pose proof (leb_trans _ _ _ Z99 L3) as Z999.
  pose proof (leb_trans _ _ _ Z999 L4) as Z100.
  pose proof (leb_trans _ _ _ L3 L4) as U99.
  pose proof (leb_trans _ _ _ L2 U99) as U90.
  pose proof (leb_trans _ _ _ L1 U90) as U50.
  destruct (idle_percentile (hist bc) _ Hne Hz V50 L0 U50) as [Ht B50].
  destruct (idle_percentile (hist bc) _ Hne Hz V90 Z90 U90) as [_ B90].
  destruct (idle_percentile (hist bc) _ Hne Hz V99 Z99 U99) as [_ B99].
  destruct (idle_percentile (hist bc) _ Hne Hz V999 Z999 L4) as [_ B999].
  destruct (idle_percentile (hist bc) _ Hne Hz V100 Z100 L5) as [_ B100].
  rewrite GetAndResetValues_unfold, Ht, B50, B90, B99, B999, B100. reflexivity.
Qed.

(** ** Further properties of the meter *)

Lemma ValueRecorder_noop name tags am hp :
  unrecognised name tags am <->
  ValueRecorder name tags am hp = Some (defaultNoopValueRecorder, am, hp).
Proof.
  unfold unrecognised, ValueRecorder.
  destruct (String.eqb_spec name meterNameResponses) as [Hn|Hn]; cbn [negb].
  2: { split; [intros _; reflexivity|intros _; left; exact Hn]. }
  destruct (tags !! meterAttribServiceKey) as [sv|] eqn:Hs.
  2: { split; [intros _; reflexivity|intros _; right; left; reflexivity]. }
  destruct (valueRecorderGroups am !! sv) as [g|] eqn:Hg.
  2: { split; [intros _; reflexivity|]. intros _. right. right. left. exists sv. auto. }
  destruct (tags !! meterAttribPeerName) as [p|] eqn:Hp.
  2: { split; [intros _; reflexivity|]. intros _. do 3 right. reflexivity. }
  split.
  - intros [H|[H|[(s' & Hs' & Hg')|H]]]; try congruence.
  - intros H. exfalso. destruct (recorders g !! p); [discriminate H|].
    apply bind_Some in H as (bc & _ & H). discriminate H.
Qed.

(** X6.  [ValueRecorder] answers with the no-op recorder exactly for
    another metric name, a missing service or peer label, or a service
    without a group; recording through it changes nothing: no recorder is
    allocated, no counter moves, nothing is logged. *)
Theorem unrecognised_recording_is_dropped st name tags val :
  (unrecognised name tags (meter st) <->
   ValueRecorder name tags (meter st) (objects st)
   = Some (defaultNoopValueRecorder, meter st, objects st)) /\
  (unrecognised name tags (meter st) -> step st (EvRecord name tags val) = Some st).
Proof.
  split; [apply ValueRecorder_noop|].
  intros H. apply (ValueRecorder_noop name tags (meter st) (objects st)) in H.
  cbn [step]. rewrite H. destruct st. reflexivity.
Qed.

Lemma ValueRecorder_shape name tags am hp r am' hp' :
  ValueRecorder name tags am hp = Some (r, am', hp') ->
  interval am' = interval am /\
  dom (valueRecorderGroups am') =@{gset string} dom (valueRecorderGroups am).
Proof.
  unfold ValueRecorder. intros H.
  destruct (negb _); [injection H as <- <- <-; auto|].
  destruct (tags !! meterAttribServiceKey) as [sv|]; [|injection H as <- <- <-; auto].
  destruct (valueRecorderGroups am !! sv) as [g|] eqn:Hg; [|injection H as <- <- <-; auto].
  destruct (tags !! meterAttribPeerName) as [p|]; [|injection H as <- <- <-; auto].
  destruct (recorders g !! p) as [l0|] eqn:Hp; [injection H as <- <- <-; auto|].
  apply bind_Some in H as (bc & _ & [= <- <- <-]). simpl. split; [reflexivity|].
  apply dom_insert_lookup_L. eauto.
Qed.

Lemma step_shape st ev st' :
  step st ev = Some st' ->
  interval (meter st') = interval (meter st) /\
  dom (valueRecorderGroups (meter st')) =@{gset string} dom (valueRecorderGroups (meter st)).
Proof.
  destruct ev as [name tags val| |]; simpl; intros H.
  - apply bind_Some in H as ([[r am] hp] & HV & H).
    apply bind_Some in H as (hp' & _ & [= <-]). simpl.
    exact (ValueRecorder_shape _ _ _ _ _ _ _ HV).
  - destruct (running st); [|injection H as <-; auto].
    unfold loggerIteration in H.
    apply bind_Some in H as ([out hp] & _ & H).
    destruct (size out =? 1)%nat; [injection H as <-; auto|].
    destruct (jsonMarshal out); injection H as <-; auto.
  - injection H as <-. auto.
Qed.

Lemma run_shape st evs st' :
  run st evs = Some st' ->
  interval (meter st') = interval (meter st) /\
  dom (valueRecorderGroups (meter st')) =@{gset string} dom (valueRecorderGroups (meter st)).
Proof.
  revert st. induction evs as [|ev evs IH]; intros st H; simpl in H.
  - injection H as <-. auto.
  - apply bind_Some in H as (st1 & Hstep & H).
    destruct (step_shape _ _ _ Hstep) as [E1 E2].
    destruct (IH _ H) as [F1 F2]. split; congruence.
Qed.

(** X7.  The set of services and the emit interval are fixed when the meter
    is created: no recording, tick or stop adds or removes a group or
    changes the interval.  A meter made by [NewAggregatingMeter] has the six
    service groups, with the interval of the options or ten minutes when
    the options are missing or the interval is 0. *)
Theorem service_groups_never_change :
  (forall st evs st',
      run st evs = Some st' ->
      interval (meter st') = interval (meter st) /\
      dom (valueRecorderGroups (meter st'))
      =@{gset string} dom (valueRecorderGroups (meter st))) /\
  (forall opts evs st',
      run (start opts) evs = Some st' ->
      dom (valueRecorderGroups (meter st'))
      =@{gset string}
         list_to_set [meterValueServiceKV; meterValueServiceViews;
                      meterValueServiceQuery; meterValueServiceSearch;
                      meterValueServiceAnalytics; meterValueServiceManagement] /\
      interval (meter st')
      = match opts with
        | Some o => if EmitInterval o =? 0 then tenMinutes else EmitInterval o
        | None => tenMinutes
        end).
Proof.
  split; [exact run_shape|].
  intros opts evs st' H. destruct (run_shape _ _ _ H) as [E1 E2].
  rewrite E1, E2. split.
  - unfold start, NewAggregatingMeter. cbn [meter valueRecorderGroups].
    rewrite !dom_insert_L, dom_empty_L. reflexivity.
  - destruct opts as [o|]; reflexivity.
Qed.

Lemma same_labels_refl hp : same_labels hp hp.
Proof. intros l. reflexivity. Qed.

Lemma same_labels_trans hp1 hp2 hp3 :
  same_labels hp1 hp2 -> same_labels hp2 hp3 -> same_labels hp1 hp3.
Proof. intros H1 H2 l. rewrite (H2 l). apply H1. Qed.

Lemma same_labels_insert hp l bc bc' :
  hp !! l = Some bc -> peerName bc' = peerName bc -> same_labels hp (<[l := bc']> hp).
Proof.
  intros H E l'. destruct (decide (l = l')) as [<-|Hne].
  - rewrite lookup_insert_eq, H. cbn. f_equal. exact E.
  - rewrite lookup_insert_ne by assumption. reflexivity.
Qed.

Lemma same_labels_lookup hp hp' l bc :
  same_labels hp hp' -> hp !! l = Some bc ->
  exists bc', hp' !! l = Some bc' /\ peerName bc' = peerName bc.
Proof.
  intros Hl H. specialize (Hl l). rewrite H in Hl.
  destruct (hp' !! l) as [bc'|]; [|discriminate Hl].
  cbn in Hl. injection Hl as Hl. exists bc'. auto.
Qed.

Lemma meter_wf_labels am hp hp' : same_labels hp hp' -> meter_wf am hp -> meter_wf am hp'.
Proof.
  intros Hl [Hobj Hinj]. split; [|exact Hinj].
  intros service peer l H. destruct (Hobj _ _ _ H) as (bc & Hbc & Hn).
  destruct (same_labels_lookup _ _ _ _ Hl Hbc) as (bc' & Hbc' & Hn').
  exists bc'. split; [exact Hbc'|congruence].
Qed.

Lemma recorderRecordValue_inv bc val bc' :
  recorderRecordValue bc val = Some bc' ->
  peerName bc' = peerName bc /\ RecordValue (hist bc) val = Some (hist bc').
Proof.
  unfold recorderRecordValue. intros H.
  apply bind_Some in H as (h & Hh & [= <-]). auto.
Qed.

Lemma handleRecordValue_labels r val hp hp' :
  handleRecordValue r val hp = Some hp' -> same_labels hp hp'.
Proof.
  destruct r as [|l]; cbn [handleRecordValue]; intros H.
  - injection H as <-. apply same_labels_refl.
  - apply bind_Some in H as (bc & Hbc & H).
    apply bind_Some in H as (bc' & Hrec & [= <-]).
    apply (same_labels_insert _ _ bc); [exact Hbc|].
    apply (recorderRecordValue_inv _ _ _ Hrec).
Qed.

Lemma GetAndResetValues_inv bc values bc' :
  GetAndResetValues bc = Some (values, bc') ->
  bc' = {| peerName := peerName bc; hist := (AggregateAndReset (hist bc)).2 |} /\
  TotalCount (AggregateAndReset (hist bc)).1 = Some (total_count values).
Proof.
  rewrite GetAndResetValues_unfold. intros H.
  apply bind_Some in H as (total & Ht & H).
  repeat (apply bind_Some in H as (? & _ & H)).
  injection H as <- <-. auto.
Qed.

Lemma GetAndResetValues_peerName bc values bc' :
  GetAndResetValues bc = Some (values, bc') -> peerName bc' = peerName bc.
Proof. intros H. apply GetAndResetValues_inv in H as [-> _]. reflexivity. Qed.

Lemma collectValues_labels rs m hp m' hp' :
  collectValues rs m hp = Some (m', hp') -> same_labels hp hp'.
Proof.
  revert m hp. induction rs as [|l rs IH]; intros m hp H; simpl in H.
  - injection H as _ <-. apply same_labels_refl.
  - apply bind_Some in H as (bc & Hbc & H).
    apply bind_Some in H as ([vals bc'] & Hg & H).
    eapply same_labels_trans; [|exact (IH _ _ H)].
    apply (same_labels_insert _ _ bc); [exact Hbc|].
    exact (GetAndResetValues_peerName _ _ _ Hg).
Qed.

Lemma collectServices_labels groups out hp out' hp' :
  collectServices groups out hp = Some (out', hp') -> same_labels hp hp'.
Proof.
  revert out hp. induction groups as [|[name group] groups IH]; intros out hp H; simpl in H.
  - injection H as _ <-. apply same_labels_refl.
  - destruct (length (Recorders group) =? 0)%nat; [exact (IH _ _ H)|].
    apply bind_Some in H as ([sm hp1] & Hcv & H).
    eapply same_labels_trans; [exact (collectValues_labels _ _ _ _ _ Hcv)|exact (IH _ _ H)].
Qed.

Lemma loggerIteration_inv st st' :
  loggerIteration st = Some st' ->
  exists out hp,
    generateOutput (meter st) (objects st) = Some (out, hp) /\
    meter st' = meter st /\ objects st' = hp.
Proof.
  unfold loggerIteration. intros H.
  apply bind_Some in H as ([out hp] & Hgen & H). exists out, hp.
  split; [exact Hgen|].
  destruct (size out =? 1)%nat; [injection H as <-; auto|].
  destruct (jsonMarshal out); injection H as <-; auto.
Qed.

Lemma step_wf st ev st' :
  step st ev = Some st' ->
  meter_wf (meter st) (objects st) -> meter_wf (meter st') (objects st').
Proof.
  destruct ev as [name tags val| |]; cbn [step]; intros H Hwf.
  - apply bind_Some in H as ([[r am] hp] & HV & H).
    apply bind_Some in H as (hp' & Hh & [= <-]). cbn [meter objects].
    apply (meter_wf_labels _ hp); [exact (handleRecordValue_labels _ _ _ _ Hh)|].
    exact (ValueRecorder_wf _ _ _ _ _ _ _ HV Hwf).
  - destruct (running st); [|injection H as <-; exact Hwf].
    apply loggerIteration_inv in H as (out & hp & Hgen & -> & ->).
    apply (meter_wf_labels _ (objects st)); [|exact Hwf].
    exact (collectServices_labels _ _ _ _ _ Hgen).
  - injection H as <-. exact Hwf.
Qed.

Lemma run_wf st evs st' :
  run st evs = Some st' ->
  meter_wf (meter st) (objects st) -> meter_wf (meter st') (objects st').
Proof.
  revert st. induction evs as [|ev evs IH]; intros st H Hwf; simpl in H.
  - injection H as <-. exact Hwf.
  - apply bind_Some in H as (st1 & Hstep & H).
    apply (IH _ H). exact (step_wf _ _ _ Hstep Hwf).
Qed.

Lemma start_wf opts : meter_wf (NewAggregatingMeter opts) ∅.
Proof.
  assert (Hnone : forall service peer l,
             recorder_of (NewAggregatingMeter opts) service peer = Some l -> False).
  { intros service peer l H. unfold recorder_of in H.
    apply bind_Some in H as (g & Hg & H).
    apply NewAggregatingMeter_groups in Hg. subst g.
    cbn [emptyGroup recorders] in H. rewrite lookup_empty in H. discriminate H. }
  split.
  - intros service peer l H. destruct (Hnone _ _ _ H).
  - intros s1 p1 s2 p2 l H. destruct (Hnone _ _ _ H).
Qed.

(** X8.  The registry of recorders stays consistent: in every state the
    meter reaches from its creation, whatever is recorded and whenever the
    routine ticks or stops, every registered address holds a recorder that
    carries the peer label it is registered under, and no recorder is
    registered under two (service, peer) pairs. *)
Theorem registry_stays_consistent :
  (forall opts evs st,
      run (start opts) evs = Some st -> meter_wf (meter st) (objects st)) /\
  (forall st evs st',
      meter_wf (meter st) (objects st) -> run st evs = Some st' ->
      meter_wf (meter st') (objects st')).
Proof.
  split.
  - intros opts evs st H. apply (run_wf _ _ _ H). apply start_wf.
  - intros st evs st' Hwf H. exact (run_wf _ _ _ H Hwf).
Qed.

Lemma collectValues_frame rs m hp m' hp' (l : loc) :
  collectValues rs m hp = Some (m', hp') -> l ∉ rs -> hp' !! l = hp !! l.
Proof.
  revert m hp. induction rs as [|l0 rs IH]; intros m hp H Hl; simpl in H.
  - injection H as _ <-. reflexivity.
  - apply bind_Some in H as (bc & Hbc & H).
    apply bind_Some in H as ([vals bc'] & Hg & H).
    apply not_elem_of_cons in Hl as [Hne Hl].
    rewrite (IH _ _ H Hl). apply lookup_insert_ne. congruence.
Qed.

Lemma collectValues_other rs m hp m' hp' p :
  collectValues rs m hp = Some (m', hp') ->
  (forall l bc, l ∈ rs -> hp !! l = Some bc -> peerName bc <> p) ->
  m' !! p = m !! p.
Proof.
  revert m hp. induction rs as [|l0 rs IH]; intros m hp H Hp; simpl in H.
  - injection H as <- _. reflexivity.
  - apply bind_Some in H as (bc & Hbc & H).
    apply bind_Some in H as ([vals bc'] & Hg & H).
    assert (Hhead : peerName bc <> p).
    { apply (Hp l0); [apply elem_of_cons; auto|exact Hbc]. }
    rewrite (IH _ _ H).
    + apply lookup_insert_ne. exact Hhead.
    + intros l bc2 Hin Hl2. destruct (decide (l = l0)) as [->|Hne].
      * rewrite lookup_insert_eq in Hl2. injection Hl2 as <-.
        rewrite (GetAndResetValues_peerName _ _ _ Hg). exact Hhead.
      * rewrite lookup_insert_ne in Hl2 by congruence.
        apply (Hp l); [apply elem_of_cons; auto|exact Hl2].
Qed.

Lemma collectValues_member rs m hp m' hp' (l : loc) bc :
  collectValues rs m hp = Some (m', hp') ->
  NoDup rs ->
  (forall l1 l2 bc1 bc2,
      l1 ∈ rs -> l2 ∈ rs -> hp !! l1 = Some bc1 -> hp !! l2 = Some bc2 ->
      peerName bc1 = peerName bc2 -> l1 = l2) ->
  l ∈ rs -> hp !! l = Some bc ->
  exists values bc',
    GetAndResetValues bc = Some (values, bc') /\
    m' !! peerName bc = Some values /\ hp' !! l = Some bc'.
Proof.
  revert m hp. induction rs as [|l0 rs IH]; intros m hp H Hnd Hinj Hin Hl; simpl in H.
  - apply elem_of_nil in Hin. contradiction.
  - apply bind_Some in H as (bc0 & Hbc0 & H).
    apply bind_Some in H as ([vals bc0'] & Hg & H).
    apply NoDup_cons in Hnd as [Hnotin Hnd].
    destruct (decide (l = l0)) as [->|Hne].
    + rewrite Hbc0 in Hl. injection Hl as <-.
      exists vals, bc0'. split; [exact Hg|]. split.
      * rewrite (collectValues_other _ _ _ _ _ (peerName bc0) H); [apply lookup_insert_eq|].
        intros l2 bc2 Hin2 Hl2 E.
        assert (Hl20 : l2 <> l0) by (intros ->; contradiction).
        rewrite lookup_insert_ne in Hl2 by congruence.
        apply Hl20. apply (Hinj l2 l0 bc2 bc0); try assumption; apply elem_of_cons; auto.
      * rewrite (collectValues_frame _ _ _ _ _ _ H Hnotin). apply lookup_insert_eq.
    + apply elem_of_cons in Hin as [Hin|Hin]; [contradiction|].
      apply (IH _ _ H Hnd); [|exact Hin|rewrite lookup_insert_ne by congruence; exact Hl].
      intros l1 l2 bc1 bc2 H1 H2 E1 E2 E.
      assert (Hl10 : l1 <> l0) by (intros ->; contradiction).
      assert (Hl20 : l2 <> l0) by (intros ->; contradiction).
      rewrite lookup_insert_ne in E1 by congruence.
      rewrite lookup_insert_ne in E2 by congruence.
      apply (Hinj l1 l2 bc1 bc2); try assumption; apply elem_of_cons; auto.
Qed.

Lemma collectValues_only rs m hp m' hp' p values :
  collectValues rs m hp = Some (m', hp') ->
  m' !! p = Some values ->
  m !! p = Some values \/
  exists l bc, l ∈ rs /\ hp !! l = Some bc /\ peerName bc = p.
Proof.
  revert m hp. induction rs as [|l0 rs IH]; intros m hp H Hp; simpl in H.
  - injection H as <- _. left. exact Hp.
  - apply bind_Some in H as (bc0 & Hbc0 & H).
    apply bind_Some in H as ([vals bc0'] & Hg & H).
    destruct (IH _ _ H Hp) as [Hm|(l & bc & Hin & Hl & Hn)].
    + destruct (decide (peerName bc0 = p)) as [E|Hne].
      * right. exists l0, bc0. split; [apply elem_of_cons; auto|auto].
      * left. rewrite lookup_insert_ne in Hm by assumption. exact Hm.
    + right. destruct (decide (l = l0)) as [->|Hne].
      * rewrite lookup_insert_eq in Hl. injection Hl as <-.
        exists l0, bc0. split; [apply elem_of_cons; auto|]. split; [exact Hbc0|].
        rewrite <- (GetAndResetValues_peerName _ _ _ Hg). exact Hn.
      * rewrite lookup_insert_ne in Hl by congruence.
        exists l, bc. split; [apply elem_of_cons; auto|auto].
Qed.

Lemma Recorders_elem group (l : loc) :
  l ∈ Recorders group <-> exists peer, recorders group !! peer = Some l.
Proof.
  unfold Recorders. rewrite list_elem_of_fmap. split.
  - intros ([peer l'] & -> & Hin). apply elem_of_map_to_list in Hin. exists peer. exact Hin.
  - intros (peer & H). exists (peer, l). split; [reflexivity|].
    apply elem_of_map_to_list. exact H.
Qed.

Lemma Recorders_NoDup group :
  (forall peer1 peer2 l,
      recorders group !! peer1 = Some l -> recorders group !! peer2 = Some l ->
      peer1 = peer2) ->
  NoDup (Recorders group).
Proof.
  intros Hinj. unfold Recorders.
  apply NoDup_fmap_2_strong; [|apply NoDup_map_to_list].
  intros [p1 l1] [p2 l2] H1 H2 E. cbn [snd] in E. subst l2.
  apply elem_of_map_to_list in H1. apply elem_of_map_to_list in H2.
  f_equal. exact (Hinj _ _ _ H1 H2).
Qed.

Lemma groups_wf_tail name g groups hp hp1 :
  groups_wf ((name, g) :: groups) hp -> same_labels hp hp1 -> groups_wf groups hp1.
Proof.
  intros (Hnd & Hobj & Hinj) Hlab.
  rewrite fmap_cons in Hnd. apply NoDup_cons in Hnd as [_ Hnd].
  split; [exact Hnd|]. split.
  - intros s gr p l1 Hin1 Hl1.
    destruct (Hobj s gr p l1) as (bc & Hbc & Hn); [apply elem_of_cons; auto|exact Hl1|].
    destruct (same_labels_lookup _ _ _ _ Hlab Hbc) as (bc1 & Hbc1 & Hn1).
    exists bc1. split; [exact Hbc1|congruence].
  - intros s1 g1 p1 s2 g2 p2 l1 H1 H2. apply Hinj; apply elem_of_cons; auto.
Qed.

Lemma groups_wf_apart name g groups hp service group peer peer' (l : loc) :
  groups_wf ((name, g) :: groups) hp ->
  (service, group) ∈ groups ->
  recorders group !! peer = Some l -> recorders g !! peer' = Some l -> False.
Proof.
  intros (Hnd & _ & Hinj) Hin Hl Hl'.
  rewrite fmap_cons in Hnd. apply NoDup_cons in Hnd as [Hname _]. cbn [fst] in Hname.
  destruct (Hinj name g peer' service group peer l) as [-> _];
    try assumption; try (apply elem_of_cons; auto).
  apply Hname. apply list_elem_of_fmap. exists (service, group). auto.
Qed.

Lemma groups_wf_perm groups groups' hp :
  groups ≡ₚ groups' -> groups_wf groups' hp -> groups_wf groups hp.
Proof.
  intros Hp (Hnd & Hobj & Hinj). split; [rewrite Hp; exact Hnd|]. split.
  - intros s g p l Hin. apply (Hobj s). rewrite <- Hp. exact Hin.
  - intros s1 g1 p1 s2 g2 p2 l H1 H2. apply Hinj; rewrite <- Hp; assumption.
Qed.

(** The emission in any iteration order. *)
Section Order.
Variable order : aggregatingMeterGroup -> list loc.
Hypothesis Horder : forall group, order group ≡ₚ Recorders group.

Lemma order_elem group (l : loc) :
  l ∈ order group <-> exists peer, recorders group !! peer = Some l.
Proof using Horder. rewrite (Horder group). apply Recorders_elem. Qed.

Lemma order_nil group : order group = [] <-> recorders group = ∅.
Proof using Horder.
  rewrite <- Recorders_nil. split; intros E; apply Permutation_nil_r.
  - rewrite <- (Horder group), E. reflexivity.
  - rewrite (Horder group), E. reflexivity.
Qed.

Lemma order_NoDup group :
  (forall peer1 peer2 l,
      recorders group !! peer1 = Some l -> recorders group !! peer2 = Some l ->
      peer1 = peer2) ->
  NoDup (order group).
Proof using Horder. intros H. rewrite (Horder group). apply Recorders_NoDup. exact H. Qed.

Lemma collectServicesIn_frame groups out hp out' hp' (l : loc) :
  collectServicesIn order groups out hp = Some (out', hp') ->
  (forall name group, (name, group) ∈ groups -> l ∉ order group) ->
  hp' !! l = hp !! l.
Proof.
  revert out hp. induction groups as [|[name group] groups IH]; intros out hp H Hl;
    cbn [collectServicesIn] in H.
  - injection H as _ <-. reflexivity.
  - assert (Htail : forall n g, (n, g) ∈ groups -> l ∉ order g).
    { intros n g Hin. apply (Hl n). apply elem_of_cons. auto. }
    destruct (length (order group) =? 0)%nat; [exact (IH _ _ H Htail)|].
    apply bind_Some in H as ([sm hp1] & Hcv & H).
    rewrite (IH _ _ H Htail). apply (collectValues_frame _ _ _ _ _ _ Hcv).
    apply (Hl name). apply elem_of_cons. auto.
Qed.

Lemma collectServicesIn_other groups out hp out' hp' service :
  collectServicesIn order groups out hp = Some (out', hp') ->
  (forall group, (service, group) ∈ groups -> order group = []) ->
  out' !! service = out !! service.
Proof.
  revert out hp. induction groups as [|[name group] groups IH]; intros out hp H Hs;
    cbn [collectServicesIn] in H.
  - injection H as <- _. reflexivity.
  - assert (Htail : forall g, (service, g) ∈ groups -> order g = []).
    { intros g Hin. apply Hs. apply elem_of_cons. auto. }
    destruct (length (order group) =? 0)%nat eqn:Hlen; [exact (IH _ _ H Htail)|].
    apply bind_Some in H as ([sm hp1] & Hcv & H).
    rewrite (IH _ _ H Htail). destruct (0 <? size sm)%nat; [|reflexivity].
    apply lookup_insert_ne. intros ->.
    rewrite (Hs group) in Hlen by (apply elem_of_cons; auto). discriminate Hlen.
Qed.

Lemma collectServicesIn_head name g groups out hp :
  order g <> [] ->
  collectServicesIn order ((name, g) :: groups) out hp =
  '(serviceMap, hp') ← collectValues (order g) ∅ hp;
  collectServicesIn order groups (<[name := ServiceEntry serviceMap]> out) hp'.
Proof.
  intros Hrs. cbn [collectServicesIn].
  destruct (length (order g) =? 0)%nat eqn:Hlen.
  { apply Nat.eqb_eq, length_zero_iff_nil in Hlen. contradiction. }
  destruct (collectValues (order g) ∅ hp) as [[sm hp1]|] eqn:Hcv; [|reflexivity].
  cbn [mbind option_bind].
  pose proof (collectValues_nonempty _ _ _ _ _ Hcv (or_introl Hrs)) as Hsm.
  assert (Hsize : (0 <? size sm)%nat = true).
  { apply Nat.ltb_lt. apply map_size_non_empty_iff in Hsm. lia. }
  rewrite Hsize. reflexivity.
Qed.

Lemma collectServicesIn_nil name g groups out hp :
  order g = [] ->
  collectServicesIn order ((name, g) :: groups) out hp
  = collectServicesIn order groups out hp.
Proof. intros E. cbn [collectServicesIn]. rewrite E. reflexivity. Qed.

Lemma collectServicesIn_member groups out hp out' hp' service group peer (l : loc) :
  collectServicesIn order groups out hp = Some (out', hp') ->
  groups_wf groups hp ->
  (service, group) ∈ groups -> recorders group !! peer = Some l ->
  exists bc values bc' peers,
    hp !! l = Some bc /\ GetAndResetValues bc = Some (values, bc') /\
    hp' !! l = Some bc' /\
    out' !! service = Some (ServiceEntry peers) /\ peers !! peer = Some values.
Proof using Horder.
  revert out hp. induction groups as [|[name g] groups IH]; intros out hp H Hwf Hin Hl.
  - apply elem_of_nil in Hin. contradiction.
  - destruct (decide (order g = [])) as [Hnil|Hrs].
    + rewrite (collectServicesIn_nil _ _ _ _ _ Hnil) in H.
      apply order_nil in Hnil.
      apply elem_of_cons in Hin as [[= -> ->]|Hin].
      * rewrite Hnil, lookup_empty in Hl. discriminate Hl.
      * exact (IH _ _ H (groups_wf_tail _ _ _ _ _ Hwf (same_labels_refl hp)) Hin Hl).
    + rewrite (collectServicesIn_head _ _ _ _ _ Hrs) in H.
      apply bind_Some in H as ([sm hp1] & Hcv & H).
      pose proof (collectValues_labels _ _ _ _ _ Hcv) as Hlab.
      pose proof Hwf as (Hnd & Hobj & Hinj).
      assert (Hhead : (name, g) ∈ (name, g) :: groups) by (apply elem_of_cons; auto).
      apply elem_of_cons in Hin as [[= -> ->]|Hin].
      * destruct (Hobj name g peer l Hhead Hl) as (bc & Hbc & Hn).
        assert (HndR : NoDup (order g)).
        { apply order_NoDup. intros p1 p2 l1 E1 E2.
          apply (Hinj name g p1 name g p2 l1); assumption. }
        assert (HinjR : forall l1 l2 bc1 bc2,
                   l1 ∈ order g -> l2 ∈ order g ->
                   hp !! l1 = Some bc1 -> hp !! l2 = Some bc2 ->
                   peerName bc1 = peerName bc2 -> l1 = l2).
        { intros l1 l2 bc1 bc2 H1 H2 E1 E2 E.
          apply order_elem in H1 as (p1 & H1). apply order_elem in H2 as (p2 & H2).
          destruct (Hobj name g p1 l1 Hhead H1) as (b1 & Hb1 & Hn1).
          destruct (Hobj name g p2 l2 Hhead H2) as (b2 & Hb2 & Hn2).
          assert (p1 = p2) by congruence. congruence. }
        assert (Hmem : l ∈ order g) by (apply order_elem; eauto).
        destruct (collectValues_member _ _ _ _ _ l bc Hcv HndR HinjR Hmem Hbc)
          as (values & bc' & Hg & Hm & Hl').
        exists bc, values, bc', sm. split; [exact Hbc|]. split; [exact Hg|].
        split; [|split].
        -- rewrite (collectServicesIn_frame _ _ _ _ _ l H); [exact Hl'|].
           intros n gr Hin Hmem'. apply order_elem in Hmem' as (p & Hp).
           exact (groups_wf_apart _ _ _ _ _ _ _ _ _ Hwf Hin Hp Hl).
        -- rewrite fmap_cons in Hnd. apply NoDup_cons in Hnd as [Hname _].
           rewrite (collectServicesIn_other _ _ _ _ _ name H); [apply lookup_insert_eq|].
           intros gr Hin. exfalso. apply Hname. apply list_elem_of_fmap.
           exists (name, gr). auto.
        -- rewrite <- Hn. exact Hm.
      * destruct (IH _ _ H (groups_wf_tail _ _ _ _ _ Hwf Hlab) Hin Hl)
          as (bc1 & values & bc' & peers & Hb1 & Hg & Hl' & Ho & Hp).
        exists bc1, values, bc', peers. split; [|auto].
        rewrite <- (collectValues_frame _ _ _ _ _ l Hcv); [exact Hb1|].
        intros Hmem. apply order_elem in Hmem as (p & Hp').
        exact (groups_wf_apart _ _ _ _ _ _ _ _ _ Hwf Hin Hl Hp').
Qed.

Lemma collectServicesIn_only groups out hp out' hp' service peers peer values :
  collectServicesIn order groups out hp = Some (out', hp') ->
  groups_wf groups hp ->
  out' !! service = Some (ServiceEntry peers) ->
  peers !! peer = Some values ->
  out !! service = Some (ServiceEntry peers) \/
  exists group l, (service, group) ∈ groups /\ recorders group !! peer = Some l.
Proof using Horder.
  revert out hp. induction groups as [|[name g] groups IH]; intros out hp H Hwf Ho Hp.
  - cbn [collectServicesIn] in H. injection H as <- _. left. exact Ho.
  - destruct (decide (order g = [])) as [Hnil|Hrs].
    + rewrite (collectServicesIn_nil _ _ _ _ _ Hnil) in H.
      destruct (IH _ _ H (groups_wf_tail _ _ _ _ _ Hwf (same_labels_refl hp)) Ho Hp)
        as [Hout|(gr & l & Hin & Hl)]; [left; exact Hout|].
      right. exists gr, l. split; [apply elem_of_cons; auto|exact Hl].
    + rewrite (collectServicesIn_head _ _ _ _ _ Hrs) in H.
      apply bind_Some in H as ([sm hp1] & Hcv & H).
      pose proof (collectValues_labels _ _ _ _ _ Hcv) as Hlab.
      destruct (IH _ _ H (groups_wf_tail _ _ _ _ _ Hwf Hlab) Ho Hp)
        as [Hout|(gr & l & Hin & Hl)].
      * destruct (decide (name = service)) as [->|Hne].
        -- rewrite lookup_insert_eq in Hout. injection Hout as ->.
           destruct (collectValues_only _ _ _ _ _ _ _ Hcv Hp)
             as [Hempty|(l & bc & Hmem & Hbc & Hn)].
           { rewrite lookup_empty in Hempty. discriminate Hempty. }
           apply order_elem in Hmem as (p & Hl).
           destruct Hwf as (_ & Hobj & _).
           destruct (Hobj service g p l) as (bc' & Hbc' & Hn');
             [apply elem_of_cons; auto|exact Hl|].
           right. exists g, l. split; [apply elem_of_cons; auto|].
           assert (E : p = peer) by congruence. rewrite <- E. exact Hl.
        -- left. rewrite lookup_insert_ne in Hout by assumption. exact Hout.
      * right. exists gr, l. split; [apply elem_of_cons; auto|exact Hl].
Qed.

Lemma collectServicesIn_heap groups out hp out' hp' (l : loc) :
  collectServicesIn order groups out hp = Some (out', hp') ->
  hp' !! l = hp !! l \/
  exists service group peer, (service, group) ∈ groups /\ recorders group !! peer = Some l.
Proof using Horder.
  revert out hp. induction groups as [|[name g] groups IH]; intros out hp H;
    cbn [collectServicesIn] in H.
  - injection H as _ <-. left. reflexivity.
  - assert (Htail : forall out1 hp1,
               collectServicesIn order groups out1 hp1 = Some (out', hp') ->
               hp1 !! l = hp !! l ->
               hp' !! l = hp !! l \/
               exists service group peer,
                 (service, group) ∈ (name, g) :: groups /\ recorders group !! peer = Some l).
    { intros out1 hp1 H1 E. destruct (IH _ _ H1) as [E'|(s & gr & p & Hin & Hl)].
      - left. congruence.
      - right. exists s, gr, p. split; [apply elem_of_cons; auto|exact Hl]. }
    destruct (length (order g) =? 0)%nat; [exact (Htail _ _ H eq_refl)|].
    apply bind_Some in H as ([sm hp1] & Hcv & H).
    destruct (decide (l ∈ order g)) as [Hmem|Hmem].
    + right. apply order_elem in Hmem as (p & Hp).
      exists name, g, p. split; [apply elem_of_cons; auto|exact Hp].
    + apply (Htail _ _ H). exact (collectValues_frame _ _ _ _ _ _ Hcv Hmem).
Qed.

Lemma collectServicesIn_out groups out hp out' hp' service :
  collectServicesIn order groups out hp = Some (out', hp') ->
  out' !! service = out !! service \/
  exists group, (service, group) ∈ groups /\ recorders group <> ∅.
Proof using Horder.
  revert out hp. induction groups as [|[name g] groups IH]; intros out hp H.
  - cbn [collectServicesIn] in H. injection H as <- _. left. reflexivity.
  - assert (Htail : forall out1 hp1,
               collectServicesIn order groups out1 hp1 = Some (out', hp') ->
               out1 !! service = out !! service ->
               out' !! service = out !! service \/
               exists group, (service, group) ∈ (name, g) :: groups /\ recorders group <> ∅).
    { intros out1 hp1 H1 E. destruct (IH _ _ H1) as [E'|(gr & Hin & Hne)].
      - left. congruence.
      - right. exists gr. split; [apply elem_of_cons; auto|exact Hne]. }
    destruct (decide (order g = [])) as [Hnil|Hrs].
    + rewrite (collectServicesIn_nil _ _ _ _ _ Hnil) in H. exact (Htail _ _ H eq_refl).
    + rewrite (collectServicesIn_head _ _ _ _ _ Hrs) in H.
      apply bind_Some in H as ([sm hp1] & Hcv & H).
      destruct (decide (name = service)) as [->|Hne].
      * right. exists g. split; [apply elem_of_cons; auto|].
        intros E. apply order_nil in E. contradiction.
      * apply (Htail _ _ H). apply lookup_insert_ne. exact Hne.
Qed.

End Order.

Lemma collectServicesIn_Recorders groups out hp :
  collectServicesIn Recorders groups out hp = collectServices groups out hp.
Proof.
  revert out hp. induction groups as [|[name g] groups IH]; intros out hp;
    cbn [collectServicesIn collectServices]; [reflexivity|].
  destruct (length (Recorders g) =? 0)%nat; [apply IH|].
  destruct (collectValues (Recorders g) ∅ hp) as [[sm hp1]|]; [|reflexivity].
  cbn [mbind option_bind]. apply IH.
Qed.

Lemma collectServices_frame groups out hp out' hp' (l : loc) :
  collectServices groups out hp = Some (out', hp') ->
  (forall name group, (name, group) ∈ groups -> l ∉ Recorders group) ->
  hp' !! l = hp !! l.
Proof.
  rewrite <- collectServicesIn_Recorders. apply collectServicesIn_frame.
Qed.

Lemma collectServices_member groups out hp out' hp' service group peer (l : loc) :
  collectServices groups out hp = Some (out', hp') ->
  groups_wf groups hp ->
  (service, group) ∈ groups -> recorders group !! peer = Some l ->
  exists bc values bc' peers,
    hp !! l = Some bc /\ GetAndResetValues bc = Some (values, bc') /\
    hp' !! l = Some bc' /\
    out' !! service = Some (ServiceEntry peers) /\ peers !! peer = Some values.
Proof.
  rewrite <- collectServicesIn_Recorders. apply collectServicesIn_member.
  intros g. reflexivity.
Qed.

Lemma collectServices_only groups out hp out' hp' service peers peer values :
  collectServices groups out hp = Some (out', hp') ->
  groups_wf groups hp ->
  out' !! service = Some (ServiceEntry peers) ->
  peers !! peer = Some values ->
  out !! service = Some (ServiceEntry peers) \/
  exists group l, (service, group) ∈ groups /\ recorders group !! peer = Some l.
Proof.
  rewrite <- collectServicesIn_Recorders. apply collectServicesIn_only.
  intros g. reflexivity.
Qed.

Lemma emission_agree order1 order2 groups1 groups2 init hp o1 h1 o2 h2 :
  (forall g, order1 g ≡ₚ Recorders g) -> (forall g, order2 g ≡ₚ Recorders g) ->
  groups1 ≡ₚ groups2 -> groups_wf groups1 hp ->
  (forall s peers, init !! s <> Some (ServiceEntry peers)) ->
  collectServicesIn order1 groups1 init hp = Some (o1, h1) ->
  collectServicesIn order2 groups2 init hp = Some (o2, h2) ->
  o1 = o2 /\ h1 = h2.
Proof.
  intros Ho1 Ho2 Hperm Hwf1 Hinit H1 H2.
  assert (Hwf2 : groups_wf groups2 hp).
  { apply (groups_wf_perm _ groups1); [symmetry; exact Hperm|exact Hwf1]. }
  assert (Hreg : forall s g p (l : loc),
             (s, g) ∈ groups1 -> recorders g !! p = Some l ->
             exists values bc' peers1 peers2,
               h1 !! l = Some bc' /\ h2 !! l = Some bc' /\
               o1 !! s = Some (ServiceEntry peers1) /\ peers1 !! p = Some values /\
               o2 !! s = Some (ServiceEntry peers2) /\ peers2 !! p = Some values).
  { intros s g p l Hin Hl.
    destruct (collectServicesIn_member order1 Ho1 _ _ _ _ _ s g p l H1 Hwf1 Hin Hl)
      as (bc & v & bc' & ps1 & A1 & A2 & A3 & A4 & A5).
    assert (Hin2 : (s, g) ∈ groups2) by (rewrite <- Hperm; exact Hin).
    destruct (collectServicesIn_member order2 Ho2 _ _ _ _ _ s g p l H2 Hwf2 Hin2 Hl)
      as (bc2 & v2 & bc2' & ps2 & B1 & B2 & B3 & B4 & B5).
    rewrite A1 in B1. injection B1 as <-. rewrite A2 in B2. injection B2 as <- <-.
    exists v, bc', ps1, ps2. auto 10. }
  split.
  - apply map_eq. intros s.
    assert (Hcase : (exists g p (l : loc), (s, g) ∈ groups1 /\ recorders g !! p = Some l) \/
                    (o1 !! s = init !! s /\ o2 !! s = init !! s)).
    { destruct (collectServicesIn_out order1 Ho1 _ _ _ _ _ s H1) as [E1|(g & Hin & Hne)].
      2: { left. apply map_choose in Hne as (p & l & Hl). eauto. }
      destruct (collectServicesIn_out order2 Ho2 _ _ _ _ _ s H2) as [E2|(g & Hin & Hne)].
      2: { left. apply map_choose in Hne as (p & l & Hl). exists g, p, l.
           split; [rewrite Hperm; exact Hin|exact Hl]. }
      right. auto. }
    destruct Hcase as [(g & p & l & Hin & Hl)|[E1 E2]]; [|congruence].
    destruct (Hreg _ _ _ _ Hin Hl) as (? & ? & ps1 & ps2 & ? & ? & E1 & ? & E2 & ?).
    rewrite E1, E2. do 2 f_equal. apply map_eq. intros p'.
    assert (Hboth : forall v, ps1 !! p' = Some v \/ ps2 !! p' = Some v ->
                              ps1 !! p' = ps2 !! p').
    { intros v Hv.
      assert (Hr : exists g' (l' : loc), (s, g') ∈ groups1 /\ recorders g' !! p' = Some l').
      { destruct Hv as [Hv|Hv].
        - destruct (collectServicesIn_only order1 Ho1 _ _ _ _ _ _ _ _ _ H1 Hwf1 E1 Hv)
            as [Hi|R]; [destruct (Hinit _ _ Hi)|exact R].
        - destruct (collectServicesIn_only order2 Ho2 _ _ _ _ _ _ _ _ _ H2 Hwf2 E2 Hv)
            as [Hi|(g' & l' & Hin' & Hl')]; [destruct (Hinit _ _ Hi)|].
          exists g', l'. split; [rewrite Hperm; exact Hin'|exact Hl']. }
      destruct Hr as (g' & l' & Hin' & Hl').
      destruct (Hreg _ _ _ _ Hin' Hl') as (v' & ? & qs1 & qs2 & ? & ? & F1 & F2 & F3 & F4).
      rewrite E1 in F1. injection F1 as <-. rewrite E2 in F3. injection F3 as <-.
      congruence. }
    destruct (ps1 !! p') as [v1|] eqn:P1; [apply (Hboth v1); auto|].
    destruct (ps2 !! p') as [v2|] eqn:P2; [apply (Hboth v2); auto|reflexivity].
  - apply map_eq. intros l.
    assert (Hcase : (exists s g p, (s, g) ∈ groups1 /\ recorders g !! p = Some l) \/
                    (h1 !! l = hp !! l /\ h2 !! l = hp !! l)).
    { destruct (collectServicesIn_heap order1 Ho1 _ _ _ _ _ l H1)
        as [E1|(s & g & p & Hin & Hl)]; [|left; eauto].
      destruct (collectServicesIn_heap order2 Ho2 _ _ _ _ _ l H2)
        as [E2|(s & g & p & Hin & Hl)]; [right; auto|].
      left. exists s, g, p. split; [rewrite Hperm; exact Hin|exact Hl]. }
    destruct Hcase as [(s & g & p & Hin & Hl)|[E1 E2]]; [|congruence].
    destruct (Hreg _ _ _ _ Hin Hl) as (? & ? & ? & ? & F1 & F2 & ?). congruence.
Qed.

Lemma meter_groups_wf am hp :
  meter_wf am hp -> groups_wf (map_to_list (valueRecorderGroups am)) hp.
Proof.
  intros [Hobj Hinj]. split; [apply NoDup_fst_map_to_list|]. split.
  - intros service group peer l Hin Hl. apply elem_of_map_to_list in Hin.
    apply (Hobj service). unfold recorder_of. rewrite Hin. exact Hl.
  - intros s1 g1 p1 s2 g2 p2 l H1 H2 L1 L2.
    apply elem_of_map_to_list in H1. apply elem_of_map_to_list in H2.
    apply (Hinj s1 p1 s2 p2 l); unfold recorder_of; [rewrite H1|rewrite H2]; assumption.
Qed.

Lemma generateOutput_member am hp output hp' service peer (l : loc) :
  meter_wf am hp ->
  generateOutput am hp = Some (output, hp') ->
  recorder_of am service peer = Some l ->
  exists bc values bc' peers,
    hp !! l = Some bc /\ GetAndResetValues bc = Some (values, bc') /\
    hp' !! l = Some bc' /\
    output !! service = Some (ServiceEntry peers) /\ peers !! peer = Some values.
Proof.
  intros Hwf Hgen Hl. unfold recorder_of in Hl.
  apply bind_Some in Hl as (g & Hg & Hl).
  apply (collectServices_member _ _ _ _ _ service g peer l Hgen (meter_groups_wf _ _ Hwf));
    [|exact Hl].
  apply elem_of_map_to_list. exact Hg.
Qed.

(** X9.  One emission reports every registered recorder: for a consistent
    registry, each (service, peer) pair with a recorder appears in the
    emission record under its service and peer label with the values
    [GetAndResetValues] gives for that very recorder; the recorder is left
    in the heap under the same label with all its counters zero, and the
    registry is still consistent. *)
Theorem generateOutput_reports_every_recorder am hp output hp' service peer l :
  meter_wf am hp ->
  generateOutput am hp = Some (output, hp') ->
  recorder_of am service peer = Some l ->
  exists bc values bc' peers,
    hp !! l = Some bc /\ GetAndResetValues bc = Some (values, bc') /\
    hp' !! l = Some bc' /\
    output !! service = Some (ServiceEntry peers) /\ peers !! peer = Some values /\
    peerName bc = peer /\ peerName bc' = peer /\
    lh_bins (hist bc') = replicate (length (lh_bins (hist bc))) 0 /\
    meter_wf am hp'.
Proof.
  intros Hwf Hgen Hl.
  destruct (generateOutput_member _ _ _ _ _ _ _ Hwf Hgen Hl)
    as (bc & values & bc' & peers & Hbc & Hget & Hl' & Ho & Hp).
  exists bc, values, bc', peers.
  repeat (split; [assumption|]).
  destruct Hwf as [Hobj Hinj].
  destruct (Hobj _ _ _ Hl) as (bc0 & Hbc0 & Hn).
  rewrite Hbc in Hbc0. injection Hbc0 as <-.
  destruct (GetAndResetValues_inv _ _ _ Hget) as [-> _].
  split; [exact Hn|]. split; [exact Hn|]. split; [reflexivity|].
  apply (meter_wf_labels _ hp); [|split; assumption].
  exact (collectServices_labels _ _ _ _ _ Hgen).
Qed.

(** X10.  One emission reports nothing else: a peer listed under a service
    of the emission record has a recorder registered for that service, and
    the recorders no group holds are left as they were. *)
Theorem generateOutput_reports_only_registered am hp output hp' :
  meter_wf am hp ->
  generateOutput am hp = Some (output, hp') ->
  (forall service peers peer values,
      output !! service = Some (ServiceEntry peers) ->
      peers !! peer = Some values ->
      exists l, recorder_of am service peer = Some l) /\
  (forall l : loc,
      (forall service peer, recorder_of am service peer <> Some l) ->
      hp' !! l = hp !! l).
Proof.
  intros Hwf Hgen. split.
  - intros service peers peer values Ho Hp.
    destruct (collectServices_only _ _ _ _ _ _ _ _ _ Hgen (meter_groups_wf _ _ Hwf) Ho Hp)
      as [Hmeta|(g & l & Hin & Hl)].
    + destruct (decide (service = "meta")) as [->|Hne].
      * rewrite lookup_singleton_eq in Hmeta. discriminate Hmeta.
      * rewrite lookup_singleton_ne in Hmeta by congruence. discriminate Hmeta.
    + exists l. apply elem_of_map_to_list in Hin. unfold recorder_of. rewrite Hin. exact Hl.
  - intros l Hun. apply (collectServices_frame _ _ _ _ _ l Hgen).
    intros name group Hin Hmem. apply Recorders_elem in Hmem as (p & Hp).
    apply elem_of_map_to_list in Hin.
    apply (Hun name p). unfold recorder_of. rewrite Hin. exact Hp.
Qed.

(** X11.  The emission does not depend on the order in which Go iterates
    its maps: for a consistent registry, visiting the groups in any order
    and the recorders of each group in any order gives the emission record
    and the heap that [generateOutput] gives. *)
Theorem generateOutput_is_order_independent
    am hp groupOrder recorderOrder output hp' output2 hp2 :
  meter_wf am hp ->
  groupOrder ≡ₚ map_to_list (valueRecorderGroups am) ->
  (forall group, recorderOrder group ≡ₚ Recorders group) ->
  collectServicesIn recorderOrder groupOrder {[ "meta" := MetaEntry (interval am) ]} hp
  = Some (output2, hp2) ->
  generateOutput am hp = Some (output, hp') ->
  output2 = output /\ hp2 = hp'.
Proof.
  intros Hwf Hperm Horder H2 Hgen.
  unfold generateOutput in Hgen. rewrite <- collectServicesIn_Recorders in Hgen.
  apply (emission_agree recorderOrder Recorders groupOrder
           (map_to_list (valueRecorderGroups am))
           {[ "meta" := MetaEntry (interval am) ]} hp); try assumption.
  - intros g. reflexivity.
  - apply (groups_wf_perm _ _ _ Hperm). apply meter_groups_wf. exact Hwf.
  - intros s peers. destruct (decide (s = "meta")) as [->|Hne].
    + rewrite lookup_singleton_eq. discriminate.
    + rewrite lookup_singleton_ne by congruence. discriminate.
Qed.

Lemma generateOutput_size am hp output hp' service peer (l : loc) :
  generateOutput am hp = Some (output, hp') ->
  recorder_of am service peer = Some l -> service <> "meta" ->
  size output <> 1%nat.
Proof.
  intros Hgen Hl Hmeta Hsize.
  assert (Hs : is_Some (output !! service)).
  { apply (collectServices_keys _ _ _ _ _ service Hgen). right.
    unfold recorder_of in Hl. apply bind_Some in Hl as (g & Hg & Hl).
    exists g. split; [apply elem_of_map_to_list; exact Hg|].
    intros E. rewrite E, lookup_empty in Hl. discriminate Hl. }
  assert (Hm : is_Some (output !! "meta")).
  { apply (collectServices_keys _ _ _ _ _ "meta" Hgen). left.
    rewrite lookup_singleton_eq. eauto. }
  apply Hmeta.
  apply (size_singleton_inv (dom output : gset string) service "meta").
  - rewrite size_dom. exact Hsize.
  - apply elem_of_dom. exact Hs.
  - apply elem_of_dom. exact Hm.
Qed.

Lemma tick_logs_once st st' service peer (l : loc) :
  running st = true ->
  recorder_of (meter st) service peer = Some l -> service <> "meta" ->
  step st EvTick = Some st' ->
  running st' = true /\
  length (List.filter isInfo (logged st'))
  = S (length (List.filter isInfo (logged st))).
Proof.
  intros Hr Hl Hmeta H. cbn [step] in H. rewrite Hr in H. unfold loggerIteration in H.
  apply bind_Some in H as ([out hp] & Hgen & H).
  pose proof (generateOutput_size _ _ _ _ _ _ _ Hgen Hl Hmeta) as Hsize.
  apply Nat.eqb_neq in Hsize. rewrite Hsize in H.
  destruct (jsonMarshal out) as [bytes|err]; injection H as <-; cbn [running logged];
    (split; [reflexivity|]);
    rewrite List.filter_app, List.length_app; cbn [app List.filter isInfo length]; lia.
Qed.

(** X12.  Once a recorder is registered for a service (not named [meta]),
    the routine never returns by itself: as long as it is not stopped it
    is still running after any sequence of recordings and ticks, and it
    has logged exactly one [logInfof] line per tick. *)
Theorem routine_logs_every_tick_once_registered st evs st' service peer l :
  running st = true ->
  recorder_of (meter st) service peer = Some l -> service <> "meta" ->
  EvStop ∉ evs -> run st evs = Some st' ->
  running st' = true /\
  length (List.filter isInfo (logged st'))
  = (length (List.filter isInfo (logged st)) + length (List.filter isTick evs))%nat.
Proof.
  revert st. induction evs as [|ev evs IH]; intros st Hr Hl Hmeta Hstop H; simpl in H.
  - injection H as <-. split; [exact Hr|]. cbn [List.filter length]. lia.
  - apply bind_Some in H as (st1 & Hstep & H).
    apply not_elem_of_cons in Hstop as [Hev Hstop].
    pose proof (step_keeps _ _ _ _ _ _ Hstep Hl) as Hl1.
    destruct ev as [name tags val| |]; [| |congruence].
    + assert (running st1 = true /\ logged st1 = logged st) as [Hr1 Hlog].
      { cbn [step] in Hstep. apply bind_Some in Hstep as ([[r am] hp] & _ & Hstep).
        apply bind_Some in Hstep as (hp' & _ & [= <-]). cbn [running logged]. auto. }
      destruct (IH st1 Hr1 Hl1 Hmeta Hstop H) as [Hr' Hcount].
      split; [exact Hr'|]. rewrite Hcount, Hlog. cbn [List.filter isTick]. lia.
    + destruct (tick_logs_once _ _ _ _ _ Hr Hl Hmeta Hstep) as (Hr1 & Hlog).
      destruct (IH st1 Hr1 Hl1 Hmeta Hstop H) as [Hr' Hcount].
      split; [exact Hr'|]. rewrite Hcount, Hlog. cbn [List.filter isTick length]. lia.
Qed.

Lemma ValueRecorder_cases name tags am hp r am' hp' :
  ValueRecorder name tags am hp = Some (r, am', hp') ->
  (r = defaultNoopValueRecorder /\ am' = am /\ hp' = hp) \/
  (exists sv p g,
      name = meterNameResponses /\ tags !! meterAttribServiceKey = Some sv /\
      tags !! meterAttribPeerName = Some p /\ valueRecorderGroups am !! sv = Some g /\
      ((exists l, recorders g !! p = Some l /\ r = recorderAt l /\ am' = am /\ hp' = hp) \/
       (exists bc,
           recorders g !! p = None /\ newAggregatingValueRecorder p = Some bc /\
           r = recorderAt (fresh (dom hp)) /\
           am' = {| interval := interval am;
                    valueRecorderGroups :=
                      <[sv := {| recorders := <[p := fresh (dom hp)]> (recorders g) |}]>
                        (valueRecorderGroups am) |} /\
           hp' = <[fresh (dom hp) := bc]> hp))).
Proof.
  unfold ValueRecorder. intros H.
  destruct (String.eqb_spec name meterNameResponses) as [Hn|Hn]; cbn [negb] in H.
  2: { injection H as <- <- <-. left. auto. }
  destruct (tags !! meterAttribServiceKey) as [sv|] eqn:Hs.
  2: { injection H as <- <- <-. left. auto. }
  destruct (valueRecorderGroups am !! sv) as [g|] eqn:Hg.
  2: { injection H as <- <- <-. left. auto. }
  destruct (tags !! meterAttribPeerName) as [p|] eqn:Hp.
  2: { injection H as <- <- <-. left. auto. }
  right. exists sv, p, g. repeat (split; [first [assumption|reflexivity]|]).
  destruct (recorders g !! p) as [l|] eqn:Hl.
  - injection H as <- <- <-. left. exists l. auto.
  - apply bind_Some in H as (bc & Hbc & [= <- <- <-]). right. exists bc. auto.
Qed.

Lemma ValueRecorder_registers name tags am hp r am' hp' service peer (l : loc) :
  ValueRecorder name tags am hp = Some (r, am', hp') ->
  recorder_of am' service peer = Some l ->
  recorder_of am service peer = Some l \/
  (name = meterNameResponses /\ tags !! meterAttribServiceKey = Some service /\
   tags !! meterAttribPeerName = Some peer).
Proof.
  intros H Hl.
  destruct (ValueRecorder_cases _ _ _ _ _ _ _ H)
    as [(_ & -> & _)|(sv & p & g & Hn & Hs & Hp & Hg &
                      [(l0 & _ & _ & -> & _)|(bc & Hnone & _ & _ & -> & _)])];
    [left; exact Hl|left; exact Hl|].
  unfold recorder_of in Hl |- *. cbn [valueRecorderGroups] in Hl.
  destruct (decide (sv = service)) as [->|Hne].
  - rewrite lookup_insert_eq in Hl. cbn in Hl.
    destruct (decide (p = peer)) as [->|Hnp]; [right; auto|].
    rewrite lookup_insert_ne in Hl by assumption. left. rewrite Hg. exact Hl.
  - rewrite lookup_insert_ne in Hl by assumption. left. exact Hl.
Qed.

Lemma recordedFor_Some service peer ev v :
  recordedFor service peer ev = Some v ->
  exists tags,
    ev = EvRecord meterNameResponses tags v /\
    tags !! meterAttribServiceKey = Some service /\
    tags !! meterAttribPeerName = Some peer.
Proof.
  destruct ev as [name tags val| |]; cbn [recordedFor]; try discriminate.
  destruct (decide _) as [(-> & Hs & Hp)|_]; [|discriminate].
  intros [= ->]. exists tags. auto.
Qed.

Lemma recordedFor_None service peer name tags val :
  recordedFor service peer (EvRecord name tags val) = None ->
  ~ (name = meterNameResponses /\ tags !! meterAttribServiceKey = Some service /\
     tags !! meterAttribPeerName = Some peer).
Proof.
  cbn [recordedFor]. destruct (decide _) as [_|Hno]; [discriminate|]. intros _. exact Hno.
Qed.

Lemma RecordValue_sum lh v lh' :
  RecordValue lh v = Some lh' ->
  Forall (Z.le 0) (lh_bins lh) -> sumZ (lh_bins lh) + 1 < 2 ^ 64 ->
  Forall (Z.le 0) (lh_bins lh') /\ sumZ (lh_bins lh') = sumZ (lh_bins lh) + 1 /\
  lh_bins lh' <> [].
Proof.
  intros H Hpos Hsum.
  assert (Hall : recordAll lh [v] = Some lh') by (cbn [recordAll]; rewrite H; reflexivity).
  destruct (recordAll_sum _ _ _ Hall Hpos Hsum) as (P1 & P2 & P3).
  split; [exact P1|]. split; [exact P2|].
  apply RecordValue_inv in H as (b & c & _ & Hlook & _).
  apply lookup_lt_Some in Hlook. intros E. rewrite E in P3. cbn [length] in P3. lia.
Qed.

Lemma new_recorder_zero peer bc :
  newAggregatingValueRecorder peer = Some bc ->
  peerName bc = peer /\ Forall (Z.le 0) (lh_bins (hist bc)) /\ sumZ (lh_bins (hist bc)) = 0.
Proof.
  unfold newAggregatingValueRecorder. intros H.
  apply bind_Some in H as (h & Hh & [= <-]). cbn [peerName hist].
  assert (Hz : Forall (eq 0) (lh_bins h)).
  { apply freshly_reset_zero. left. eauto. }
  split; [reflexivity|]. split; [|exact (sumZ_zero _ Hz)].
  eapply Forall_impl; [exact Hz|]. intros x <-. lia.
Qed.

Lemma step_counted_hit st ev st' service peer n v :
  is_Some (valueRecorderGroups (meter st) !! service) ->
  counted (meter st) (objects st) service peer n ->
  0 <= n -> n + 1 < 2 ^ 64 ->
  recordedFor service peer ev = Some v ->
  step st ev = Some st' ->
  counted (meter st') (objects st') service peer (n + 1).
Proof.
  intros [g Hg] Hc Hn0 Hn Hev Hstep.
  apply recordedFor_Some in Hev as (tags & -> & Hs & Hp).
  cbn [step] in Hstep. apply bind_Some in Hstep as ([[r am] hp] & HV & Hstep).
  apply bind_Some in Hstep as (hp' & Hh & [= <-]). cbn [meter objects].
  destruct Hc as [[Hnone ->]|(l & bc & Hl & Hbc & Hpos & Hsum & Hne)].
  - rewrite (ValueRecorder_tagged _ _ _ _ _ _ _ eq_refl Hs Hp Hg) in HV.
    unfold recorder_of in Hnone. rewrite Hg in Hnone. cbn in Hnone.
    rewrite Hnone in HV.
    apply bind_Some in HV as (bc0 & Hnew & [= <- <- <-]).
    cbn [handleRecordValue] in Hh.
    apply bind_Some in Hh as (bc1 & Hbc1 & Hh).
    apply bind_Some in Hh as (bc' & Hrec & [= <-]).
    rewrite lookup_insert_eq in Hbc1. injection Hbc1 as <-.
    destruct (new_recorder_zero _ _ Hnew) as (_ & Hpos & Hsum).
    destruct (recorderRecordValue_inv _ _ _ Hrec) as [_ HRV].
    destruct (RecordValue_sum _ _ _ HRV Hpos ltac:(lia)) as (Q1 & Q2 & Q3).
    right. exists (fresh (dom (objects st))), bc'.
    split; [|split; [apply lookup_insert_eq|]].
    + unfold recorder_of. cbn [valueRecorderGroups].
      rewrite lookup_insert_eq. cbn. apply lookup_insert_eq.
    + split; [exact Q1|]. split; [lia|]. intros _. exact Q3.
  - rewrite (ValueRecorder_registered _ _ _ _ _ _ _ eq_refl Hs Hp Hl) in HV.
    injection HV as <- <- <-.
    cbn [handleRecordValue] in Hh.
    apply bind_Some in Hh as (bc1 & Hbc1 & Hh).
    apply bind_Some in Hh as (bc' & Hrec & [= <-]).
    rewrite Hbc in Hbc1. injection Hbc1 as <-.
    destruct (recorderRecordValue_inv _ _ _ Hrec) as [_ HRV].
    destruct (RecordValue_sum _ _ _ HRV Hpos ltac:(lia)) as (Q1 & Q2 & Q3).
    right. exists l, bc'. split; [exact Hl|]. split; [apply lookup_insert_eq|].
    split; [exact Q1|]. split; [lia|]. intros _. exact Q3.
Qed.

Lemma step_miss_heap st ev st' service peer (l : loc) :
  meter_wf (meter st) (objects st) ->
  recorder_of (meter st) service peer = Some l ->
  recordedFor service peer ev = None -> ev <> EvTick ->
  step st ev = Some st' ->
  objects st' !! l = objects st !! l.
Proof.
  intros [Hobj Hinj] Hl Hev Htick Hstep.
  destruct ev as [name tags val| |]; [| congruence |injection Hstep as <-; reflexivity].
  apply recordedFor_None in Hev.
  cbn [step] in Hstep. apply bind_Some in Hstep as ([[r am] hp] & HV & Hstep).
  apply bind_Some in Hstep as (hp' & Hh & [= <-]). cbn [objects].
  destruct (Hobj _ _ _ Hl) as (bc & Hbc & _).
  destruct (ValueRecorder_cases _ _ _ _ _ _ _ HV)
    as [(-> & _ & ->)|(sv & p & g & Hn & Hs & Hp & Hg &
                       [(l0 & Hl0 & -> & _ & ->)|(bc0 & Hnone & _ & -> & _ & ->)])].
  - cbn [handleRecordValue] in Hh. injection Hh as <-. reflexivity.
  - cbn [handleRecordValue] in Hh.
    apply bind_Some in Hh as (bc1 & Hbc1 & Hh).
    apply bind_Some in Hh as (bc' & _ & [= <-]).
    apply lookup_insert_ne. intros ->.
    assert (Hreg : recorder_of (meter st) sv p = Some l).
    { unfold recorder_of. rewrite Hg. exact Hl0. }
    destruct (Hinj _ _ _ _ _ Hreg Hl) as [-> ->]. apply Hev. auto.
  - cbn [handleRecordValue] in Hh.
    apply bind_Some in Hh as (bc1 & Hbc1 & Hh).
    apply bind_Some in Hh as (bc' & _ & [= <-]).
    assert (Hfresh : fresh (dom (objects st)) <> l).
    { intros E. pose proof (is_fresh (dom (objects st))) as Hf.
      rewrite E in Hf. apply Hf. apply elem_of_dom. eauto. }
    rewrite !lookup_insert_ne by exact Hfresh. reflexivity.
Qed.

Lemma step_counted_miss st ev st' service peer n :
  meter_wf (meter st) (objects st) ->
  counted (meter st) (objects st) service peer n ->
  recordedFor service peer ev = None -> ev <> EvTick ->
  step st ev = Some st' ->
  counted (meter st') (objects st') service peer n.
Proof.
  intros Hwf Hc Hev Htick Hstep.
  destruct Hc as [[Hnone ->]|(l & bc & Hl & Hbc & Hrest)].
  - left. split; [|reflexivity].
    destruct (recorder_of (meter st') service peer) as [l|] eqn:Hl; [|reflexivity].
    exfalso. destruct ev as [name tags val| |]; [|congruence|].
    + apply recordedFor_None in Hev.
      cbn [step] in Hstep. apply bind_Some in Hstep as ([[r am] hp] & HV & Hstep).
      apply bind_Some in Hstep as (hp' & Hh & [= <-]). cbn [meter] in Hl.
      destruct (ValueRecorder_registers _ _ _ _ _ _ _ _ _ _ HV Hl) as [Hold|Hnew];
        [congruence|exact (Hev Hnew)].
    + injection Hstep as <-. cbn [meter] in Hl. congruence.
  - right. exists l, bc. split; [exact (step_keeps _ _ _ _ _ _ Hstep Hl)|].
    split; [|exact Hrest].
    rewrite (step_miss_heap _ _ _ _ _ _ Hwf Hl Hev Htick Hstep). exact Hbc.
Qed.

Lemma step_group st ev st' service :
  step st ev = Some st' ->
  is_Some (valueRecorderGroups (meter st) !! service) ->
  is_Some (valueRecorderGroups (meter st') !! service).
Proof.
  intros Hstep H. destruct (step_shape _ _ _ Hstep) as [_ E].
  apply elem_of_dom. rewrite E. apply elem_of_dom. exact H.
Qed.

Lemma run_counted st evs st' service peer n :
  meter_wf (meter st) (objects st) ->
  is_Some (valueRecorderGroups (meter st) !! service) ->
  counted (meter st) (objects st) service peer n ->
  0 <= n ->
  n + Z.of_nat (length (omap (recordedFor service peer) evs)) < 2 ^ 64 ->
  EvTick ∉ evs ->
  run st evs = Some st' ->
  counted (meter st') (objects st') service peer
          (n + Z.of_nat (length (omap (recordedFor service peer) evs))).
Proof.
  revert st n. induction evs as [|ev evs IH]; intros st n Hwf Hg Hc Hn0 Hn Htick H;
    simpl in H.
  - injection H as <-. cbn [omap list_omap length]. rewrite Z.add_0_r. exact Hc.
  - apply bind_Some in H as (st1 & Hstep & H).
    apply not_elem_of_cons in Htick as [Hev Htick].
    pose proof (step_wf _ _ _ Hstep Hwf) as Hwf1.
    pose proof (step_group _ _ _ service Hstep Hg) as Hg1.
    cbn [omap list_omap] in Hn |- *.
    destruct (recordedFor service peer ev) as [v|] eqn:Hrec.
    + change (length (v :: omap (recordedFor service peer) evs))
        with (S (length (omap (recordedFor service peer) evs))) in Hn |- *.
      replace (n + Z.of_nat (S (length (omap (recordedFor service peer) evs))))
        with (n + 1 + Z.of_nat (length (omap (recordedFor service peer) evs))) in Hn |- * by lia.
      apply (IH st1); try assumption; try lia.
      apply (step_counted_hit st ev st1 service peer n v); try assumption. lia.
    + apply (IH st1); try assumption.
      apply (step_counted_miss st ev st1 service peer n); try assumption. congruence.
Qed.

Lemma start_counted opts service peer :
  counted (meter (start opts)) (objects (start opts)) service peer 0.
Proof.
  left. split; [|reflexivity]. cbn [start meter].
  destruct (recorder_of (NewAggregatingMeter opts) service peer) as [l|] eqn:Hl;
    [|reflexivity].
  destruct (start_wf opts) as [Hobj _].
  destruct (Hobj _ _ _ Hl) as (bc & Hbc & _). rewrite lookup_empty in Hbc. discriminate Hbc.
Qed.

Lemma emission_counts st service peer n output hp :
  meter_wf (meter st) (objects st) ->
  counted (meter st) (objects st) service peer n ->
  0 < n < 2 ^ 64 ->
  generateOutput (meter st) (objects st) = Some (output, hp) ->
  (exists peers values,
      output !! service = Some (ServiceEntry peers) /\ peers !! peer = Some values /\
      total_count values = n) /\
  counted (meter st) hp service peer 0.
Proof.
  intros Hwf Hc Hn Hgen.
  destruct Hc as [[_ ->]|(l & bc & Hl & Hbc & Hpos & Hsum & Hne)]; [lia|].
  destruct (generateOutput_member _ _ _ _ _ _ _ Hwf Hgen Hl)
    as (bc1 & values & bc' & peers & Hbc1 & Hget & Hl' & Ho & Hp).
  rewrite Hbc in Hbc1. injection Hbc1 as <-.
  destruct (GetAndResetValues_inv _ _ _ Hget) as [-> Htotal].
  rewrite (TotalCount_sum (hist bc) (Hne ltac:(lia)) Hpos ltac:(lia)) in Htotal.
  injection Htotal as Htotal. split.
  - exists peers, values. split; [exact Ho|]. split; [exact Hp|]. lia.
  - right. eexists l, _. split; [exact Hl|]. split; [exact Hl'|].
    cbn [hist AggregateAndReset snd lh_bins with_bins].
    split; [apply Forall_replicate; lia|]. split; [apply sumZ_replicate|]. lia.
Qed.

(** X13.  What an emission reports for a peer is what was recorded for it:
    when [n] values ([0 < n < 2^64]) were recorded for a (service, peer)
    pair of a known service since the meter started or the recorder was
    last reset, interleaved in any way with recordings for other peers,
    other metrics and stops, the emission record lists the peer under the
    service with [total_count = n], and the recorder is back to zero. *)
Theorem emission_counts_recordings_per_peer :
  (forall opts evs st service peer output hp,
      is_Some (valueRecorderGroups (NewAggregatingMeter opts) !! service) ->
      EvTick ∉ evs ->
      run (start opts) evs = Some st ->
      0 < Z.of_nat (length (omap (recordedFor service peer) evs)) < 2 ^ 64 ->
      generateOutput (meter st) (objects st) = Some (output, hp) ->
      exists peers values,
        output !! service = Some (ServiceEntry peers) /\ peers !! peer = Some values /\
        total_count values = Z.of_nat (length (omap (recordedFor service peer) evs))) /\
  (forall st evs st' service peer output hp,
      meter_wf (meter st) (objects st) ->
      is_Some (valueRecorderGroups (meter st) !! service) ->
      counted (meter st) (objects st) service peer 0 ->
      EvTick ∉ evs ->
      run st evs = Some st' ->
      0 < Z.of_nat (length (omap (recordedFor service peer) evs)) < 2 ^ 64 ->
      generateOutput (meter st') (objects st') = Some (output, hp) ->
      (exists peers values,
          output !! service = Some (ServiceEntry peers) /\ peers !! peer = Some values /\
          total_count values = Z.of_nat (length (omap (recordedFor service peer) evs))) /\
      counted (meter st') hp service peer 0).
Proof.
  assert (Hgeneral : forall st evs st' service peer output hp,
      meter_wf (meter st) (objects st) ->
      is_Some (valueRecorderGroups (meter st) !! service) ->
      counted (meter st) (objects st) service peer 0 ->
      EvTick ∉ evs ->
      run st evs = Some st' ->
      0 < Z.of_nat (length (omap (recordedFor service peer) evs)) < 2 ^ 64 ->
      generateOutput (meter st') (objects st') = Some (output, hp) ->
      (exists peers values,
          output !! service = Some (ServiceEntry peers) /\ peers !! peer = Some values /\
          total_count values = Z.of_nat (length (omap (recordedFor service peer) evs))) /\
      counted (meter st') hp service peer 0).
  { intros st evs st' service peer output hp Hwf Hg Hc Htick Hrun Hn Hgen.
    assert (Hc' : counted (meter st') (objects st') service peer
                    (0 + Z.of_nat (length (omap (recordedFor service peer) evs)))).
    { apply (run_counted st evs st' service peer 0); try assumption; lia. }
    rewrite Z.add_0_l in Hc'.
    exact (emission_counts _ _ _ _ _ _ (run_wf _ _ _ Hrun Hwf) Hc' Hn Hgen). }
  split; [|exact Hgeneral].
  intros opts evs st service peer output hp Hg Htick Hrun Hn Hgen.
  apply (Hgeneral (start opts) evs st service peer output hp); try assumption.
  - apply start_wf.
  - apply start_counted.
Qed.

Lemma RecordValue_succeeds maxValue startValue commonRatio lh0 lh value :
  sane_log -> shape_ok maxValue startValue commonRatio ->
  newLatencyHistogram maxValue startValue commonRatio = Some lh0 ->
  evolves lh0 lh -> Z.of_nat (length (lh_bins lh)) < 2 ^ 53 -> 0 <= value < 2 ^ 64 ->
  exists lh', RecordValue lh value = Some lh'.
Proof.
  intros Hlog Hshape Hnew Hev Hlen Hv.
  destruct (binIndex_bounds Hlog _ _ _ Hshape _ _ Hnew Hev Hlen value Hv)
    as (bin & Hbin & Hrange & _).
  destruct (lookup_lt_is_Some_2 (lh_bins lh) (Z.to_nat bin) ltac:(lia)) as [c Hc].
  unfold RecordValue. rewrite Hbin.
  destruct (Z.leb_spec 0 bin); [|lia].
  destruct (Z.ltb_spec bin (Z.of_nat (length (lh_bins lh)))); [|lia]. simpl.
  rewrite Hc. eexists. reflexivity.
Qed.

Lemma heap_ok_mono h0 N N' hp : N <= N' -> heap_ok h0 N hp -> heap_ok h0 N' hp.
Proof.
  intros HN H l bc Hl. destruct (H l bc Hl) as (H1 & H2 & H3).
  split; [exact H1|]. split; [exact H2|lia].
Qed.

Lemma heap_ok_insert h0 N hp (l : loc) bc :
  heap_ok h0 N hp -> recorder_ok h0 N bc -> heap_ok h0 N (<[l := bc]> hp).
Proof.
  intros H Hbc l' bc' Hl'. destruct (decide (l = l')) as [<-|Hne].
  - rewrite lookup_insert_eq in Hl'. injection Hl' as <-. exact Hbc.
  - rewrite lookup_insert_ne in Hl' by assumption. exact (H l' bc' Hl').
Qed.

Section NoPanic.
Hypothesis Hlog : sane_log.
Variable h0 : latencyHistogram.
Hypothesis Hnew :
  newLatencyHistogram (F64.lit 2000000 1) (F64.lit 1000 1) (F64.lit 3 2) = Some h0.
Hypothesis Hlen : Z.of_nat (length (lh_bins h0)) < 2 ^ 53.

Lemma new_recorder_ok peer N :
  0 <= N ->
  exists bc, newAggregatingValueRecorder peer = Some bc /\ recorder_ok h0 N bc.
Proof using Hnew.
  intros HN. unfold newAggregatingValueRecorder. rewrite Hnew.
  eexists. split; [reflexivity|]. unfold recorder_ok. cbn [hist].
  assert (Hz : Forall (eq 0) (lh_bins h0)).
  { apply freshly_reset_zero. left. eauto. }
  split; [apply evolves_new|]. split.
  - eapply Forall_impl; [exact Hz|]. intros x <-. lia.
  - rewrite (sumZ_zero _ Hz). exact HN.
Qed.

Lemma recorderRecordValue_ok N bc val :
  recorder_ok h0 N bc -> 0 <= N -> N + 1 <= 2 ^ 53 -> 0 <= val < 2 ^ 64 ->
  exists bc', recorderRecordValue bc val = Some bc' /\ recorder_ok h0 (N + 1) bc'.
Proof using Hlog Hnew Hlen.
  intros (Hev & Hpos & Hsum) HN0 HN Hval.
  assert (H64 : 2 ^ 53 < 2 ^ 64) by reflexivity.
  assert (Hl : Z.of_nat (length (lh_bins (hist bc))) < 2 ^ 53).
  { rewrite (evolves_length _ _ Hev). exact Hlen. }
  destruct (RecordValue_succeeds _ _ _ h0 (hist bc) val Hlog recorder_shape_ok Hnew Hev Hl Hval)
    as (lh' & HRV).
  unfold recorderRecordValue. rewrite HRV. eexists. split; [reflexivity|]. unfold recorder_ok. cbn [hist].
  destruct (RecordValue_sum _ _ _ HRV Hpos ltac:(lia)) as (Q1 & Q2 & _).
  split; [exact (evolves_record _ _ _ _ Hev HRV)|]. split; [exact Q1|lia].
Qed.

Lemma GetAndResetValues_ok N bc :
  recorder_ok h0 N bc -> N <= 2 ^ 53 ->
  exists values bc', GetAndResetValues bc = Some (values, bc') /\ recorder_ok h0 N bc'.
Proof using Hlog Hnew.
  intros (Hev & Hpos & Hsum) HN.
  destruct (construct_inv Hlog _ _ _ recorder_shape_ok _ Hnew)
    as (_ & _ & _ & _ & _ & _ & _ & _ & _ & _ & Hlen2 & _).
  assert (Hne : lh_bins (hist bc) <> []).
  { intros E. pose proof (evolves_length _ _ Hev) as El. rewrite E in El.
    cbn [length] in El. lia. }
  destruct (GetAndResetValues_spec bc Hne Hpos ltac:(lia))
    as (i50 & i90 & i99 & i999 & i100 & Hget & _).
  eexists _, _. split; [exact Hget|]. unfold recorder_ok. cbn [hist].
  pose proof (sumZ_nonneg _ Hpos) as Hs0.
  split; [exact (evolves_reset _ _ Hev)|]. cbn [with_bins lh_bins]. split.
  - apply Forall_replicate. lia.
  - rewrite sumZ_replicate. lia.
Qed.

Lemma collectValues_ok N rs m hp :
  (forall l, l ∈ rs -> is_Some (hp !! l)) ->
  heap_ok h0 N hp -> N <= 2 ^ 53 ->
  exists m' hp',
    collectValues rs m hp = Some (m', hp') /\ heap_ok h0 N hp' /\
    (forall l : loc, is_Some (hp !! l) -> is_Some (hp' !! l)).
Proof using Hlog Hnew.
  revert m hp. induction rs as [|l0 rs IH]; intros m hp Hin Hok HN.
  - exists m, hp. split; [reflexivity|]. split; [exact Hok|auto].
  - destruct (Hin l0) as [bc Hbc]; [apply elem_of_cons; auto|].
    destruct (GetAndResetValues_ok N bc (Hok _ _ Hbc) HN) as (values & bc' & Hget & Hok').
    destruct (IH (<[peerName bc := values]> m) (<[l0 := bc']> hp))
      as (m' & hp' & Hcv & Hok'' & Hdom).
    + intros l Hl. destruct (decide (l0 = l)) as [<-|Hne].
      * rewrite lookup_insert_eq. eauto.
      * rewrite lookup_insert_ne by assumption. apply Hin. apply elem_of_cons. auto.
    + apply heap_ok_insert; assumption.
    + exact HN.
    + exists m', hp'. split; [|split; [exact Hok''|]].
      * cbn [collectValues]. rewrite Hbc. cbn [mbind option_bind]. rewrite Hget.
        cbn [mbind option_bind]. exact Hcv.
      * intros l Hl. apply Hdom. destruct (decide (l0 = l)) as [<-|Hne].
        -- rewrite lookup_insert_eq. eauto.
        -- rewrite lookup_insert_ne by assumption. exact Hl.
Qed.

Lemma collectServices_ok N groups out hp :
  (forall name g l, (name, g) ∈ groups -> l ∈ Recorders g -> is_Some (hp !! l)) ->
  heap_ok h0 N hp -> N <= 2 ^ 53 ->
  exists out' hp', collectServices groups out hp = Some (out', hp') /\ heap_ok h0 N hp'.
Proof using Hlog Hnew.
  revert out hp. induction groups as [|[name g] groups IH]; intros out hp Hin Hok HN.
  - exists out, hp. split; [reflexivity|exact Hok].
  - assert (Htail : forall hp1 : gmap loc aggregatingValueRecorder,
              (forall l : loc, is_Some (hp !! l) -> is_Some (hp1 !! l)) ->
              forall n gr l, (n, gr) ∈ groups -> l ∈ Recorders gr -> is_Some (hp1 !! l)).
    { intros hp1 Hdom n gr l Hmem Hl. apply Hdom. apply (Hin n gr); [|exact Hl].
      apply elem_of_cons. auto. }
    cbn [collectServices].
    destruct (length (Recorders g) =? 0)%nat.
    + apply IH; [apply Htail; auto|exact Hok|exact HN].
    + destruct (collectValues_ok N (Recorders g) ∅ hp) as (sm & hp1 & Hcv & Hok1 & Hdom);
        [|exact Hok|exact HN|].
      { intros l Hl. apply (Hin name g); [apply elem_of_cons; auto|exact Hl]. }
      rewrite Hcv. cbn [mbind option_bind].
      apply IH; [apply Htail; exact Hdom|exact Hok1|exact HN].
Qed.

Lemma generateOutput_ok N am hp :
  meter_wf am hp -> heap_ok h0 N hp -> N <= 2 ^ 53 ->
  exists out hp', generateOutput am hp = Some (out, hp') /\ heap_ok h0 N hp'.
Proof using Hlog Hnew.
  intros [Hobj _] Hok HN. unfold generateOutput.
  apply collectServices_ok; [|exact Hok|exact HN].
  intros name g l Hin Hl. apply elem_of_map_to_list in Hin.
  apply Recorders_elem in Hl as (p & Hp).
  destruct (Hobj name p l) as (bc & Hbc & _); [|eauto].
  unfold recorder_of. rewrite Hin. exact Hp.
Qed.

Lemma ValueRecorder_succeeds name tags am hp :
  exists r am' hp', ValueRecorder name tags am hp = Some (r, am', hp').
Proof using Hnew.
  unfold ValueRecorder.
  destruct (negb _); [eauto|].
  destruct (tags !! meterAttribServiceKey) as [sv|]; [|eauto].
  destruct (valueRecorderGroups am !! sv) as [g|]; [|eauto].
  destruct (tags !! meterAttribPeerName) as [p|]; [|eauto].
  destruct (recorders g !! p) as [l|]; [eauto|].
  destruct (new_recorder_ok p 0 ltac:(lia)) as (bc & Hbc & _).
  rewrite Hbc. cbn [mbind option_bind]. eauto.
Qed.

Lemma step_ok N st ev :
  meter_wf (meter st) (objects st) -> heap_ok h0 N (objects st) ->
  0 <= N -> N + 1 <= 2 ^ 53 -> in_range ev ->
  exists st',
    step st ev = Some st' /\
    heap_ok h0 (N + (if isRecord ev then 1 else 0)) (objects st').
Proof using Hlog Hnew Hlen.
  intros Hwf Hok HN0 HN Hev.
  destruct ev as [name tags val| |]; cbn [step isRecord in_range] in *.
  - destruct (ValueRecorder_succeeds name tags (meter st) (objects st))
      as (r & am & hp & HV).
    rewrite HV. cbn [mbind option_bind].
    assert (Hhandle : exists hp', handleRecordValue r val hp = Some hp' /\
                                  heap_ok h0 (N + 1) hp').
    { destruct (ValueRecorder_cases _ _ _ _ _ _ _ HV)
        as [(-> & _ & ->)|(sv & p & g & Hn & Hs & Hp & Hg &
                           [(l0 & Hl0 & -> & _ & ->)|(bc0 & Hnone & Hbc0 & -> & _ & ->)])].
      - exists (objects st). split; [reflexivity|].
        apply (heap_ok_mono _ N); [lia|exact Hok].
      - destruct Hwf as [Hobj _].
        destruct (Hobj sv p l0) as (bc & Hbc & _).
        { unfold recorder_of. rewrite Hg. exact Hl0. }
        destruct (recorderRecordValue_ok N bc val (Hok _ _ Hbc) HN0 HN Hev)
          as (bc' & Hrec & Hok').
        cbn [handleRecordValue]. rewrite Hbc. cbn [mbind option_bind].
        rewrite Hrec. cbn [mbind option_bind]. eexists. split; [reflexivity|].
        apply heap_ok_insert; [|exact Hok'].
        apply (heap_ok_mono _ N); [lia|exact Hok].
      - destruct (new_recorder_ok p N HN0) as (bc & Hbc & Hbcok).
        rewrite Hbc in Hbc0. injection Hbc0 as <-.
        destruct (recorderRecordValue_ok N bc val Hbcok HN0 HN Hev)
          as (bc' & Hrec & Hok').
        cbn [handleRecordValue]. rewrite lookup_insert_eq. cbn [mbind option_bind].
        rewrite Hrec. cbn [mbind option_bind]. eexists. split; [reflexivity|].
        apply heap_ok_insert; [|exact Hok'].
        apply (heap_ok_mono _ N); [lia|].
        apply heap_ok_insert; assumption. }
    destruct Hhandle as (hp' & Hh & Hok'). rewrite Hh. cbn [mbind option_bind].
    eexists. split; [reflexivity|exact Hok'].
  - rewrite Z.add_0_r. destruct (running st).
    + destruct (generateOutput_ok N _ _ Hwf Hok ltac:(lia)) as (out & hp & Hgen & Hok').
      unfold loggerIteration. rewrite Hgen. cbn [mbind option_bind].
      destruct (size out =? 1)%nat; [eexists; split; [reflexivity|exact Hok']|].
      destruct (jsonMarshal out); eexists; (split; [reflexivity|exact Hok']).
    + exists st. split; [reflexivity|exact Hok].
  - rewrite Z.add_0_r. eexists. split; [reflexivity|exact Hok].
Qed.

Lemma run_ok N st evs :
  meter_wf (meter st) (objects st) -> heap_ok h0 N (objects st) ->
  0 <= N -> N + Z.of_nat (length (List.filter isRecord evs)) <= 2 ^ 53 ->
  Forall in_range evs ->
  exists st', run st evs = Some st'.
Proof using Hlog Hnew Hlen.
  revert N st. induction evs as [|ev evs IH]; intros N st Hwf Hok HN0 HN Hevs.
  - exists st. reflexivity.
  - apply Forall_cons in Hevs as [Hev Hevs].
    destruct (decide (N + 1 <= 2 ^ 53)) as [Hroom|Hfull].
    + destruct (step_ok N st ev Hwf Hok HN0 Hroom Hev) as (st1 & Hstep & Hok1).
      destruct (IH (N + (if isRecord ev then 1 else 0)) st1) as (st' & Hrun);
        [exact (step_wf _ _ _ Hstep Hwf)|exact Hok1|destruct (isRecord ev); lia| |exact Hevs|].
      * cbn [List.filter] in HN. destruct (isRecord ev); cbn [length] in HN; lia.
      * exists st'. cbn [run]. rewrite Hstep. exact Hrun.
    + assert (HN53 : N = 2 ^ 53).
      { pose proof (Zle_0_nat (length (List.filter isRecord (ev :: evs)))). lia. }
      assert (Hrec : isRecord ev = false).
      { cbn [List.filter] in HN. destruct (isRecord ev); [cbn [length] in HN; lia|reflexivity]. }
      assert (Hstep : exists st1, step st ev = Some st1 /\ heap_ok h0 N (objects st1)).
      { destruct ev as [name tags val| |]; [discriminate Hrec| |].
        - cbn [step]. destruct (running st).
          + destruct (generateOutput_ok N _ _ Hwf Hok ltac:(lia)) as (out & hp & Hgen & Hok').
            unfold loggerIteration. rewrite Hgen. cbn [mbind option_bind].
            destruct (size out =? 1)%nat; [eexists; split; [reflexivity|exact Hok']|].
            destruct (jsonMarshal out); eexists; (split; [reflexivity|exact Hok']).
          + exists st. split; [reflexivity|exact Hok].
        - eexists. split; [reflexivity|exact Hok]. }
      destruct Hstep as (st1 & Hstep & Hok1).
      destruct (IH N st1) as (st' & Hrun);
        [exact (step_wf _ _ _ Hstep Hwf)|exact Hok1|exact HN0| |exact Hevs|].
      * cbn [List.filter] in HN. rewrite Hrec in HN. exact HN.
      * exists st'. cbn [run]. rewrite Hstep. exact Hrun.
Qed.

End NoPanic.

(** X14.  The meter does not panic: with a logarithm that is monotone and
    positive above one, and a recorder histogram that was constructed with
    fewer than [2^53] bins, every sequence of recordings of [uint64]
    values, ticks and stops runs to the end from a fresh meter, as long as
    no more than [2^53] values are recorded: no index is out of range in
    [RecordValue] or [TotalCount] and no conversion is out of range in
    [BinAtPercentile]. *)
Theorem meter_never_panics opts evs h0 :
  sane_log ->
  newLatencyHistogram (F64.lit 2000000 1) (F64.lit 1000 1) (F64.lit 3 2) = Some h0 ->
  Z.of_nat (length (lh_bins h0)) < 2 ^ 53 ->
  Forall in_range evs ->
  Z.of_nat (length (List.filter isRecord evs)) <= 2 ^ 53 ->
  exists st, run (start opts) evs = Some st.
Proof.
  intros Hlog Hnew Hlen Hevs Hcount.
  apply (run_ok Hlog h0 Hnew Hlen 0); try assumption; try lia.
  - apply start_wf.
  - intros l bc Hl. cbn [start objects] in Hl. rewrite lookup_empty in Hl. discriminate Hl.
Qed.

End Meter.

(** ** The stand-in logarithm meets the assumptions *)

Section ApproxLog.
Import F64.
Local Open Scope Z_scope.
Local Opaque one_key overflow_key Z.pow.

Lemma log2_scaled_parts k :
  0 < k ->
  let j := Z.max (Z.log2 k - 52) 0 in
  let m := (k + 2 ^ j - 1) / 2 ^ j in
  0 <= j /\ 1 <= m <= 2 ^ 53 /\ k <= m * 2 ^ j /\ (0 < j -> 2 ^ 52 <= m).
Proof.
  intros Hk j m. pose proof (Z.log2_spec k Hk) as [L1 L2].
  pose proof (Z.log2_nonneg k) as L0.
  assert (Hj : 0 <= j) by (subst j; lia).
  assert (Pj : 0 < 2 ^ j) by (apply pow2_gt0; assumption).
  assert (Hup : k < 2 ^ 53 * 2 ^ j).
  { rewrite <- Z.pow_add_r by lia.
    assert (2 ^ Z.succ (Z.log2 k) <= 2 ^ (53 + j)) by (apply Z.pow_le_mono_r; subst j; lia).
    lia. }
  assert (Hm : k <= m * 2 ^ j).
  { subst m. pose proof (Z.div_mod (k + 2 ^ j - 1) (2 ^ j) ltac:(lia)).
    pose proof (Z.mod_pos_bound (k + 2 ^ j - 1) (2 ^ j) Pj). lia. }
  split; [exact Hj|]. split; [split|split].
  - subst m. apply Z.div_le_lower_bound; lia.
  - apply Z.lt_succ_r. subst m. apply Z.div_lt_upper_bound; lia.
  - exact Hm.
  - intros Hj0. assert (Ej : j = Z.log2 k - 52) by (subst j; lia).
    assert (2 ^ 52 * 2 ^ j <= k).
    { rewrite <- Z.pow_add_r by lia. replace (52 + j) with (Z.log2 k) by lia. exact L1. }
    apply Z.lt_succ_r. apply (Z.mul_lt_mono_pos_r (2 ^ j)); [exact Pj|]. lia.
Qed.

Lemma log2_up_pow64_bounds m a :
  0 <= a -> 2 ^ a <= m -> 64 * a <= Z.log2_up (m ^ 64).
Proof.
  intros Ha Hm.
  replace (64 * a) with (Z.log2_up (2 ^ (64 * a))) by (apply Z.log2_up_pow2; lia).
  apply Z.log2_up_le_mono.
  replace (64 * a) with (a * 64) by lia. rewrite Z.pow_mul_r by lia.
  apply Z.pow_le_mono_l. split; [apply Z.pow_nonneg; lia|exact Hm].
Qed.

Lemma log2_up_pow64_upper m a :
  0 <= a -> 0 < m -> m <= 2 ^ a -> Z.log2_up (m ^ 64) <= 64 * a.
Proof.
  intros Ha Hm0 Hm.
  replace (64 * a) with (Z.log2_up (2 ^ (64 * a))) by (apply Z.log2_up_pow2; lia).
  apply Z.log2_up_le_mono.
  replace (64 * a) with (a * 64) by lia. rewrite Z.pow_mul_r by lia.
  apply Z.pow_le_mono_l. lia.
Qed.

Lemma log2_scaled_mono k1 k2 :
  0 < k1 -> k1 <= k2 -> log2_scaled k1 <= log2_scaled k2.
Proof.
  intros H1 H12. unfold log2_scaled.
  destruct (log2_scaled_parts k1 H1) as (J1 & M1 & U1 & _).
  destruct (log2_scaled_parts k2 ltac:(lia)) as (J2 & M2 & U2 & B2).
  pose proof (Z.log2_le_mono k1 k2 H12) as Hl.
  set (j1 := Z.max (Z.log2 k1 - 52) 0) in *.
  set (j2 := Z.max (Z.log2 k2 - 52) 0) in *.
  set (m1 := (k1 + 2 ^ j1 - 1) / 2 ^ j1) in *.
  set (m2 := (k2 + 2 ^ j2 - 1) / 2 ^ j2) in *.
  assert (Hj : j1 <= j2) by (subst j1 j2; lia).
  destruct (Z.eq_dec j1 j2) as [E|NE].
  - assert (m1 <= m2).
    { subst m1 m2. rewrite E. apply Z.div_le_mono; [apply pow2_gt0|]; lia. }
    assert (Z.log2_up (m1 ^ 64) <= Z.log2_up (m2 ^ 64)).
    { apply Z.log2_up_le_mono. apply Z.pow_le_mono_l. lia. }
    lia.
  - pose proof (log2_up_pow64_upper m1 53 ltac:(lia) ltac:(lia) ltac:(lia)).
    pose proof (log2_up_pow64_bounds m2 52 ltac:(lia) (B2 ltac:(lia))).
    lia.
Qed.

Lemma log2_scaled_one : log2_scaled one_key = 0.
Proof. vm_compute. reflexivity. Qed.

Lemma log2_scaled_pos k : one_key < k -> 0 < log2_scaled k.
Proof.
  intros Hk. pose proof one_key_pos as Hone.
  destruct (log2_scaled_parts k ltac:(lia)) as (J & M & U & B).
  unfold log2_scaled.
  set (j := Z.max (Z.log2 k - 52) 0) in *.
  set (m := (k + 2 ^ j - 1) / 2 ^ j) in *.
  destruct (Z_le_gt_dec j 1074) as [Hj|Hj].
  - assert (Hlt : 2 ^ (1074 - j) < m).
    { apply (Z.mul_lt_mono_pos_r (2 ^ j)); [apply pow2_gt0; lia|].
      rewrite <- Z.pow_add_r by lia. replace (1074 - j + j) with 1074 by lia.
      change (2 ^ 1074) with one_key. lia. }
    assert (Hp : 64 * (1074 - j) < Z.log2_up (m ^ 64)).
    { apply Z.log2_up_lt_pow2; [apply Z.pow_pos_nonneg; lia|].
      replace (64 * (1074 - j)) with ((1074 - j) * 64) by lia.
      rewrite Z.pow_mul_r by lia.
      apply Z.pow_lt_mono_l; [lia|]. split; [apply Z.pow_nonneg; lia|exact Hlt]. }
    lia.
  - pose proof (Z.log2_up_nonneg (m ^ 64)). lia.
Qed.

Lemma log2_scaled_bounds k :
  0 < k < overflow_key -> - 2 ^ 53 <= log2_scaled k <= 2 ^ 53.
Proof.
  intros [Hk Hov].
  destruct (log2_scaled_parts k Hk) as (J & M & U & B).
  unfold log2_scaled.
  set (j := Z.max (Z.log2 k - 52) 0) in *.
  set (m := (k + 2 ^ j - 1) / 2 ^ j) in *.
  pose proof (log2_up_pow64_upper m 53 ltac:(lia) ltac:(lia) ltac:(lia)).
  pose proof (Z.log2_up_nonneg (m ^ 64)).
  assert (Z.log2 k < 2098).
  { apply Z.log2_lt_pow2; [assumption|]. exact Hov. }
  assert (j <= 2046) by (subst j; lia).
  change (2 ^ 53) with 9007199254740992. lia.
Qed.

Lemma of_int_small z :
  - 2 ^ 53 <= z <= 2 ^ 53 ->
  of_int z = Fin (z <? 0) (Z.abs z * one_key) /\ is_finite (of_int z) = true /\
  ord (of_int z) = z * one_key.
Proof.
  intros Hz. pose proof one_key_pos as Hone. unfold of_int, round_signed.
  destruct (Z.eqb_spec (z * one_key) 0) as [E|NE].
  - assert (z = 0) by nia. subst z. split; [reflexivity|]. split; vm_compute; reflexivity.
  - assert (Ea : Z.abs (z * one_key) = Z.abs z * one_key) by (rewrite Z.abs_mul; lia).
    assert (El : (z * one_key <? 0) = (z <? 0)).
    { destruct (Z.ltb_spec z 0), (Z.ltb_spec (z * one_key) 0); try reflexivity; nia. }
    rewrite Ea, El, round_int by lia.
    split; [reflexivity|]. split.
    + unfold is_finite. rewrite <- (round_int (z <? 0) (Z.abs z)) by lia.
      apply round_valid. lia.
    + simpl. destruct (Z.ltb_spec z 0); simpl; lia.
Qed.

Lemma approxLog_sane : sane_log approxLog.
Proof.
  pose proof one_key_pos as Hone.
  assert (Hsmall : forall x, is_positive x = true ->
            exists k, x = Fin false k /\ 0 < k < overflow_key /\
              is_finite (approxLog x) = true /\
              ord (approxLog x) = log2_scaled k * one_key).
  { intros x Hx. destruct (is_positive_inv x Hx) as (k & -> & Hk).
    exists k. split; [reflexivity|]. split; [assumption|].
    destruct (of_int_small (log2_scaled k) (log2_scaled_bounds k Hk)) as (_ & F & O).
    split; assumption. }
  constructor.
  - intros x Hx. destruct (Hsmall x Hx) as (k & _ & _ & F & _). exact F.
  - intros x y Hx Hy Hle.
    destruct (Hsmall x Hx) as (k1 & -> & Hk1 & F1 & O1).
    destruct (Hsmall y Hy) as (k2 & -> & Hk2 & F2 & O2).
    apply leb_true in Hle as (_ & _ & Hle). simpl in Hle.
    apply leb_true. rewrite O1, O2.
    destruct (approxLog (Fin false k1)); [discriminate| |];
    destruct (approxLog (Fin false k2)); try discriminate;
      repeat split; apply Z.mul_le_mono_nonneg_r; try lia;
      apply log2_scaled_mono; lia.
  - vm_compute. reflexivity.
  - intros x Hf Hgt. apply ltb_true in Hgt as (_ & _ & Hgt).
    change (ord one) with one_key in Hgt.
    destruct (is_finite_inv x Hf) as (s & k & -> & Hk).
    destruct s; simpl in Hgt; [lia|].
    assert (Hp : is_positive (Fin false k) = true).
    { unfold is_positive. rewrite Hf. apply ltb_true. simpl. repeat split; lia. }
    destruct (Hsmall _ Hp) as (k' & E & _ & F & O). injection E as <-.
    apply ltb_true. rewrite O. pose proof (log2_scaled_pos k Hgt).
    destruct (approxLog (Fin false k)); [discriminate| |]; repeat split; simpl; nia.
Qed.

End ApproxLog.

(** ** The theorems at concrete inputs *)

Section Samples.
Local Open Scope Z_scope.

(** Sample values for the string constants and the standard library. *)
Local Abbreviation sampleTags :=
  (<["db.couchbase.service" := "kv"]>
     (<["db.net.peer.name" := "node1"]> (∅ : gmap string string))).
Local Abbreviation sampleTags2 :=
  (<["db.couchbase.service" := "query"]>
     (<["db.net.peer.name" := "node2"]> (∅ : gmap string string))).
Local Abbreviation sampleNew :=
  (newLatencyHistogram F64.approxLog (F64.lit 2000000 1) (F64.lit 1000 1) (F64.lit 3 2)).
Local Abbreviation sampleStart :=
  (start "kv" "views" "query" "search" "analytics" "management" None).
Local Abbreviation sampleRun marshal :=
  (run F64.approxLog F64.approxPow "db.couchbase.responses" "db.couchbase.service"
       "db.net.peer.name" marshal).
Local Abbreviation sampleStep marshal :=
  (step F64.approxLog F64.approxPow "db.couchbase.responses" "db.couchbase.service"
        "db.net.peer.name" marshal).
Local Abbreviation sampleValueRecorder :=
  (ValueRecorder F64.approxLog "db.couchbase.responses" "db.couchbase.service"
                 "db.net.peer.name" "db.couchbase.responses").

Local Abbreviation sampleEvents :=
  [EvRecord "db.couchbase.responses" sampleTags 1500;
   EvRecord "db.couchbase.requests" sampleTags 7;
   EvRecord "db.couchbase.responses" sampleTags 2250].

Lemma sample_histogram : exists lh0, sampleNew = Some lh0 /\ length (lh_bins lh0) = 21%nat.
Proof. eexists. split; vm_compute; reflexivity. Qed.

Lemma bin_index_in_bounds_witness :
  exists lh0 bin,
    sampleNew = Some lh0 /\
    binIndex F64.approxLog lh0 1500 = Some bin /\
    0 <= bin <= Z.of_nat (length (lh_bins lh0)) - 1 /\
    (F64.leb (F64.of_uint64 1500) (lh_maxValue lh0) = true ->
     bin < Z.of_nat (length (lh_bins lh0)) - 1) /\
    is_Some (RecordValue F64.approxLog lh0 1500).
Proof.
  destruct sample_histogram as (lh0 & Hnew & Hlen).
  destruct (bin_index_in_bounds F64.approxLog _ _ _ lh0 lh0 1500
              approxLog_sane recorder_shape_ok Hnew (evolves_new _ _))
    as (bin & H); [rewrite Hlen; vm_compute; reflexivity|lia|].
  exists lh0, bin. split; [exact Hnew|exact H].
Defined.

Lemma RecordValue_increments_one_bin_witness :
  exists lh0 (b : nat) (c : Z) lh',
    sampleNew = Some lh0 /\
    specBin F64.approxLog lh0 2250 = Some (Z.of_nat b) /\
    lh_bins lh0 !! b = Some c /\
    RecordValue F64.approxLog lh0 2250 = Some lh' /\
    lh_bins lh' !! b = Some (wrap64 (c + 1)) /\
    (forall i, i <> b -> lh_bins lh' !! i = lh_bins lh0 !! i) /\
    length (lh_bins lh') = length (lh_bins lh0).
Proof.
  destruct sample_histogram as (lh0 & Hnew & Hlen).
  destruct (RecordValue_increments_one_bin F64.approxLog _ _ _ lh0 lh0 2250
              approxLog_sane recorder_shape_ok Hnew (evolves_new _ _))
    as (b & c & lh' & H); [rewrite Hlen; vm_compute; reflexivity|lia|].
  exists lh0, b, c, lh'. split; [exact Hnew|exact H].
Defined.

Lemma histogram_bins_length_witness :
  exists lh0,
    sampleNew = Some lh0 /\
    F64.to_int
      (F64.add
         (F64.Ceil (F64.div (mathLog F64.approxLog
                               (F64.div (F64.lit 2000000 1) (F64.lit 1000 1)))
                            (mathLog F64.approxLog (F64.lit 3 2))))
         (F64.lit 2 1)) = Some (Z.of_nat (length (lh_bins lh0))) /\
    length (lhs_bins (AggregateAndReset lh0).1) = length (lh_bins lh0).
Proof.
  destruct sample_histogram as (lh0 & Hnew & Hlen).
  destruct (histogram_bins_length F64.approxLog _ _ _ lh0 lh0 Hnew (evolves_new _ _))
    as (H1 & H2 & _).
  exists lh0. split; [exact Hnew|]. split; [exact H1|exact H2].
Defined.

Lemma BinAtPercentile_follows_spec_witness :
  exists lh0 lh1,
    sampleNew = Some lh0 /\
    RecordValue F64.approxLog lh0 1000 = Some lh1 /\
    TotalCount (AggregateAndReset lh1).1 = Some 1 /\
    BinAtPercentile F64.approxPow (AggregateAndReset lh1).1 (F64.lit 50 1)
    = Some "<= 1000.00".
Proof.
  destruct sample_histogram as (lh0 & Hnew & _).
  destruct (proj2 (BinAtPercentile_follows_spec F64.approxLog F64.approxPow)
              lh0 approxLog_sane Hnew) as (lh1 & H).
  exists lh0, lh1. split; [exact Hnew|exact H].
Defined.

Lemma snapshot_counts_recordings_witness :
  exists lh0 lh,
    sampleNew = Some lh0 /\
    recordAll F64.approxLog lh0 [1000; 1500; 3000000] = Some lh /\
    nondecreasing (lhs_bins (AggregateAndReset lh).1) /\
    TotalCount (AggregateAndReset lh).1 = Some 3 /\
    TotalCount (AggregateAndReset (AggregateAndReset lh).2).1 = Some 0.
Proof.
  eexists. eexists.
  split; [vm_compute; reflexivity|]. split; [vm_compute; reflexivity|].
  eapply (snapshot_counts_recordings F64.approxLog _ [1000; 1500; 3000000]).
  - left. exists (F64.lit 2000000 1), (F64.lit 1000 1), (F64.lit 3 2).
    vm_compute. reflexivity.
  - discriminate.
  - vm_compute. reflexivity.
  - vm_compute. reflexivity.
Defined.

Lemma BinAtPercentile_finds_bin_witness :
  exists count index bin,
    let lhs := {| lhs_bins := [1; 1; 2; 2]; lhs_commonRatio := F64.lit 3 2;
                  lhs_startValue := F64.lit 1000 1 |} in
    percentileCount (F64.lit 999 10) 2 = Some count /\ count <= 2 /\
    list_find (fun b => count <= b) (lhs_bins lhs) = Some (index, bin) /\
    BinAtPercentile F64.approxPow lhs (F64.lit 999 10)
    = Some (specBound F64.approxPow lhs index) /\
    BinAtPercentile F64.approxPow lhs (F64.lit 999 10) <> Some "0.0".
Proof.
  apply (BinAtPercentile_finds_bin F64.approxPow
           {| lhs_bins := [1; 1; 2; 2]; lhs_commonRatio := F64.lit 3 2;
              lhs_startValue := F64.lit 1000 1 |} (F64.lit 999 10) 2).
  - reflexivity.
  - lia.
  - vm_compute. reflexivity.
  - vm_compute. reflexivity.
  - vm_compute. reflexivity.
Defined.

(** C9, the claim as stated fails.  [float64(2^53 + 3)] is [2^53 + 4]:
    after [2^53 + 3] recordings of the value 0 into a recorder's histogram
    the snapshot has that total, and [BinAtPercentile(100)] compares every
    bin with the threshold [2^53 + 4] and returns the sentinel. *)
Lemma BinAtPercentile_returns_sentinel :
  exists lh0 lh,
    sampleNew = Some lh0 /\
    evolves F64.approxLog lh0 lh /\
    TotalCount (AggregateAndReset lh).1 = Some (2 ^ 53 + 3) /\
    F64.of_uint64 (2 ^ 53 + 3) = F64.of_uint64 (2 ^ 53 + 4) /\
    percentileCount (F64.lit 100 1) (2 ^ 53 + 3) = Some (2 ^ 53 + 4) /\
    BinAtPercentile F64.approxPow (AggregateAndReset lh).1 (F64.lit 100 1)
    = Some "0.0".
Proof.
  eexists. eexists.
  split; [vm_compute; reflexivity|]. split; [|split; [|split; [|split]]].
  - eapply (record_zero_evolves F64.approxLog _ _ _ (2 ^ 53 + 3) (evolves_new _ _)).
    + reflexivity.
    + vm_compute. reflexivity.
    + vm_compute. reflexivity.
    + vm_compute. split; [discriminate|reflexivity].
  - vm_compute. reflexivity.
  - vm_compute. reflexivity.
  - vm_compute. reflexivity.
  - vm_compute. reflexivity.
Qed.

Lemma ValueRecorder_resolves_to_same_recorder_witness :
  exists am1 hp1 l,
    sampleValueRecorder sampleTags (meter sampleStart) ∅ = Some (recorderAt l, am1, hp1) /\
    recorder_of am1 "kv" "node1" = Some l /\
    sampleValueRecorder sampleTags am1 hp1 = Some (recorderAt l, am1, hp1) /\
    meter_wf am1 hp1.
Proof.
  assert (H : exists r1 am1 hp1,
             sampleValueRecorder sampleTags (meter sampleStart) ∅ = Some (r1, am1, hp1)).
  { eexists _, _, _. vm_compute. reflexivity. }
  destruct H as (r1 & am1 & hp1 & H).
  destruct (ValueRecorder_resolves_to_same_recorder
              F64.approxLog F64.approxPow "db.couchbase.responses"
              "db.couchbase.service" "db.net.peer.name" sampleMarshal
              (meter sampleStart) ∅ sampleTags sampleTags "kv" "node1" r1 am1 hp1)
    as (l & -> & Hl & H2 & _ & Hwf); try (vm_compute; reflexivity).
  - eexists. vm_compute. reflexivity.
  - exact H.
  - exists am1, hp1, l. split; [exact H|]. split; [exact Hl|]. split; [exact H2|].
    apply Hwf. split.
    + intros service peer l' E. exfalso. revert E. unfold recorder_of.
      intros E. apply bind_Some in E as (g & Hg & E).
      apply NewAggregatingMeter_groups in Hg. subst g. discriminate E.
    + intros s1 p1 s2 p2 l' E. exfalso. revert E. unfold recorder_of.
      intros E. apply bind_Some in E as (g & Hg & E).
      apply NewAggregatingMeter_groups in Hg. subst g. discriminate E.
Defined.

Lemma service_present_iff_group_has_recorder_witness :
  exists st output hp,
    sampleRun sampleMarshal sampleStart
      [EvRecord "db.couchbase.responses" sampleTags 1500] = Some st /\
    generateOutput F64.approxPow (meter st) (objects st) = Some (output, hp) /\
    (is_Some (output !! "kv") <->
     exists group,
       valueRecorderGroups (meter st) !! "kv" = Some group /\ recorders group <> ∅).
Proof.
  assert (H : exists st output hp,
             sampleRun sampleMarshal sampleStart
               [EvRecord "db.couchbase.responses" sampleTags 1500] = Some st /\
             generateOutput F64.approxPow (meter st) (objects st) = Some (output, hp)).
  { eexists _, _, _. split; [vm_compute; reflexivity|]. vm_compute. reflexivity. }
  destruct H as (st & output & hp & Hrun & Hout).
  exists st, output, hp. split; [exact Hrun|]. split; [exact Hout|].
  apply (service_present_iff_group_has_recorder F64.approxPow _ _ _ _ "kv" Hout).
  discriminate.
Defined.

(** C3, the claim as stated fails.  One value is recorded for the peer
    [node1] of the service [kv] and emitted on the next tick.  Nothing is
    recorded afterwards, and the record of the tick after that still has
    the service, with [total_count = 0] for the peer. *)
Lemma idle_service_still_reported :
  exists st output hp peers values,
    sampleRun sampleMarshal sampleStart
      [EvRecord "db.couchbase.responses" sampleTags 1500; EvTick] = Some st /\
    length (logged st) = 1%nat /\
    generateOutput F64.approxPow (meter st) (objects st) = Some (output, hp) /\
    output !! "kv" = Some (ServiceEntry peers) /\
    peers !! "node1" = Some values /\
    total_count values = 0.
Proof.
  eexists _, _, _, _, _.
  split; [vm_compute; reflexivity|]. split; [vm_compute; reflexivity|].
  split; [vm_compute; reflexivity|]. split; [vm_compute; reflexivity|].
  split; vm_compute; reflexivity.
Qed.

Lemma logger_returns_on_empty_tick_witness :
  exists st,
    sampleRun sampleMarshal sampleStart
      [EvTick; EvRecord "db.couchbase.responses" sampleTags 1500; EvTick] = Some st /\
    running st = false /\ logged st = [].
Proof.
  eexists. split; [vm_compute; reflexivity|].
  eapply (proj2 (logger_returns_on_empty_tick
                   F64.approxLog F64.approxPow "db.couchbase.responses"
                   "db.couchbase.service" "db.net.peer.name"
                   "kv" "views" "query" "search" "analytics" "management"
                   sampleMarshal)
                None [EvRecord "db.couchbase.responses" sampleTags 1500; EvTick]).
  vm_compute. reflexivity.
Defined.



(** *** Examples for the further properties *)

Lemma sample_counters :
  exists lh, lh_bins lh = [1; 0; 2; 0] /\ lh_maxValue lh = F64.lit 2000000 1.
Proof.
  destruct sample_histogram as (lh0 & Hnew & _).
  exists (with_bins lh0 [1; 0; 2; 0]). split; [reflexivity|].
  cbn [with_bins lh_maxValue].
  exact (proj1 (constructed_fields F64.approxLog _ _ _ _ Hnew)).
Qed.

Lemma sample_recorded :
  exists st l output hp,
    sampleRun sampleMarshal sampleStart sampleEvents = Some st /\
    recorder_of (meter st) "kv" "node1" = Some l /\
    running st = true /\
    generateOutput F64.approxPow (meter st) (objects st) = Some (output, hp) /\
    meter_wf (meter st) (objects st).
Proof.
  assert (H : exists st l output hp,
    sampleRun sampleMarshal sampleStart sampleEvents = Some st /\
    recorder_of (meter st) "kv" "node1" = Some l /\
    running st = true /\
    generateOutput F64.approxPow (meter st) (objects st) = Some (output, hp)).
  { eexists _, _, _, _. split; [vm_compute; reflexivity|].
    split; [vm_compute; reflexivity|]. split; vm_compute; reflexivity. }
  destruct H as (st & l & output & hp & Hrun & Hl & Hr & Hgen).
  exists st, l, output, hp. repeat (split; [assumption|]).
  apply (run_wf F64.approxLog F64.approxPow "db.couchbase.responses"
                "db.couchbase.service" "db.net.peer.name" sampleMarshal _ _ _ Hrun).
  apply start_wf.
Qed.

Lemma sample_ticks :
  exists st l st',
    sampleRun sampleMarshal sampleStart
      [EvRecord "db.couchbase.responses" sampleTags 1500] = Some st /\
    recorder_of (meter st) "kv" "node1" = Some l /\
    running st = true /\
    sampleRun sampleMarshal st
      [EvTick; EvRecord "db.couchbase.responses" sampleTags 2250; EvTick] = Some st'.
Proof.
  eexists _, _, _. split; [vm_compute; reflexivity|].
  split; [vm_compute; reflexivity|]. split; vm_compute; reflexivity.
Qed.

Lemma AggregateAndReset_prefix_sums_witness :
  exists lh,
    lh_bins lh = [1; 0; 2; 0] /\
    lhs_bins (AggregateAndReset lh).1 !! 2%nat
    = Some (wrap64 (sumZ (take 3 (lh_bins lh)))).
Proof.
  destruct sample_counters as (lh & Hbins & _).
  exists lh. split; [exact Hbins|].
  apply (proj1 (AggregateAndReset_prefix_sums lh) 2%nat).
  rewrite Hbins. simpl. lia.
Defined.

Lemma bin_index_monotone_witness :
  exists lh0 bin1 bin2,
    sampleNew = Some lh0 /\
    binIndex F64.approxLog lh0 1500 = Some bin1 /\
    binIndex F64.approxLog lh0 2250 = Some bin2 /\
    bin1 <= bin2.
Proof.
  destruct sample_histogram as (lh0 & Hnew & Hlen).
  destruct (bin_index_monotone F64.approxLog _ _ _ lh0 lh0 1500 2250
              approxLog_sane recorder_shape_ok Hnew (evolves_new _ _))
    as (b1 & b2 & H); [rewrite Hlen; vm_compute; reflexivity|lia|lia|lia|].
  exists lh0, b1, b2. split; [exact Hnew|exact H].
Defined.

Lemma hundredth_percentile_is_highest_bin_witness :
  exists lh,
    lh_bins lh = [1; 0; 2; 0] /\
    TotalCount (AggregateAndReset lh).1 = Some 3 /\
    BinAtPercentile F64.approxPow (AggregateAndReset lh).1 (F64.lit 100 1)
    = Some (specBound F64.approxPow (AggregateAndReset lh).1 2).
Proof.
  destruct sample_counters as (lh & Hbins & _).
  exists lh. split; [exact Hbins|].
  destruct (hundredth_percentile_is_highest_bin F64.approxPow lh 2 2) as [H1 H2].
  - rewrite Hbins. repeat (apply List.Forall_cons; [lia|]). apply List.Forall_nil.
  - rewrite Hbins. cbn [sumZ foldr]. lia.
  - rewrite Hbins. reflexivity.
  - lia.
  - rewrite Hbins. intros j y Hj Hy.
    destruct j as [|[|[|[|j]]]]; try lia; [injection Hy as <-; reflexivity|discriminate Hy].
  - split; [|exact H2]. rewrite H1, Hbins. reflexivity.
Defined.

Lemma higher_percentile_reports_higher_bin_witness :
  exists lh i j,
    lh_bins lh = [1; 0; 2; 0] /\
    BinAtPercentile F64.approxPow (AggregateAndReset lh).1 (F64.lit 50 1)
    = Some (specBound F64.approxPow (AggregateAndReset lh).1 i) /\
    BinAtPercentile F64.approxPow (AggregateAndReset lh).1 (F64.lit 99 1)
    = Some (specBound F64.approxPow (AggregateAndReset lh).1 j) /\
    (i <= j < length (lhs_bins (AggregateAndReset lh).1))%nat.
Proof.
  destruct sample_counters as (lh & Hbins & _).
  assert (Ht : TotalCount (AggregateAndReset lh).1 = Some 3).
  { unfold TotalCount. cbn [AggregateAndReset fst lhs_bins]. rewrite Hbins. reflexivity. }
  assert (V50 : F64.valid (F64.lit 50 1) = true) by (vm_compute; reflexivity).
  assert (V99 : F64.valid (F64.lit 99 1) = true) by (vm_compute; reflexivity).
  assert (L0 : F64.leb F64.zero (F64.lit 50 1) = true) by (vm_compute; reflexivity).
  assert (L1 : F64.leb (F64.lit 50 1) (F64.lit 99 1) = true) by (vm_compute; reflexivity).
  assert (L2 : F64.leb (F64.lit 99 1) (F64.lit 100 1) = true) by (vm_compute; reflexivity).
  destruct (higher_percentile_reports_higher_bin F64.approxPow
              (AggregateAndReset lh).1 3 (F64.lit 50 1) (F64.lit 99 1)
              Ht ltac:(lia) V50 V99 L0 L1 L2)
    as (i & j & H).
  exists lh, i, j. split; [exact Hbins|exact H].
Defined.

Lemma GetAndResetValues_reports_and_resets_witness :
  exists lh values bc',
    lh_bins lh = [1; 0; 2; 0] /\
    GetAndResetValues F64.approxPow {| peerName := "node1"; hist := lh |}
    = Some (values, bc') /\
    total_count values = 3 /\ lh_bins (hist bc') = [0; 0; 0; 0].
Proof.
  destruct sample_counters as (lh & Hbins & _).
  destruct (GetAndResetValues_reports_and_resets F64.approxPow
              {| peerName := "node1"; hist := lh |})
    as (values & bc' & i50 & i90 & i99 & i999 & i100 & H & Ht & _ & _ & _ & _ & _ & _ &
        _ & _ & _ & Hz).
  - cbn [hist]. rewrite Hbins. discriminate.
  - cbn [hist]. rewrite Hbins. repeat (apply List.Forall_cons; [lia|]). apply List.Forall_nil.
  - cbn [hist]. rewrite Hbins. cbn [sumZ foldr]. lia.
  - exists lh, values, bc'. split; [exact Hbins|]. split; [exact H|].
    cbn [hist] in Ht, Hz. rewrite Hbins in Ht, Hz. split; [exact Ht|exact Hz].
Defined.

Lemma unrecognised_recording_is_dropped_witness :
  sampleStep sampleMarshal sampleStart (EvRecord "db.couchbase.requests" sampleTags 7)
  = Some sampleStart.
Proof.
  apply (proj2 (unrecognised_recording_is_dropped
                  F64.approxLog F64.approxPow "db.couchbase.responses"
                  "db.couchbase.service" "db.net.peer.name" sampleMarshal
                  sampleStart "db.couchbase.requests" sampleTags 7)).
  left. apply String.eqb_neq. reflexivity.
Defined.

Lemma service_groups_never_change_witness :
  exists st,
    sampleRun sampleMarshal sampleStart sampleEvents = Some st /\
    dom (valueRecorderGroups (meter st))
    =@{gset string} list_to_set ["kv"; "views"; "query"; "search"; "analytics"; "management"] /\
    interval (meter st) = tenMinutes.
Proof.
  destruct sample_recorded as (st & l & output & hp & Hrun & _).
  exists st. split; [exact Hrun|].
  exact (proj2 (service_groups_never_change
                  F64.approxLog F64.approxPow "db.couchbase.responses"
                  "db.couchbase.service" "db.net.peer.name"
                  "kv" "views" "query" "search" "analytics" "management" sampleMarshal)
               None sampleEvents st Hrun).
Defined.

Lemma registry_stays_consistent_witness :
  exists st,
    sampleRun sampleMarshal sampleStart sampleEvents = Some st /\
    meter_wf (meter st) (objects st).
Proof.
  destruct sample_recorded as (st & l & output & hp & Hrun & _).
  exists st. split; [exact Hrun|].
  exact (proj1 (registry_stays_consistent
                  F64.approxLog F64.approxPow "db.couchbase.responses"
                  "db.couchbase.service" "db.net.peer.name"
                  "kv" "views" "query" "search" "analytics" "management" sampleMarshal)
               None sampleEvents st Hrun).
Defined.

Lemma generateOutput_reports_every_recorder_witness :
  exists st l output hp bc values bc' peers,
    recorder_of (meter st) "kv" "node1" = Some l /\
    generateOutput F64.approxPow (meter st) (objects st) = Some (output, hp) /\
    objects st !! l = Some bc /\
    GetAndResetValues F64.approxPow bc = Some (values, bc') /\
    hp !! l = Some bc' /\
    output !! "kv" = Some (ServiceEntry peers) /\ peers !! "node1" = Some values.
Proof.
  destruct sample_recorded as (st & l & output & hp & _ & Hl & _ & Hgen & Hwf).
  destruct (generateOutput_reports_every_recorder F64.approxPow
              (meter st) (objects st) output hp "kv" "node1" l Hwf Hgen Hl)
    as (bc & values & bc' & peers & H1 & H2 & H3 & H4 & H5 & _).
  exists st, l, output, hp, bc, values, bc', peers.
  split; [exact Hl|]. split; [exact Hgen|]. auto.
Defined.

Lemma generateOutput_reports_only_registered_witness :
  exists st output hp,
    generateOutput F64.approxPow (meter st) (objects st) = Some (output, hp) /\
    (forall service peers peer values,
        output !! service = Some (ServiceEntry peers) ->
        peers !! peer = Some values ->
        exists l, recorder_of (meter st) service peer = Some l) /\
    (forall l : nat,
        (forall service peer, recorder_of (meter st) service peer <> Some l) ->
        hp !! l = objects st !! l).
Proof.
  destruct sample_recorded as (st & l & output & hp & _ & Hl & _ & Hgen & Hwf).
  exists st, output, hp. split; [exact Hgen|].
  exact (generateOutput_reports_only_registered F64.approxPow
           (meter st) (objects st) output hp Hwf Hgen).
Defined.

Lemma routine_logs_every_tick_once_registered_witness :
  exists st st',
    sampleRun sampleMarshal st
      [EvTick; EvRecord "db.couchbase.responses" sampleTags 2250; EvTick] = Some st' /\
    running st' = true /\
    length (List.filter isInfo (logged st'))
    = (length (List.filter isInfo (logged st)) + 2)%nat.
Proof.
  destruct sample_ticks as (st & l & st' & _ & Hl & Hr & Hrun).
  exists st, st'. split; [exact Hrun|].
  apply (routine_logs_every_tick_once_registered
           F64.approxLog F64.approxPow "db.couchbase.responses"
           "db.couchbase.service" "db.net.peer.name" sampleMarshal
           st [EvTick; EvRecord "db.couchbase.responses" sampleTags 2250; EvTick]
           st' "kv" "node1" l Hr Hl); [discriminate| |exact Hrun].
  intros Hin. repeat (apply elem_of_cons in Hin as [Hin|Hin]; [discriminate Hin|]).
  apply elem_of_nil in Hin. exact Hin.
Defined.

Lemma emission_counts_recordings_per_peer_witness :
  exists st output hp peers values,
    sampleRun sampleMarshal sampleStart sampleEvents = Some st /\
    generateOutput F64.approxPow (meter st) (objects st) = Some (output, hp) /\
    output !! "kv" = Some (ServiceEntry peers) /\ peers !! "node1" = Some values /\
    total_count values = 2.
Proof.
  destruct sample_recorded as (st & l & output & hp & Hrun & _ & _ & Hgen & _).
  destruct (proj1 (emission_counts_recordings_per_peer
                     F64.approxLog F64.approxPow "db.couchbase.responses"
                     "db.couchbase.service" "db.net.peer.name"
                     "kv" "views" "query" "search" "analytics" "management"
                     sampleMarshal)
                  None sampleEvents st "kv" "node1" output hp)
    as (peers & values & Ho & Hp & Ht).
  - eexists. vm_compute. reflexivity.
  - intros Hin. repeat (apply elem_of_cons in Hin as [Hin|Hin]; [discriminate Hin|]).
    apply elem_of_nil in Hin. exact Hin.
  - exact Hrun.
  - vm_compute. split; reflexivity.
  - exact Hgen.
  - exists st, output, hp, peers, values. split; [exact Hrun|]. split; [exact Hgen|].
    split; [exact Ho|]. split; [exact Hp|]. rewrite Ht. vm_compute. reflexivity.
Defined.

Lemma meter_never_panics_witness :
  exists st,
    sampleRun sampleMarshal sampleStart
      [EvRecord "db.couchbase.responses" sampleTags 1500; EvTick;
       EvRecord "db.couchbase.responses" sampleTags 18446744073709551615; EvTick;
       EvStop] = Some st.
Proof.
  destruct sample_histogram as (lh0 & Hnew & Hlen).
  apply (meter_never_panics
           F64.approxLog F64.approxPow "db.couchbase.responses"
           "db.couchbase.service" "db.net.peer.name"
           "kv" "views" "query" "search" "analytics" "management" sampleMarshal
           None
           [EvRecord "db.couchbase.responses" sampleTags 1500; EvTick;
            EvRecord "db.couchbase.responses" sampleTags 18446744073709551615; EvTick;
            EvStop]
           lh0 approxLog_sane Hnew).
  - rewrite Hlen. vm_compute. reflexivity.
  - repeat (apply List.Forall_cons; [first [exact I|cbn [in_range]; lia]|]).
    apply List.Forall_nil.
  - cbn [List.filter isRecord length]. lia.
Defined.

Lemma generateOutput_is_order_independent_witness :
  exists st output hp,
    sampleRun sampleMarshal sampleStart
      [EvRecord "db.couchbase.responses" sampleTags 1500;
       EvRecord "db.couchbase.responses" sampleTags2 2250] = Some st /\
    generateOutput F64.approxPow (meter st) (objects st) = Some (output, hp) /\
    collectServicesIn F64.approxPow (fun group => reverse (Recorders group))
      (reverse (map_to_list (valueRecorderGroups (meter st))))
      {[ "meta" := MetaEntry (interval (meter st)) ]} (objects st)
    = Some (output, hp).
Proof.
  assert (H : exists st output hp output2 hp2,
    sampleRun sampleMarshal sampleStart
      [EvRecord "db.couchbase.responses" sampleTags 1500;
       EvRecord "db.couchbase.responses" sampleTags2 2250] = Some st /\
    generateOutput F64.approxPow (meter st) (objects st) = Some (output, hp) /\
    collectServicesIn F64.approxPow (fun group => reverse (Recorders group))
      (reverse (map_to_list (valueRecorderGroups (meter st))))
      {[ "meta" := MetaEntry (interval (meter st)) ]} (objects st)
    = Some (output2, hp2)).
  { eexists _, _, _, _, _. split; [vm_compute; reflexivity|].
    split; vm_compute; reflexivity. }
  destruct H as (st & output & hp & output2 & hp2 & Hrun & Hgen & Hin).
  destruct (generateOutput_is_order_independent F64.approxPow
              (meter st) (objects st)
              (reverse (map_to_list (valueRecorderGroups (meter st))))
              (fun group => reverse (Recorders group))
              output hp output2 hp2) as [E1 E2].
  - apply (run_wf F64.approxLog F64.approxPow "db.couchbase.responses"
                  "db.couchbase.service" "db.net.peer.name" sampleMarshal _ _ _ Hrun).
    apply start_wf.
  - apply reverse_Permutation.
  - intros group. apply reverse_Permutation.
  - exact Hin.
  - exact Hgen.
  - exists st, output, hp. split; [exact Hrun|]. split; [exact Hgen|].
    rewrite <- E1, <- E2. exact Hin.
Defined.

Lemma idle_recorder_reports_first_bin_witness :
  exists lh0 values bc',
    sampleNew = Some lh0 /\
    GetAndResetValues F64.approxPow {| peerName := "node1"; hist := lh0 |}
    = Some (values, bc') /\
    total_count values = 0.
Proof.
  destruct sample_histogram as (lh0 & Hnew & Hlen).
  eexists lh0, _, _. split; [exact Hnew|]. split.
  - apply (idle_recorder_reports_first_bin F64.approxPow
             {| peerName := "node1"; hist := lh0 |}).
    + cbn [hist]. intros E. rewrite E in Hlen. discriminate Hlen.
    + cbn [hist]. apply (freshly_reset_zero F64.approxLog). left. eauto.
  - reflexivity.
Defined.

End Samples.
